(** * Simplex.py: a tableau Simplex solver, embedded and verified

    The solver [simplex_max] of [Simplex.py] maximises [c^T x] subject to
    [A x <= b], [x >= 0], [b >= 0] on a dense tableau.  The embedding below
    follows the Python text function by function.

    - Python floats are an abstract numeric type [F] with the operations the
      solver uses (class [Num]).  Two instances are given: IEEE binary64
      ([PrimFloat], which is what a Python [float] is) and exact extended
      rationals ([xQ]), the arithmetic the algorithm is designed for.
    - Python lists are [list]; [l[i]] is [nth i l d] and [l[i] = v] is
      [list_set].  Every index the solver uses is in range once validation has
      passed (lemmas [build_tableau_shape] and [pivot_shape]).
    - The arguments are taken as floats, as the annotations of the source
      say; the integers of the examples are the floats of the same value.
    - [while True] is a loop with fuel: [None] means the fuel ran out.
    - [print] is a log of tableau and basis snapshots; number formatting is
      not modelled. *)

From Stdlib Require Import String.
From Stdlib Require Import List Bool Arith ZArith QArith Qabs Lia Lqa.
From Stdlib Require Import PrimFloat SpecFloat FloatOps.
Import ListNotations.

Set Warnings "-inexact-float".
Local Open Scope nat_scope.

(** ** The arithmetic the solver needs *)

Class Num (F : Type) : Type := {
  zero : F;                    (* 0.0 *)
  one : F;                     (* 1.0 *)
  inf : F;                     (* math.inf *)
  eps12 : F;                   (* 1e-12 *)
  eps9 : F;                    (* 1e-9 *)
  sub : F -> F -> F;           (* x - y *)
  mul : F -> F -> F;           (* x * y *)
  div : F -> F -> F;           (* x / y *)
  opp : F -> F;                (* -x *)
  absv : F -> F;               (* abs(x) *)
  ltb : F -> F -> bool;        (* x < y *)
  leb : F -> F -> bool         (* x <= y *)
}.

(** IEEE binary64, the Python [float]. *)
#[export] Instance Num_float : Num float := {|
  zero := 0%float;
  one := 1%float;
  inf := infinity;
  eps12 := 1e-12%float;
  eps9 := 1e-9%float;
  sub := PrimFloat.sub;
  mul := PrimFloat.mul;
  div := PrimFloat.div;
  opp := PrimFloat.opp;
  absv := PrimFloat.abs;
  ltb := PrimFloat.ltb;
  leb := PrimFloat.leb
|}.

(** Exact arithmetic: rationals in lowest terms, with a point at infinity
    for [math.inf].  Infinity absorbs every operation; the solver only ever
    compares against it. *)
Inductive xQ : Type :=
| Fin (q : Q)
| PInf.

Definition xQ_lift2 (f : Q -> Q -> Q) (x y : xQ) : xQ :=
  match x, y with
  | Fin a, Fin b => Fin (Qred (f a b))
  | _, _ => PInf
  end.

Definition xQ_lift1 (f : Q -> Q) (x : xQ) : xQ :=
  match x with
  | Fin a => Fin (Qred (f a))
  | PInf => PInf
  end.

Definition xQ_ltb (x y : xQ) : bool :=
  match x, y with
  | Fin a, Fin b => negb (Qle_bool b a)
  | Fin _, PInf => true
  | PInf, _ => false
  end.

Definition xQ_leb (x y : xQ) : bool :=
  match x, y with
  | Fin a, Fin b => Qle_bool a b
  | _, PInf => true
  | PInf, Fin _ => false
  end.

#[export] Instance Num_xQ : Num xQ := {|
  zero := Fin 0;
  one := Fin 1;
  inf := PInf;
  eps12 := Fin (1 # 1000000000000);
  eps9 := Fin (1 # 1000000000);
  sub := xQ_lift2 Qminus;
  mul := xQ_lift2 Qmult;
  div := xQ_lift2 Qdiv;
  opp := xQ_lift1 Qopp;
  absv := xQ_lift1 Qabs;
  ltb := xQ_ltb;
  leb := xQ_leb
|}.

(** ** Python list operations *)

(** [l[i] = v] for [i] in range. *)
Fixpoint list_set {X : Type} (l : list X) (i : nat) (v : X) : list X :=
  match l, i with
  | [], _ => []
  | _ :: t, O => v :: t
  | h :: t, S i' => h :: list_set t i' v
  end.

(** [enumerate(l)], counting from [k]. *)
Fixpoint enumerate_from {X : Type} (k : nat) (l : list X) : list (nat * X) :=
  match l with
  | [] => []
  | x :: t => (k, x) :: enumerate_from (S k) t
  end.

Definition enumerate {X : Type} (l : list X) : list (nat * X) :=
  enumerate_from 0 l.

(** [min(l)] of a non-empty list of indices. *)
Definition list_min (l : list nat) : nat :=
  match l with
  | [] => 0
  | h :: t => fold_left Nat.min t h
  end.

(** ** The solver *)

Record SimplexResult (F : Type) : Type := mkSimplexResult {
  status : string;             (* 'optimal', 'unbounded', 'infeasible' *)
  z_opt : option F;
  x_opt : option (list F);
  iterations : nat;
  message : string
}.

Arguments mkSimplexResult {F} _ _ _ _ _.
Arguments status {F} _.
Arguments z_opt {F} _.
Arguments x_opt {F} _.
Arguments iterations {F} _.
Arguments message {F} _.

Section Simplex.

Context {F : Type} {NF : Num F}.

Local Abbreviation Row := (list F).
Local Abbreviation Tableau := (list (list F)).

(** What [print_tableau] shows: the tableau and the basis. *)
Definition Snapshot : Type := (Tableau * list nat)%type.

(** [argmin_with_ties]: the loop over [enumerate(zip(values, eligible))],
    carrying [best_idx] and [best_val]. *)
Fixpoint argmin_scan (ive : list (nat * (F * bool)))
    (best_idx : option nat) (best_val : F) : option nat :=
  match ive with
  | [] => best_idx
  | (i, (v, ok)) :: rest =>
      if ok && ltb v (sub best_val eps12)
      then argmin_scan rest (Some i) v
      else argmin_scan rest best_idx best_val
  end.

Definition argmin_with_ties (values : list F) (eligible : list bool)
    : option nat :=
  argmin_scan (enumerate (combine values eligible)) None inf.

Definition approx_zero (x : F) : bool := leb (absv x) eps9.

(** *** Validation (lines 37-52) *)

Definition is_empty {X : Type} (l : list X) : bool :=
  match l with [] => true | _ => false end.

Definition msg_empty : string := "Matrices vacías.".
Definition msg_ragged : string := "Filas de A con distinta longitud.".
Definition msg_b_len : string := "Dimensión de b no coincide con A.".
Definition msg_c_len : string := "Dimensión de c no coincide con A.".
Definition msg_b_neg : string :=
  "Este solver asume b >= 0 para base de holguras factible.".

(** [Some msg] when a check fails, in the order of the source. *)
Definition validate (A : list (list F)) (b c : list F) : option string :=
  if is_empty A || is_empty (hd [] A) then Some msg_empty
  else
    let m := length A in
    let n := length (hd [] A) in
    if existsb (fun row => negb (length row =? n)) A then Some msg_ragged
    else if negb (length b =? m) then Some msg_b_len
    else if negb (length c =? n) then Some msg_c_len
    else if existsb (fun bi => ltb bi (opp eps12)) b then Some msg_b_neg
    else None.

(** *** Tableau construction (lines 54-67) *)

Definition build_row (n m i : nat) (Ai : Row) (bi : F) : Row :=
  list_set (Ai ++ repeat zero m ++ [bi]) (n + i) one.

Definition build_tableau (A : list (list F)) (b c : list F) : Tableau :=
  let m := length A in
  let n := length (hd [] A) in
  map (fun i => build_row n m i (nth i A []) (nth i b zero)) (seq 0 m)
  ++ [map opp c ++ repeat zero m ++ [zero]].

Definition initial_basis (n m : nat) : list nat :=
  map (fun i => n + i) (seq 0 m).

(** [print_tableau]: silent unless [show_steps]. *)
Definition print_tableau (show_steps : bool) (tableau : Tableau)
    (basis : list nat) (out : list Snapshot) : list Snapshot :=
  if show_steps then out ++ [(tableau, basis)] else out.

(** *** One pass of the loop (lines 81-125) *)

(** [r[-1]] *)
Definition rhs (r : Row) : F := last r zero.

(** [tableau[i][j]] *)
Definition entry (tableau : Tableau) (i j : nat) : F :=
  nth j (nth i tableau []) zero.

(** [[j for j, val in enumerate(z[:-1]) if val < -1e-12]] *)
Definition entering_candidates (z : Row) : list nat :=
  map fst (filter (fun jv => ltb (snd jv) (opp eps12))
                  (enumerate (removelast z))).

(** The reconstruction of [x] at the optimum (lines 87-90). *)
Definition extract_x (n : nat) (tableau : Tableau) (basis : list nat)
    : list F :=
  fold_left
    (fun x ib =>
       let '(i, basic_var) := ib in
       if basic_var <? n
       then list_set x basic_var (rhs (nth i tableau []))
       else x)
    (enumerate basis) (repeat zero n).

(** The ratio test (lines 97-106): [ratios] and [eligibles] row by row. *)
Definition ratio_of (tableau : Tableau) (entering i : nat) : F * bool :=
  let col_val := entry tableau i entering in
  if ltb eps12 col_val
  then (div (rhs (nth i tableau [])) col_val, true)
  else (inf, false).

Definition ratios (m : nat) (tableau : Tableau) (entering : nat) : list F :=
  map (fun i => fst (ratio_of tableau entering i)) (seq 0 m).

Definition eligibles (m : nat) (tableau : Tableau) (entering : nat)
    : list bool :=
  map (fun i => snd (ratio_of tableau entering i)) (seq 0 m).

(** The elimination of one row against the normalised pivot row
    (lines 117-121). *)
Definition eliminate_row (leaving entering : nat) (tableau : Tableau)
    (i : nat) : Tableau :=
  if i =? leaving then tableau
  else
    let factor := entry tableau i entering in
    if negb (approx_zero factor)
    then list_set tableau i
           (map (fun vv => sub (fst vv) (mul factor (snd vv)))
                (combine (nth i tableau []) (nth leaving tableau [])))
    else tableau.

(** The pivot on [(leaving, entering)] (lines 114-121). *)
Definition pivot (m : nat) (tableau : Tableau) (leaving entering : nat)
    : Tableau :=
  let p := entry tableau leaving entering in
  let tableau1 :=
    list_set tableau leaving (map (fun v => div v p) (nth leaving tableau []))
  in
  fold_left (eliminate_row leaving entering) (seq 0 (m + 1)) tableau1.

Definition msg_optimal : string := "Óptimo encontrado.".
Definition msg_unbounded : string :=
  "La función objetivo puede crecer indefinidamente (no acotado).".

(** What one pass of the loop finds: the optimum, an unbounded direction,
    or a pivot, which it carries out. *)
Inductive Pass : Type :=
| Optimal (z_opt : F) (x : list F)
| Unbounded
| Pivoted (tableau : Tableau) (basis : list nat).

Definition pass (n m : nat) (tableau : Tableau) (basis : list nat) : Pass :=
  let z := last tableau [] in
  let entering_candidates := entering_candidates z in
  if is_empty entering_candidates
  then
    let x := extract_x n tableau basis in
    let z_opt := rhs (last tableau []) in
    Optimal z_opt x
  else
    let entering := list_min entering_candidates in
    match argmin_with_ties (ratios m tableau entering)
                           (eligibles m tableau entering) with
    | None => Unbounded
    | Some leaving =>
        Pivoted (pivot m tableau leaving entering)
                (list_set basis leaving entering)
    end.

(** [while True]: each pass first increments [iterations]; the results are
    built where the source returns them. *)
Fixpoint simplex_loop (fuel : nat) (show_steps : bool) (n m : nat)
    (tableau : Tableau) (basis : list nat) (iterations : nat)
    (out : list Snapshot) : option (SimplexResult F * list Snapshot) :=
  match fuel with
  | O => None
  | S fuel' =>
      let iterations := iterations + 1 in
      match pass n m tableau basis with
      | Optimal z_opt x =>
          Some (mkSimplexResult "optimal" (Some z_opt) (Some x) iterations
                                msg_optimal, out)
      | Unbounded =>
          Some (mkSimplexResult "unbounded" None None iterations
                                msg_unbounded, out)
      | Pivoted tableau' basis' =>
          simplex_loop fuel' show_steps n m tableau' basis' iterations
                       (print_tableau show_steps tableau' basis' out)
      end
  end.

(** [simplex_max(A, b, c, show_steps)].  The result comes with what was
    printed. *)
Definition simplex_max (fuel : nat) (A : list (list F)) (b c : list F)
    (show_steps : bool) : option (SimplexResult F * list Snapshot) :=
  match validate A b c with
  | Some msg => Some (mkSimplexResult "infeasible" None None 0 msg, [])
  | None =>
      let m := length A in
      let n := length (hd [] A) in
      let tableau := build_tableau A b c in
      let basis := initial_basis n m in
      simplex_loop fuel show_steps n m tableau basis 0
                   (print_tableau show_steps tableau basis [])
  end.

End Simplex.

Arguments Optimal {F} _ _.
Arguments Unbounded {F}.
Arguments Pivoted {F} _ _.

(** ** What the claims speak about *)

Section Notions.

Context {F : Type} {NF : Num F}.

(** The five checks of the validator, as properties of the input. *)
Definition empty_matrix (A : list (list F)) : Prop :=
  A = [] \/ hd [] A = [].

Definition ragged_rows (A : list (list F)) : Prop :=
  exists row, In row A /\ length row <> length (hd [] A).

Definition b_length_mismatch (A : list (list F)) (b : list F) : Prop :=
  length b <> length A.

Definition c_length_mismatch (A : list (list F)) (c : list F) : Prop :=
  length c <> length (hd [] A).

Definition negative_rhs (b : list F) : Prop :=
  exists bi, In bi b /\ ltb bi (opp eps12) = true.

Definition violates_a_check (A : list (list F)) (b c : list F) : Prop :=
  empty_matrix A \/ ragged_rows A \/ b_length_mismatch A b
  \/ c_length_mismatch A c \/ negative_rhs b.

(** The message names a check that the input does fail. *)
Definition identifies_failed_check (msg : string) (A : list (list F))
    (b c : list F) : Prop :=
  (msg = msg_empty /\ empty_matrix A)
  \/ (msg = msg_ragged /\ ragged_rows A)
  \/ (msg = msg_b_len /\ b_length_mismatch A b)
  \/ (msg = msg_c_len /\ c_length_mismatch A c)
  \/ (msg = msg_b_neg /\ negative_rhs b).

(** Column [j] of the objective row [z] is a candidate to enter: it is not
    the right-hand side and its entry is below [-1e-12]. *)
Definition is_candidate (z : list F) (j : nat) : Prop :=
  j < length z - 1 /\ ltb (nth j z zero) (opp eps12) = true.

(** [pivots n m k T B T' B']: [k] passes of the loop, each of which pivots,
    lead from tableau [T] and basis [B] to [T'] and [B']. *)
Inductive pivots (n m : nat)
    : nat -> list (list F) -> list nat -> list (list F) -> list nat -> Prop :=
| pivots_O (T : list (list F)) (B : list nat) : pivots n m 0 T B T B
| pivots_S (k : nat) (T T1 T2 : list (list F)) (B B1 B2 : list nat) :
    pass n m T B = Pivoted T1 B1 ->
    pivots n m k T1 B1 T2 B2 ->
    pivots n m (S k) T B T2 B2.

(** The pass on [T] and [B] returns instead of pivoting. *)
Definition final_pass (n m : nat) (T : list (list F)) (B : list nat) : Prop :=
  forall T' B', pass n m T B <> Pivoted T' B'.

(** What a reading of [x] row by row would give if no two rows shared a
    basic variable: every row whose basic variable is an original variable
    finds its right-hand side in [x]. *)
Definition reads_every_basic_row (n : nat) (T : list (list F))
    (B : list nat) (x : list F) : Prop :=
  forall i, i < length B -> nth i B 0 < n ->
            nth (nth i B 0) x zero = rhs (nth i T []).

(** Row [i] after its elimination against the pivot row [l] in column [e]:
    what [eliminate_row] writes at index [i]. *)
Definition eliminated_row (l e : nat) (T : list (list F)) (i : nat)
    : list F :=
  if i =? l then nth i T []
  else
    let factor := entry T i e in
    if negb (approx_zero factor)
    then map (fun vv => sub (fst vv) (mul factor (snd vv)))
             (combine (nth i T []) (nth l T []))
    else nth i T [].

(** The tableau with the leaving row normalised (line 115). *)
Definition normalised (T : list (list F)) (l e : nat) : list (list F) :=
  list_set T l (map (fun v => div v (entry T l e)) (nth l T [])).

(** All rows have [w] entries. *)
Definition rows_of_width (w : nat) (T : list (list F)) : bool :=
  forallb (fun r => length r =? w) T.

End Notions.

(** ** Inputs of the scenarios *)

(** An integer as an exact rational. *)
Definition Fi (z : Z) : xQ := Fin (inject_Z z).

(** Scenario A: a bounded optimum. *)
Definition scenarioA_A : list (list xQ) := [[Fi 2; Fi 1]; [Fi 1; Fi 2]].
Definition scenarioA_b : list xQ := [Fi 8; Fi 8].
Definition scenarioA_c : list xQ := [Fi 3; Fi 5].
Definition scenarioA_A_float : list (list float) := [[2; 1]; [1; 2]]%float.
Definition scenarioA_b_float : list float := [8; 8]%float.
Definition scenarioA_c_float : list float := [3; 5]%float.

(** Scenario B: unbounded. *)
Definition scenarioB_A : list (list xQ) := [[Fi 1; Fi (-1)]].
Definition scenarioB_b : list xQ := [Fi 10].
Definition scenarioB_c : list xQ := [Fi 1; Fi 1].
Definition scenarioB_A_float : list (list float) := [[1; -1]]%float.
Definition scenarioB_b_float : list float := [10]%float.
Definition scenarioB_c_float : list float := [1; 1]%float.

(** Scenario C: a negative right-hand side. *)
Definition scenarioC_A_float : list (list float) := [[1; 1]]%float.
Definition scenarioC_b_float : list float := [-5]%float.
Definition scenarioC_c_float : list float := [1; 1]%float.

(** Scenario D: a ragged matrix. *)
Definition scenarioD_A : list (list xQ) := [[Fi 1; Fi 1]; [Fi 1]].
Definition scenarioD_b : list xQ := [Fi 8; Fi 8].
Definition scenarioD_c : list xQ := [Fi 1; Fi 1].
Definition scenarioD_A_float : list (list float) := [[1; 1]; [1]]%float.
Definition scenarioD_b_float : list float := [8; 8]%float.
Definition scenarioD_c_float : list float := [1; 1]%float.

(** An input on which eliminations are skipped by [approx_zero] (entries of
    size [1e-9]) although the ratio test, with its threshold [1e-12], later
    pivots on what was left:
    [A = [[1, -1], [-1e-9, 1e-10], [1e-9, 0]]], [b = [1, 1, 1]],
    [c = [1, 1]]. *)
Definition gap_A : list (list xQ) :=
  [[Fi 1; Fi (-1)];
   [Fin (- (1 # 1000000000)); Fin (1 # 10000000000)];
   [Fin (1 # 1000000000); Fi 0]].
Definition gap_b : list xQ := [Fi 1; Fi 1; Fi 1].
Definition gap_c : list xQ := [Fi 1; Fi 1].
Definition gap_A_float : list (list float) :=
  [[1; -1]; [-1e-9; 1e-10]; [1e-9; 0]]%float.
Definition gap_b_float : list float := [1; 1; 1]%float.
Definition gap_c_float : list float := [1; 1]%float.

(** ** Reading a float as a rational *)

(** The exact value of a finite binary64 number. *)
Definition float_to_Q (f : float) : option Q :=
  match Prim2SF f with
  | S754_zero _ => Some 0%Q
  | S754_finite s mt e =>
      Some ((if s then inject_Z (Z.neg mt) else inject_Z (Z.pos mt))
            * Qpower 2 e)%Q
  | S754_infinity _ => None
  | S754_nan => None
  end.

(** The tolerance [1e-12] of the specification, as a rational. *)
Definition eps : Q := 1 # 1000000000000.

(** [within f q]: the float [f] is finite and [|f - q| <= 1e-12]. *)
Definition within (f : float) (q : Q) : bool :=
  match float_to_Q f with
  | Some v => Qle_bool (Qabs (v - q)) eps
  | None => false
  end.

(** ** The objective at the returned point *)

(** Reading a number of the exact instance as a rational. *)
Definition xQ_to_Q (x : xQ) : option Q :=
  match x with
  | Fin q => Some q
  | PInf => None
  end.

Fixpoint read_all {F : Type} (val : F -> option Q) (l : list F)
    : option (list Q) :=
  match l with
  | [] => Some []
  | x :: t =>
      match val x, read_all val t with
      | Some q, Some qs => Some (q :: qs)
      | _, _ => None
      end
  end.

(** [c^T x] over the rationals. *)
Fixpoint dot (c x : list Q) : Q :=
  match c, x with
  | cj :: c', xj :: x' => (cj * xj + dot c' x')%Q
  | _, _ => 0%Q
  end.

(** [|c^T x* - z*|] for a result that carries [z_opt] and [x_opt], all
    numbers read exactly through [val]. *)
Definition objective_gap {F : Type} (val : F -> option Q) (c : list F)
    (r : SimplexResult F) : option Q :=
  match z_opt r, x_opt r with
  | Some z, Some x =>
      match val z, read_all val c, read_all val x with
      | Some zq, Some cq, Some xq => Some (Qred (Qabs (dot cq xq - zq)))
      | _, _, _ => None
      end
  | _, _ => None
  end.

(** ** Exact arithmetic: finite tableaus and the minimum ratio *)

(** The rational a finite number stands for. *)
Definition value (x : xQ) : Q :=
  match x with
  | Fin q => q
  | PInf => 0%Q
  end.

Definition is_fin (x : xQ) : bool :=
  match x with
  | Fin _ => true
  | PInf => false
  end.

(** Every entry of the tableau is a rational. *)
Definition finite_tableau (T : list (list xQ)) : bool :=
  forallb (forallb is_fin) T.

(** What the ratio test promises about its answer [res] among the rows
    [0 .. K-1], where [ok i] says that row [i] is eligible and [q i] is its
    ratio: [None] only when no row is eligible; a chosen row is eligible,
    its ratio is minimal up to [1e-12], and every eligible row before it
    has a strictly larger ratio (so the first of tied rows wins). *)
Definition min_ratio_choice (ok : nat -> bool) (q : nat -> Q) (K : nat)
    (res : option nat) : Prop :=
  match res with
  | None => forall i, i < K -> ok i = false
  | Some l =>
      l < K /\ ok l = true
      /\ (forall i, i < K -> ok i = true -> (q l <= q i + eps)%Q)
      /\ (forall i, i < l -> ok i = true -> (q l < q i)%Q)
  end.

(** ** Exact arithmetic: the unit columns of the basis *)

(** [near tol x y]: both are rationals and [|x - y| <= tol]. *)
Definition near (tol : Q) (x y : xQ) : bool :=
  match x, y with
  | Fin a, Fin b => Qle_bool (Qabs (a - b)) tol
  | _, _ => false
  end.

(** The entry of the unit vector of row [i] at row [r]. *)
Definition unit_entry (r i : nat) : xQ := if r =? i then one else zero.

(** For each constraint row [i], column [basis[i]] is, up to [tol], the
    unit vector of row [i] over all rows [0 .. m], the objective row
    included. *)
Definition unit_columns (tol : Q) (m : nat) (T : list (list xQ))
    (B : list nat) : bool :=
  forallb
    (fun i =>
       forallb (fun r => near tol (entry T r (nth i B 0)) (unit_entry r i))
               (seq 0 (m + 1)))
    (seq 0 m).

(** Some row other than the leaving row [l] has, in the entering column
    [e], a factor that is not zero and that [approx_zero] lets the
    elimination skip. *)
Definition skips_nonzero_factor (m : nat) (T : list (list xQ)) (l e : nat)
    : bool :=
  existsb
    (fun r => negb (r =? l) && approx_zero (entry T r e)
              && negb (near 0 (entry T r e) zero))
    (seq 0 (m + 1)).

(** ** Further notions: how a run hangs together *)

Section RunNotions.

Context {F : Type} {NF : Num F}.

(** Each snapshot of the list leads to the next by a pivoting pass, and the
    pass on the last one returns. *)
Fixpoint chained (n m : nat) (l : list (list (list F) * list nat)) : Prop :=
  match l with
  | [] => True
  | (T, B) :: rest =>
      match rest with
      | [] => final_pass n m T B
      | (T1, B1) :: _ => pass n m T B = Pivoted T1 B1 /\ chained n m rest
      end
  end.

(** A tableau of [m + 1] rows of [n + m + 1] entries with a basis of [m]
    columns among the [n + m] variables: every index the loop uses is in
    range. *)
Definition well_shaped (n m : nat) (T : list (list F)) (B : list nat)
    : Prop :=
  length T = m + 1
  /\ rows_of_width (n + m + 1) T = true
  /\ length B = m
  /\ forall i, i < m -> nth i B 0 < n + m.

End RunNotions.

(** An input whose only cost, [1e-10], lies between the two tolerances:
    [A = [[1]]], [b = [1]], [c = [1e-10]]. *)
Definition stall_A_float : list (list float) := [[1]]%float.
Definition stall_b_float : list float := [1]%float.
Definition stall_c_float : list float := [1e-10]%float.

(** ** Exact arithmetic: the equations of a tableau *)

(** The row [r] applied to the vector [u]: the sum of [r[j] * u[j]]. *)
Definition row_dot (r : list xQ) (u : list Q) : Q := dot (map value r) u.

(** [u] satisfies the [m] constraint rows of [T], read as equations
    [sum_j T[i][j] * u[j] = 0]; with [u = (x, s, -1)] this says
    [sum_j T[i][j] * (x, s)[j] = RHS(i)]. *)
Definition solves (m : nat) (T : list (list xQ)) (u : list Q) : Prop :=
  forall i, i < m -> (row_dot (nth i T []) u == 0)%Q.

(** The sum of a list of rationals. *)
Fixpoint total (v : list Q) : Q :=
  match v with
  | [] => 0%Q
  | a :: t => (a + total t)%Q
  end.

(** The factor by which the elimination multiplies the normalised pivot
    row for row [i]: nothing when [approx_zero] skips the row. *)
Definition used_factor (T : list (list xQ)) (i e : nat) : Q :=
  if approx_zero (entry T i e) then 0%Q else value (entry T i e).

(** ** Exact arithmetic: runs without a skipped factor *)

(** The pass on [T] pivots and skips, in some row, a factor that is not
    zero. *)
Definition pass_skips (m : nat) (T : list (list xQ)) : bool :=
  let e := list_min (entering_candidates (last T [])) in
  match argmin_with_ties (ratios m T e) (eligibles m T e) with
  | Some l => skips_nonzero_factor m T l e
  | None => false
  end.

(** [k] pivoting passes, none of which skips a non-zero factor. *)
Inductive clean_pivots (n m : nat)
    : nat -> list (list xQ) -> list nat -> list (list xQ) -> list nat
      -> Prop :=
| clean_O (T : list (list xQ)) (B : list nat) : clean_pivots n m 0 T B T B
| clean_S (k : nat) (T T1 T2 : list (list xQ)) (B B1 B2 : list nat) :
    pass n m T B = Pivoted T1 B1 ->
    pass_skips m T = false ->
    clean_pivots n m k T1 B1 T2 B2 ->
    clean_pivots n m (S k) T B T2 B2.

(** The first row whose basic variable is [j]. *)
Fixpoint index_of (j : nat) (B : list nat) : option nat :=
  match B with
  | [] => None
  | b :: t => if b =? j then Some 0 else option_map S (index_of j t)
  end.

(** The basic solution of a tableau: variable [j] takes the right-hand
    side of its row when it is basic, and 0 otherwise. *)
Definition basic_value (T : list (list xQ)) (B : list nat) (j : nat) : Q :=
  match index_of j B with
  | Some k => value (rhs (nth k T []))
  | None => 0%Q
  end.

Definition basic_point (T : list (list xQ)) (B : list nat) (k len : nat)
    : list Q :=
  map (basic_value T B) (seq k len).

(** ** The choice of the ratio test, in any arithmetic *)

Section ScanNotions.

Context {F : Type} {NF : Num F}.

(** [undercuts v w]: the test [v < w - 1e-12] of [argmin_with_ties], with
    the subtraction and the comparison of the arithmetic in use. *)
Definition undercuts (v w : F) : bool := ltb v (sub w eps12).

(** What [argmin_with_ties] answers among the rows [0 .. K-1], where [ok i]
    says that row [i] is eligible and [r i] is its ratio.  [None]: no
    eligible row has a ratio that passes the test against [math.inf].
    [Some l]: row [l] is eligible; no eligible row after it undercuts it;
    and either [l] is the first eligible row whose ratio passes the test
    against [math.inf], or [l] undercuts an earlier eligible row [p] that
    no row in between undercuts. *)
Definition scan_choice (ok : nat -> bool) (r : nat -> F) (K : nat)
    (res : option nat) : Prop :=
  match res with
  | None => forall i, i < K -> ok i = true -> undercuts (r i) inf = false
  | Some l =>
      l < K /\ ok l = true
      /\ (forall i, l < i < K -> ok i = true -> undercuts (r i) (r l) = false)
      /\ ((undercuts (r l) inf = true
           /\ forall i, i < l -> ok i = true -> undercuts (r i) inf = false)
          \/ exists p,
               p < l /\ ok p = true /\ undercuts (r l) (r p) = true
               /\ forall i, p < i < l -> ok i = true ->
                            undercuts (r i) (r p) = false)
  end.

End ScanNotions.

(** An input whose only ratio overflows in binary64:
    [A = [[1e-10]]], [b = [1e300]], [c = [1]]. *)
Definition overflow_A_float : list (list float) := [[1e-10]]%float.
Definition overflow_b_float : list float := [1e300]%float.
Definition overflow_c_float : list float := [1]%float.

(** An input with four ratios less than [1e-12] apart from one to the
    next: [A = [[1], [1], [1], [1]]],
    [b = [5, 4.9999999999991, 4.9999999999985, 4.9999999999982]],
    [c = [1]]. *)
Definition close_A_float : list (list float) := [[1]; [1]; [1]; [1]]%float.
Definition close_b_float : list float :=
  [5; 4.9999999999991; 4.9999999999985; 4.9999999999982]%float.
Definition close_c_float : list float := [1]%float.

(** * Properties *)

(** ** List facts *)

Section ListFacts.

Context {X : Type}.

Lemma list_set_length (l : list X) (i : nat) (v : X) :
  length (list_set l i v) = length l.
Proof.
  revert i; induction l as [|h t IH]; intros [|i]; simpl; auto.
Qed.

Lemma nth_list_set_same (l : list X) (i : nat) (v d : X) :
  i < length l -> nth i (list_set l i v) d = v.
Proof.
  revert i; induction l as [|h t IH]; intros [|i] Hi; simpl in *;
    try lia; auto.
  apply IH; lia.
Qed.

Lemma nth_list_set_other (l : list X) (i j : nat) (v d : X) :
  i <> j -> nth j (list_set l i v) d = nth j l d.
Proof.
  revert i j; induction l as [|h t IH]; intros [|i] [|j] Hij; simpl;
    try congruence; auto.
Qed.

Lemma enumerate_from_length (k : nat) (l : list X) :
  length (enumerate_from k l) = length l.
Proof.
  revert k; induction l as [|h t IH]; intros k; simpl; auto.
Qed.

Lemma enumerate_from_app (k : nat) (l1 l2 : list X) :
  enumerate_from k (l1 ++ l2)
  = enumerate_from k l1 ++ enumerate_from (k + length l1) l2.
Proof.
  revert k; induction l1 as [|h t IH]; intros k; simpl.
  - now rewrite Nat.add_0_r.
  - rewrite IH. now replace (S k + length t) with (k + S (length t)) by lia.
Qed.

Lemma in_enumerate_from (k : nat) (l : list X) (j : nat) (x : X) :
  In (j, x) (enumerate_from k l)
  <-> k <= j /\ nth_error l (j - k) = Some x.
Proof.
  revert k; induction l as [|h t IH]; intros k; simpl.
  - split; [tauto|]. intros [_ H]. now destruct (j - k).
  - rewrite IH. split.
    + intros [E | [Hk Hn]].
      * inversion E; subst. split; [lia|]. now rewrite Nat.sub_diag.
      * split; [lia|]. replace (j - k) with (S (j - S k)) by lia. exact Hn.
    + intros [Hk Hn]. destruct (Nat.eq_dec j k) as [->|Hne].
      * rewrite Nat.sub_diag in Hn. simpl in Hn. left. congruence.
      * right. split; [lia|].
        replace (j - k) with (S (j - S k)) in Hn by lia. exact Hn.
Qed.

End ListFacts.

Lemma fold_min_le (l : list nat) (a : nat) : fold_left Nat.min l a <= a.
Proof.
  revert a; induction l as [|h t IH]; intros a; simpl; [lia|].
  specialize (IH (Nat.min a h)). lia.
Qed.

Lemma fold_min_lower (l : list nat) (a : nat) :
  forall j, In j l -> fold_left Nat.min l a <= j.
Proof.
  revert a; induction l as [|h t IH]; intros a j; simpl; [tauto|].
  intros [-> | Hj].
  - pose proof (fold_min_le t (Nat.min a j)). lia.
  - now apply IH.
Qed.

Lemma fold_min_in (l : list nat) (a : nat) :
  fold_left Nat.min l a = a \/ In (fold_left Nat.min l a) l.
Proof.
  revert a; induction l as [|h t IH]; intros a; simpl; [now left|].
  destruct (IH (Nat.min a h)) as [E | HIn]; [|now right; right].
  rewrite E. destruct (Nat.min_spec a h) as [[_ ->] | [_ ->]]; auto.
Qed.

(** [min] returns a member that is below every member. *)
Lemma list_min_spec (l : list nat) :
  l <> [] -> In (list_min l) l /\ forall j, In j l -> list_min l <= j.
Proof.
  destruct l as [|h t]; [congruence|]. intros _. unfold list_min. split.
  - destruct (fold_min_in t h) as [-> | H]; simpl; auto.
  - intros j [<- | Hj]; [apply fold_min_le | now apply fold_min_lower].
Qed.

(** ** The shape and sign checks *)

Section Validation.

Context {F : Type} {NF : Num F}.

Lemma is_empty_true {X : Type} (l : list X) : is_empty l = true <-> l = [].
Proof. destruct l; simpl; split; congruence. Qed.

Lemma ragged_rows_existsb (A : list (list F)) :
  existsb (fun row => negb (length row =? length (hd [] A))) A = true
  <-> ragged_rows A.
Proof.
  unfold ragged_rows. rewrite existsb_exists. split.
  - intros [row [Hin Hneq]]. exists row. split; [exact Hin|].
    apply negb_true_iff, Nat.eqb_neq in Hneq. exact Hneq.
  - intros [row [Hin Hneq]]. exists row. split; [exact Hin|].
    now apply negb_true_iff, Nat.eqb_neq.
Qed.

Lemma negative_rhs_existsb (b : list F) :
  existsb (fun bi => ltb bi (opp eps12)) b = true <-> negative_rhs b.
Proof. unfold negative_rhs. now rewrite existsb_exists. Qed.

(** The validator rejects exactly the inputs that fail a check. *)
Lemma validate_none_iff (A : list (list F)) (b c : list F) :
  validate A b c = None <-> ~ violates_a_check A b c.
Proof.
  unfold validate, violates_a_check, empty_matrix, b_length_mismatch,
    c_length_mismatch.
  destruct (is_empty A) eqn:EA.
  { apply is_empty_true in EA. simpl. split; [discriminate | tauto]. }
  destruct (is_empty (hd [] A)) eqn:EH.
  { apply is_empty_true in EH. simpl. split; [discriminate | tauto]. }
  simpl.
  assert (HA : A <> []) by (intros E; apply is_empty_true in E; congruence).
  assert (HH : hd [] A <> [])
    by (intros E; apply is_empty_true in E; congruence).
  destruct (existsb _ A) eqn:ER.
  { apply ragged_rows_existsb in ER. split; [discriminate | tauto]. }
  assert (HR : ~ ragged_rows A)
    by (intros E; apply ragged_rows_existsb in E; congruence).
  destruct (length b =? length A) eqn:EB; simpl.
  2:{ apply Nat.eqb_neq in EB. split; [discriminate | tauto]. }
  apply Nat.eqb_eq in EB.
  destruct (length c =? length (hd [] A)) eqn:EC; simpl.
  2:{ apply Nat.eqb_neq in EC. split; [discriminate | tauto]. }
  apply Nat.eqb_eq in EC.
  destruct (existsb _ b) eqn:EN.
  { apply negative_rhs_existsb in EN. split; [discriminate | tauto]. }
  assert (HN : ~ negative_rhs b)
    by (intros E; apply negative_rhs_existsb in E; congruence).
  split; [|reflexivity]. intros _. tauto.
Qed.

Lemma validate_some_identifies (A : list (list F)) (b c : list F)
    (msg : string) :
  validate A b c = Some msg -> identifies_failed_check msg A b c.
Proof.
  unfold validate, identifies_failed_check, empty_matrix, b_length_mismatch,
    c_length_mismatch.
  destruct (is_empty A) eqn:EA.
  { apply is_empty_true in EA. simpl. intros [= <-]. auto. }
  destruct (is_empty (hd [] A)) eqn:EH.
  { apply is_empty_true in EH. simpl. intros [= <-]. auto. }
  simpl.
  destruct (existsb _ A) eqn:ER.
  { apply ragged_rows_existsb in ER. intros [= <-]. auto. }
  destruct (length b =? length A) eqn:EB; simpl.
  2:{ apply Nat.eqb_neq in EB. intros [= <-]. auto. }
  destruct (length c =? length (hd [] A)) eqn:EC; simpl.
  2:{ apply Nat.eqb_neq in EC. intros [= <-]. auto 6. }
  destruct (existsb _ b) eqn:EN; [|discriminate].
  apply negative_rhs_existsb in EN. intros [= <-]. auto 7.
Qed.

(** The five messages are pairwise different, so a message tells which
    check failed. *)
Lemma messages_distinct :
  NoDup [msg_empty; msg_ragged; msg_b_len; msg_c_len; msg_b_neg].
Proof.
  repeat constructor; simpl; intros H;
    repeat (destruct H as [H | H]; [discriminate H|]); exact H.
Qed.

End Validation.

(** ** The driving loop *)

Section LoopFacts.

Context {F : Type} {NF : Num F}.

(** More fuel does not change a result. *)
Lemma simplex_loop_more_fuel (fuel k : nat) (show_steps : bool) (n m : nat)
    (T : list (list F)) (B : list nat) (it : nat) (out : list Snapshot)
    (res : SimplexResult F * list Snapshot) :
  simplex_loop fuel show_steps n m T B it out = Some res ->
  simplex_loop (fuel + k) show_steps n m T B it out = Some res.
Proof.
  revert T B it out; induction fuel as [|fuel IH]; intros T B it out;
    simpl; [discriminate|].
  destruct (pass n m T B); auto.
Qed.

Lemma simplex_max_more_fuel (fuel k : nat) (A : list (list F))
    (b c : list F) (show_steps : bool)
    (res : SimplexResult F * list Snapshot) :
  simplex_max fuel A b c show_steps = Some res ->
  simplex_max (fuel + k) A b c show_steps = Some res.
Proof.
  unfold simplex_max. destruct (validate A b c); [auto|].
  apply simplex_loop_more_fuel.
Qed.

(** What is printed never reaches the result. *)
Lemma simplex_loop_trace_irrelevant (fuel : nat) (n m : nat)
    (T : list (list F)) (B : list nat) (it : nat)
    (out1 out2 : list Snapshot) :
  option_map fst (simplex_loop fuel true n m T B it out1)
  = option_map fst (simplex_loop fuel false n m T B it out2).
Proof.
  revert T B it out1 out2; induction fuel as [|fuel IH];
    intros T B it out1 out2; simpl; [reflexivity|].
  destruct (pass n m T B); simpl; auto.
Qed.

(** The loop returns after some number [k] of pivoting passes, in the pass
    after them, with the counter advanced by [k + 1]. *)
Lemma simplex_loop_counts (fuel : nat) (show_steps : bool) (n m : nat)
    (T : list (list F)) (B : list nat) (it : nat) (out out' : list Snapshot)
    (r : SimplexResult F) :
  simplex_loop fuel show_steps n m T B it out = Some (r, out') ->
  exists k T' B',
    pivots n m k T B T' B' /\ final_pass n m T' B'
    /\ iterations r = it + k + 1
    /\ (status r = "optimal"%string \/ status r = "unbounded"%string)
    /\ (show_steps = true -> length out' = length out + k).
Proof.
  revert T B it out; induction fuel as [|fuel IH]; intros T B it out;
    simpl; [discriminate|].
  destruct (pass n m T B) as [z x| |T1 B1] eqn:EP.
  - intros [= <- <-]. exists 0, T, B. simpl.
    repeat split; try lia; auto.
    + constructor.
    + intros T' B'. congruence.
  - intros [= <- <-]. exists 0, T, B. simpl.
    repeat split; try lia; auto.
    + constructor.
    + intros T' B'. congruence.
  - intros H. apply IH in H.
    destruct H as (k & T' & B' & Hp & Hf & Hit & Hst & Hout).
    exists (S k), T', B'. repeat split; auto.
    + econstructor; eauto.
    + lia.
    + intros Hs. specialize (Hout Hs). subst show_steps.
      unfold print_tableau in Hout. rewrite length_app in Hout.
      simpl in Hout. lia.
Qed.

(** The pivoting passes from a given state are determined. *)
Lemma pivots_deterministic (n m k1 k2 : nat) (T T1 T2 : list (list F))
    (B B1 B2 : list nat) :
  pivots n m k1 T B T1 B1 -> final_pass n m T1 B1 ->
  pivots n m k2 T B T2 B2 -> final_pass n m T2 B2 ->
  k1 = k2 /\ T1 = T2 /\ B1 = B2.
Proof.
  intros H1; revert k2 T2 B2.
  induction H1 as [T B | k T Ta Tb B Ba Bb HP H1 IH];
    intros k2 T2 B2 Hf1 H2 Hf2.
  - destruct H2 as [|k' T T1' T2' B B1' B2' HP' H2]; [auto|].
    exfalso. eapply Hf1; eauto.
  - destruct H2 as [|k' T T1' T2' B B1' B2' HP' H2].
    + exfalso. eapply Hf2; eauto.
    + rewrite HP in HP'. inversion HP'; subst.
      destruct (IH _ _ _ Hf1 H2 Hf2) as (-> & -> & ->). auto.
Qed.

End LoopFacts.

(** ** The entering column *)

Section EnteringFacts.

Context {F : Type} {NF : Num F}.

Lemma nth_error_removelast (z : list F) (j : nat) (v d : F) :
  nth_error (removelast z) j = Some v
  <-> j < length z - 1 /\ nth j z d = v.
Proof.
  revert j; induction z as [|h t IH]; intros j.
  - simpl. split; [now destruct j | lia].
  - destruct t as [|h' t'].
    + simpl. split; [now destruct j | lia].
    + change (removelast (h :: h' :: t')) with (h :: removelast (h' :: t')).
      destruct j as [|j].
      * simpl. split; [intros [= ->]; split; [lia | reflexivity]|].
        intros [_ ->]. reflexivity.
      * change (nth_error (h :: removelast (h' :: t')) (S j))
          with (nth_error (removelast (h' :: t')) j).
        rewrite IH. simpl. split; intros [H1 H2]; split; auto; lia.
Qed.

(** The candidates of the source are the columns that [is_candidate]
    describes. *)
Lemma in_entering_candidates (z : list F) (j : nat) :
  In j (entering_candidates z) <-> is_candidate z j.
Proof.
  unfold entering_candidates, is_candidate, enumerate.
  rewrite in_map_iff. split.
  - intros [[j' v] [Hj Hin]]. simpl in Hj. subst j'.
    apply filter_In in Hin. destruct Hin as [Hin Hlt]. simpl in Hlt.
    apply in_enumerate_from in Hin. destruct Hin as [_ Hn].
    rewrite Nat.sub_0_r in Hn.
    apply (nth_error_removelast z j v zero) in Hn.
    destruct Hn as [Hj <-]. auto.
  - intros [Hj Hlt]. exists (j, nth j z zero). split; [reflexivity|].
    apply filter_In. split; [|exact Hlt].
    apply in_enumerate_from. split; [lia|]. rewrite Nat.sub_0_r.
    apply (nth_error_removelast z j _ zero). auto.
Qed.

Lemma entering_candidates_nil (z : list F) :
  entering_candidates z = [] <-> forall j, ~ is_candidate z j.
Proof.
  split.
  - intros E j Hj. apply in_entering_candidates in Hj. rewrite E in Hj.
    exact Hj.
  - intros H. destruct (entering_candidates z) as [|j l] eqn:E; [auto|].
    exfalso. apply (H j). apply in_entering_candidates. rewrite E.
    now left.
Qed.

(** Bland's rule: [min] picks the smallest candidate. *)
Lemma list_min_entering (z : list F) (e : nat) :
  is_candidate z e -> (forall j, j < e -> ~ is_candidate z j) ->
  list_min (entering_candidates z) = e.
Proof.
  intros He Hmin.
  assert (Hne : entering_candidates z <> []).
  { intros E. apply in_entering_candidates in He. rewrite E in He.
    exact He. }
  destruct (list_min_spec _ Hne) as [Hin Hle].
  apply in_entering_candidates in Hin.
  apply in_entering_candidates in He. specialize (Hle e He).
  destruct (Nat.eq_dec (list_min (entering_candidates z)) e) as [E|N];
    [exact E|].
  exfalso. apply (Hmin (list_min (entering_candidates z))); [lia|exact Hin].
Qed.

End EnteringFacts.

(** ** Reading the optimum off the tableau *)

Section ExtractFacts.

Context {F : Type} {NF : Num F}.

Variables (n : nat) (T : list (list F)).

(** The body of the loop of lines 88-90. *)
Let assign (x : list F) (ib : nat * nat) : list F :=
  let '(i, basic_var) := ib in
  if basic_var <? n then list_set x basic_var (rhs (nth i T [])) else x.

Lemma assign_length (x : list F) (ib : nat * nat) :
  length (assign x ib) = length x.
Proof.
  destruct ib as [i bv]. simpl. destruct (bv <? n); auto.
  apply list_set_length.
Qed.

Lemma assign_fold_length (l : list (nat * nat)) (x : list F) :
  length (fold_left assign l x) = length x.
Proof.
  revert x; induction l as [|ib l IH]; intros x; simpl; auto.
  now rewrite IH, assign_length.
Qed.

(** Rows are visited in order, so for a variable [j] the last row whose
    basic variable is [j] decides. *)
Lemma assign_fold_spec (B : list nat) :
  forall (k : nat) (x0 : list F) (j : nat),
    j < n -> length x0 = n ->
    (forall i, i < length B -> nth i B 0 = j ->
               (forall i', i < i' -> i' < length B -> nth i' B 0 <> j) ->
               nth j (fold_left assign (enumerate_from k B) x0) zero
               = rhs (nth (k + i) T []))
    /\ ((forall i, i < length B -> nth i B 0 <> j) ->
        nth j (fold_left assign (enumerate_from k B) x0) zero
        = nth j x0 zero).
Proof.
  induction B as [|bv t IH]; intros k x0 j Hj Hx0.
  - simpl. split; [intros i Hi; lia | auto].
  - assert (Hx1 : length (assign x0 (k, bv)) = n)
      by now rewrite assign_length.
    destruct (IH (S k) (assign x0 (k, bv)) j Hj Hx1) as [IH1 IH2].
    cbn [fold_left enumerate_from]. split.
    + intros [|i] Hi Hbv Hlast.
      * cbn [nth] in Hbv. subst bv. rewrite IH2.
        -- unfold assign.
           replace (j <? n) with true
             by (symmetry; apply Nat.ltb_lt; exact Hj).
           rewrite Nat.add_0_r. apply nth_list_set_same. lia.
        -- intros i' Hi'. apply (Hlast (S i')); simpl; lia.
      * cbn [nth length] in Hi, Hbv. rewrite (IH1 i); auto; try lia.
        -- f_equal. f_equal. lia.
        -- intros i' H1 H2. apply (Hlast (S i')); simpl; lia.
    + intros Hno. rewrite IH2.
      * unfold assign. destruct (bv <? n); [|reflexivity].
        apply nth_list_set_other. apply (Hno 0). simpl. lia.
      * intros i Hi. apply (Hno (S i)). simpl. lia.
Qed.

End ExtractFacts.

Section ExtractX.

Context {F : Type} {NF : Num F}.

Lemma extract_x_length (n : nat) (T : list (list F)) (B : list nat) :
  length (extract_x n T B) = n.
Proof.
  unfold extract_x. rewrite assign_fold_length. apply repeat_length.
Qed.

Lemma nth_repeat_zero (n j : nat) : nth j (repeat (zero : F) n) zero = zero.
Proof.
  revert j; induction n as [|n IH]; intros [|j]; simpl; auto.
Qed.

(** [x[j]] is the right-hand side of the last row whose basic variable is
    [j]. *)
Lemma extract_x_last_row (n : nat) (T : list (list F)) (B : list nat)
    (i j : nat) :
  j < n -> i < length B -> nth i B 0 = j ->
  (forall i', i < i' -> i' < length B -> nth i' B 0 <> j) ->
  nth j (extract_x n T B) zero = rhs (nth i T []).
Proof.
  intros Hj Hi Hb Hlast. unfold extract_x, enumerate.
  destruct (assign_fold_spec n T B 0 (repeat zero n) j Hj
              (repeat_length _ _)) as [H _].
  apply (H i Hi Hb Hlast).
Qed.

(** [x[j]] stays [0.0] when no row has [j] as its basic variable. *)
Lemma extract_x_nonbasic (n : nat) (T : list (list F)) (B : list nat)
    (j : nat) :
  j < n -> (forall i, i < length B -> nth i B 0 <> j) ->
  nth j (extract_x n T B) zero = zero.
Proof.
  intros Hj Hno. unfold extract_x, enumerate.
  destruct (assign_fold_spec n T B 0 (repeat zero n) j Hj
              (repeat_length _ _)) as [_ H].
  etransitivity; [exact (H Hno) | apply nth_repeat_zero].
Qed.

End ExtractX.

(** ** The claims on validation, tracing and the iteration count *)

Section GenericClaims.

Context {F : Type} {NF : Num F}.

(** C9. For every input, [simplex_max] with [show_steps = True] and with
    [show_steps = False] return the same result record (status, [z_opt],
    [x_opt], iterations and message), and one returns exactly when the
    other does: what is printed never alters the result. *)
Theorem trace_never_alters_result (fuel : nat) (A : list (list F))
    (b c : list F) :
  option_map fst (simplex_max fuel A b c true)
  = option_map fst (simplex_max fuel A b c false).
Proof.
  unfold simplex_max. destruct (validate A b c); [reflexivity|].
  apply simplex_loop_trace_irrelevant.
Qed.

(** C5. An input that fails a shape or sign check (empty matrix, ragged
    rows, wrong length of [b] or of [c], some [b_i < -1e-12]) is answered
    at once: the status is not optimal, the iteration count is 0, nothing
    is printed, and the message names a check the input does fail.  The
    answer needs no fuel: no pass of the loop runs and no tableau is
    built. *)
Theorem invalid_input_is_rejected (A : list (list F)) (b c : list F)
    (fuel : nat) (show_steps : bool) :
  violates_a_check A b c ->
  exists msg,
    simplex_max fuel A b c show_steps
    = Some (mkSimplexResult "infeasible" None None 0 msg, [])
    /\ simplex_max 0 A b c show_steps = simplex_max fuel A b c show_steps
    /\ "infeasible"%string <> "optimal"%string
    /\ identifies_failed_check msg A b c.
Proof.
  intros Hv. destruct (validate A b c) as [msg|] eqn:E.
  - exists msg. unfold simplex_max. rewrite E. repeat split.
    + discriminate.
    + now apply validate_some_identifies.
  - apply validate_none_iff in E. contradiction.
Qed.

(** The initial objective row has no candidate when no cost is positive
    beyond the tolerance. *)
Lemma initial_tableau_optimal (A : list (list F)) (b c : list F) :
  ltb (zero : F) (opp eps12) = false ->
  Forall (fun cj => ltb (opp cj) (opp eps12) = false) c ->
  entering_candidates (last (build_tableau A b c) []) = [].
Proof.
  intros Hz Hc. unfold build_tableau. rewrite last_last.
  apply entering_candidates_nil. intros j [Hj Hlt].
  rewrite !length_app, length_map, repeat_length in Hj. simpl in Hj.
  destruct (Nat.lt_ge_cases j (length c)) as [Hjc | Hjc].
  - rewrite app_nth1 in Hlt by now rewrite length_map.
    rewrite Forall_forall in Hc.
    rewrite (nth_indep _ zero (opp zero)) in Hlt by now rewrite length_map.
    rewrite map_nth in Hlt. rewrite Hc in Hlt; [discriminate|].
    now apply nth_In.
  - rewrite app_nth2 in Hlt by now rewrite length_map.
    rewrite length_map in Hlt. rewrite app_nth1 in Hlt
      by (rewrite repeat_length; lia).
    rewrite nth_repeat_zero in Hlt. congruence.
Qed.

(** C10. For an input that passes validation, whenever [simplex_max]
    returns, the status is optimal or unbounded and the iteration count is
    the number [k] of pivots carried out plus one; so it is at least 1.  In
    particular, when no cost exceeds the tolerance (every [-c_j] fails
    [-c_j < -1e-12], as it does when [c_j <= 0]) the initial tableau is
    already optimal and the count is 1. *)
Theorem iterations_is_pivots_plus_one (fuel : nat) (A : list (list F))
    (b c : list F) (show_steps : bool) (r : SimplexResult F)
    (out : list Snapshot) :
  validate A b c = None ->
  simplex_max fuel A b c show_steps = Some (r, out) ->
  let m := length A in
  let n := length (hd [] A) in
  (status r = "optimal"%string \/ status r = "unbounded"%string)
  /\ (exists k T B,
        pivots n m k (build_tableau A b c) (initial_basis n m) T B
        /\ final_pass n m T B
        /\ iterations r = k + 1)
  /\ 1 <= iterations r
  /\ (ltb (zero : F) (opp eps12) = false ->
      Forall (fun cj => ltb (opp cj) (opp eps12) = false) c ->
      status r = "optimal"%string /\ iterations r = 1).
Proof.
  intros Hv Hr m n. unfold simplex_max in Hr. rewrite Hv in Hr.
  fold m n in Hr.
  pose proof (simplex_loop_counts _ _ _ _ _ _ _ _ _ _ Hr)
    as (k & T & B & Hp & Hf & Hit & Hst & _).
  simpl in Hit. repeat split.
  - exact Hst.
  - exists k, T, B. auto.
  - lia.
  - destruct fuel as [|fuel]; [discriminate|]. simpl in Hr.
    unfold pass in Hr. rewrite (initial_tableau_optimal A b c H H0) in Hr.
    simpl in Hr. now inversion Hr.
  - destruct fuel as [|fuel]; [discriminate|]. simpl in Hr.
    unfold pass in Hr. rewrite (initial_tableau_optimal A b c H H0) in Hr.
    simpl in Hr. now inversion Hr.
Qed.

(** C3, as amended.  In every pass, when the objective row has a column
    below [-1e-12], the pass works on the smallest such column [e]: it
    reports unboundedness or pivots in column [e].  When there is none,
    the loop stops in this pass with status optimal, [z_opt] the
    right-hand side of the objective row and [x] of length [n], where
    [x[j]] is the right-hand side of the last row whose basic variable is
    [j], and [0.0] when no row has [j] as its basic variable. *)
Theorem entering_rule_and_optimal_exit (n m : nat) (T : list (list F))
    (B : list nat) :
  let z := last T [] in
  (forall j0, is_candidate z j0 ->
     exists e,
       is_candidate z e /\ (forall j, is_candidate z j -> e <= j)
       /\ pass n m T B
          = match argmin_with_ties (ratios m T e) (eligibles m T e) with
            | None => Unbounded
            | Some l => Pivoted (pivot m T l e) (list_set B l e)
            end)
  /\ ((forall j, ~ is_candidate z j) ->
      (forall fuel show_steps it out,
          simplex_loop (S fuel) show_steps n m T B it out
          = Some (mkSimplexResult "optimal" (Some (rhs z))
                    (Some (extract_x n T B)) (it + 1) msg_optimal, out))
      /\ length (extract_x n T B) = n
      /\ (forall i j, j < n -> i < length B -> nth i B 0 = j ->
             (forall i', i < i' -> i' < length B -> nth i' B 0 <> j) ->
             nth j (extract_x n T B) zero = rhs (nth i T []))
      /\ (forall j, j < n -> (forall i, i < length B -> nth i B 0 <> j) ->
             nth j (extract_x n T B) zero = zero)).
Proof.
  intros z. split.
  - intros j0 Hj0.
    assert (Hne : entering_candidates z <> []).
    { intros E. apply in_entering_candidates in Hj0. rewrite E in Hj0.
      exact Hj0. }
    destruct (list_min_spec _ Hne) as [Hin Hle].
    exists (list_min (entering_candidates z)). split; [|split].
    + now apply in_entering_candidates.
    + intros j Hj. apply Hle. now apply in_entering_candidates.
    + unfold pass. subst z. cbv zeta.
      destruct (entering_candidates (last T [])) eqn:E;
        [congruence | reflexivity].
  - intros Hno. apply entering_candidates_nil in Hno. split; [|split; [|split]].
    + intros fuel show_steps it out. simpl. unfold pass. subst z.
      cbv zeta. rewrite Hno. reflexivity.
    + apply extract_x_length.
    + intros i j. apply extract_x_last_row.
    + intros j. apply extract_x_nonbasic.
Qed.

End GenericClaims.

(** ** The scenarios *)

(** C1. On [A = [[2,1],[1,2]]], [b = [8,8]], [c = [3,5]] the solver
    returns status optimal.  In exact arithmetic [z_opt = 64/3] and
    [x_opt = [8/3, 8/3]]; in binary64 arithmetic [z_opt] and both
    components of [x_opt] are within [1e-12] of these values.  Three passes
    suffice, and more fuel gives the same answer. *)
Theorem scenarioA_optimum (k : nat) (show_steps : bool) :
  (exists out,
      simplex_max (3 + k) scenarioA_A scenarioA_b scenarioA_c show_steps
      = Some (mkSimplexResult "optimal" (Some (Fin (64 # 3)))
                (Some [Fin (8 # 3); Fin (8 # 3)]) 3 msg_optimal, out))
  /\ (exists z x1 x2 out,
         simplex_max (3 + k) scenarioA_A_float scenarioA_b_float
                     scenarioA_c_float show_steps
         = Some (mkSimplexResult "optimal" (Some z) (Some [x1; x2]) 3
                   msg_optimal, out)
         /\ within z (64 # 3) = true
         /\ within x1 (8 # 3) = true
         /\ within x2 (8 # 3) = true).
Proof.
  split.
  - destruct show_steps; eexists; apply simplex_max_more_fuel;
      vm_compute; reflexivity.
  - destruct show_steps; do 4 eexists;
      (split; [apply simplex_max_more_fuel; vm_compute; reflexivity|]);
      repeat split; vm_compute; reflexivity.
Qed.

(** C7, the claim as stated, fails: on [A = [[1,-1]]], [b = [10]],
    [c = [1,1]] the solver does not return an iteration count of 1, in
    binary64 arithmetic or in exact arithmetic. *)
Lemma scenarioB_count_is_not_one :
  ~ (exists r out,
        simplex_max 10 scenarioB_A_float scenarioB_b_float scenarioB_c_float
                    false = Some (r, out)
        /\ status r = "unbounded"%string /\ iterations r = 1)
  /\ ~ (exists r out,
           simplex_max 10 scenarioB_A scenarioB_b scenarioB_c false
           = Some (r, out)
           /\ status r = "unbounded"%string /\ iterations r = 1).
Proof.
  split; intros (r & out & Hr & _ & Hit); vm_compute in Hr;
    inversion Hr; subst r; simpl in Hit; discriminate.
Qed.

(** C7, as amended.  On [A = [[1,-1]]], [b = [10]], [c = [1,1]] the solver
    returns status unbounded with an iteration count of 2.  Exactly one
    pivot is carried out: in the first pass column 0 ([x1]) is the smallest
    candidate and row 0 leaves; in the second pass column 1 ([x2]) is the
    only candidate and no row is eligible.  The counter is incremented at
    the start of every pass, so it counts the pass that finds the
    unbounded direction as well. *)
Theorem scenarioB_unbounded_after_one_pivot (k : nat) (show_steps : bool) :
  (exists out,
      simplex_max (2 + k) scenarioB_A_float scenarioB_b_float
                  scenarioB_c_float show_steps
      = Some (mkSimplexResult "unbounded" None None 2 msg_unbounded, out))
  /\ (exists out,
         simplex_max (2 + k) scenarioB_A scenarioB_b scenarioB_c show_steps
         = Some (mkSimplexResult "unbounded" None None 2 msg_unbounded, out))
  /\ (let T0 := build_tableau scenarioB_A scenarioB_b scenarioB_c in
      let B0 := initial_basis 2 1 in
      let T1 := pivot 1 T0 0 0 in
      let B1 := list_set B0 0 0 in
      entering_candidates (last T0 []) = [0; 1]
      /\ argmin_with_ties (ratios 1 T0 0) (eligibles 1 T0 0) = Some 0
      /\ pivots 2 1 1 T0 B0 T1 B1
      /\ entering_candidates (last T1 []) = [1]
      /\ eligibles 1 T1 1 = [false]
      /\ pass 2 1 T1 B1 = Unbounded).
Proof.
  split; [|split].
  - destruct show_steps; eexists; apply simplex_max_more_fuel;
      vm_compute; reflexivity.
  - destruct show_steps; eexists; apply simplex_max_more_fuel;
      vm_compute; reflexivity.
  - cbv zeta. repeat split; try (vm_compute; reflexivity).
    econstructor; [vm_compute; reflexivity | constructor].
Qed.

(** C8, the claim as stated, fails: on the ragged matrix
    [A = [[1,1],[1]]] the status is not a status of its own for structural
    problems; it is ["infeasible"], the very status reported for the
    negative right-hand side of scenario C. *)
Lemma scenarioD_status_is_not_malformed :
  exists rD rC,
    simplex_max 0 scenarioD_A_float scenarioD_b_float scenarioD_c_float false
    = Some (rD, [])
    /\ simplex_max 0 scenarioC_A_float scenarioC_b_float scenarioC_c_float
                   false = Some (rC, [])
    /\ message rC = msg_b_neg
    /\ status rD <> "malformed"%string
    /\ status rD <> "Malformed"%string
    /\ status rD = status rC.
Proof.
  do 2 eexists. split; [vm_compute; reflexivity|].
  split; [vm_compute; reflexivity|].
  simpl. repeat split; discriminate.
Qed.

(** C8, as amended.  On [A = [[1,1],[1]]], [b = [8,8]], [c = [1,1]] the
    solver returns status ["infeasible"], the one status it has for every
    failed check, with 0 iterations, nothing printed, and the message of the
    ragged-rows check, which differs from the messages of the other
    checks. *)
Theorem scenarioD_ragged_rows (fuel : nat) (show_steps : bool) :
  simplex_max fuel scenarioD_A_float scenarioD_b_float scenarioD_c_float
              show_steps
  = Some (mkSimplexResult "infeasible" None None 0 msg_ragged, [])
  /\ simplex_max fuel scenarioD_A scenarioD_b scenarioD_c show_steps
     = Some (mkSimplexResult "infeasible" None None 0 msg_ragged, [])
  /\ msg_ragged = "Filas de A con distinta longitud."%string
  /\ ~ In msg_ragged [msg_empty; msg_b_len; msg_c_len; msg_b_neg].
Proof.
  repeat split.
  simpl. intros H.
  repeat (destruct H as [H | H]; [discriminate H|]). exact H.
Qed.

(** The claim C5 at scenario D. *)
Lemma invalid_input_is_rejected_witness :
  violates_a_check scenarioD_A scenarioD_b scenarioD_c
  /\ exists msg,
       simplex_max 7 scenarioD_A scenarioD_b scenarioD_c true
       = Some (mkSimplexResult "infeasible" None None 0 msg, [])
       /\ simplex_max 0 scenarioD_A scenarioD_b scenarioD_c true
          = simplex_max 7 scenarioD_A scenarioD_b scenarioD_c true
       /\ "infeasible"%string <> "optimal"%string
       /\ identifies_failed_check msg scenarioD_A scenarioD_b scenarioD_c.
Proof.
  assert (H : violates_a_check scenarioD_A scenarioD_b scenarioD_c).
  { right; left. exists [Fi 1]. split; [simpl; auto | simpl; lia]. }
  split; [exact H|].
  exact (invalid_input_is_rejected scenarioD_A scenarioD_b scenarioD_c 7
           true H).
Defined.

(** The claim C10 at scenario A. *)
Lemma iterations_is_pivots_plus_one_witness :
  let r := mkSimplexResult "optimal" (Some (Fin (64 # 3)))
             (Some [Fin (8 # 3); Fin (8 # 3)]) 3 msg_optimal in
  validate scenarioA_A scenarioA_b scenarioA_c = None
  /\ simplex_max 5 scenarioA_A scenarioA_b scenarioA_c false = Some (r, [])
  /\ (status r = "optimal"%string \/ status r = "unbounded"%string)
  /\ (exists k T B,
         pivots 2 2 k (build_tableau scenarioA_A scenarioA_b scenarioA_c)
                (initial_basis 2 2) T B
         /\ final_pass 2 2 T B
         /\ iterations r = k + 1)
  /\ 1 <= iterations r
  /\ (ltb (zero : xQ) (opp eps12) = false ->
      Forall (fun cj => ltb (opp cj) (opp eps12) = false) scenarioA_c ->
      status r = "optimal"%string /\ iterations r = 1).
Proof.
  intros r.
  assert (Hv : validate scenarioA_A scenarioA_b scenarioA_c = None)
    by reflexivity.
  assert (Hr : simplex_max 5 scenarioA_A scenarioA_b scenarioA_c false
               = Some (r, [])) by reflexivity.
  split; [exact Hv|]. split; [exact Hr|].
  exact (iterations_is_pivots_plus_one 5 scenarioA_A scenarioA_b scenarioA_c
           false r [] Hv Hr).
Defined.

(** ** Skipped eliminations: the input [gap_A] *)

(** C3, the claim as stated, fails.  On [gap_A], [gap_b], [gap_c] the
    solver stops with status optimal while two rows of the final tableau
    (printed last) have the same basic variable 0; [x_opt[0]] is the
    right-hand side of row 2, not of row 0.  So not every row whose basic
    variable is an original variable has its right-hand side in [x_opt].
    This holds in exact and in binary64 arithmetic. *)
Lemma gap_extraction_counterexample :
  (exists r out T B x,
      simplex_max 10 gap_A gap_b gap_c true = Some (r, out)
      /\ last out ([], []) = (T, B)
      /\ status r = "optimal"%string
      /\ x_opt r = Some x
      /\ B = [0; 1; 0]
      /\ ~ reads_every_basic_row 2 T B x)
  /\ (exists r out T B x,
         simplex_max 10 gap_A_float gap_b_float gap_c_float true
         = Some (r, out)
         /\ last out ([], []) = (T, B)
         /\ status r = "optimal"%string
         /\ x_opt r = Some x
         /\ B = [0; 1; 0]
         /\ ~ reads_every_basic_row 2 T B x).
Proof.
  split.
  - do 5 eexists. split; [vm_compute; reflexivity|].
    split; [reflexivity|]. split; [reflexivity|]. split; [reflexivity|].
    split; [reflexivity|].
    intros H. specialize (H 0). simpl in H.
    assert (E : Fin 1000000000 = Fin 19000000001) by (apply H; lia).
    discriminate E.
  - do 5 eexists. split; [vm_compute; reflexivity|].
    split; [reflexivity|]. split; [reflexivity|]. split; [reflexivity|].
    split; [reflexivity|].
    intros H. specialize (H 0). simpl in H.
    assert (E : (999999999.99999988 = 19000000001)%float)
      by (apply H; lia).
    apply (f_equal (fun f => PrimFloat.ltb f 2000000000)) in E.
    vm_compute in E. discriminate E.
Qed.

(** The claim C3 at its two cases: the initial tableau of scenario A has
    candidates 0 and 1 and column 0 enters; the final tableau of scenario A
    has none and the loop stops. *)
Example entering_rule_at_scenarioA :
  let T0 := build_tableau scenarioA_A scenarioA_b scenarioA_c in
  is_candidate (last T0 []) 1
  /\ pass 2 2 T0 [2; 3] = Pivoted (pivot 2 T0 0 0) [0; 3].
Proof.
  split; [split; vm_compute; [lia | reflexivity] | vm_compute; reflexivity].
Qed.

(** C2 fails on the code.  On [gap_A], [gap_b], [gap_c] the solver returns
    status optimal with [z_opt = 40000000001] and
    [x_opt = [1000000000, 20000000000]], although
    [c^T x_opt = 21000000000]: the two differ by [19000000001], not by at
    most [1e-12].  In binary64 arithmetic the same happens, with a
    difference above [19000000000]. *)
Theorem gap_objective_differs_from_z :
  (exists r out,
      simplex_max 10 gap_A gap_b gap_c false = Some (r, out)
      /\ r = mkSimplexResult "optimal" (Some (Fin 40000000001))
               (Some [Fin 1000000000; Fin 20000000000]) 4 msg_optimal
      /\ objective_gap xQ_to_Q gap_c r = Some 19000000001%Q
      /\ Qle_bool 19000000001 eps = false)
  /\ (exists r out g,
         simplex_max 10 gap_A_float gap_b_float gap_c_float false
         = Some (r, out)
         /\ status r = "optimal"%string
         /\ objective_gap float_to_Q gap_c_float r = Some g
         /\ Qle_bool g 19000000000 = false).
Proof.
  split.
  - do 2 eexists. split; [vm_compute; reflexivity|].
    split; [reflexivity|]. split; vm_compute; reflexivity.
  - do 3 eexists. split; [vm_compute; reflexivity|].
    split; [reflexivity|]. split; vm_compute; reflexivity.
Qed.

(** ** The leaving row *)

Section LeavingFacts.

Context {F : Type} {NF : Num F}.

Lemma combine_map_same {X Y Z : Type} (f : X -> Y) (g : X -> Z)
    (l : list X) :
  combine (map f l) (map g l) = map (fun i => (f i, g i)) l.
Proof. induction l as [|a l IH]; simpl; congruence. Qed.

Lemma enumerate_from_map_seq {X : Type} (h : nat -> X) (len k : nat) :
  enumerate_from k (map h (seq k len))
  = map (fun i => (i, h i)) (seq k len).
Proof.
  revert k; induction len as [|len IH]; intros k; simpl; [reflexivity|].
  now rewrite IH.
Qed.

(** The scan of [argmin_with_ties] runs over the rows [0 .. m-1] with
    their ratio and eligibility. *)
Lemma argmin_with_ties_rows (m : nat) (T : list (list F)) (e : nat) :
  argmin_with_ties (ratios m T e) (eligibles m T e)
  = argmin_scan (map (fun i => (i, ratio_of T e i)) (seq 0 m)) None inf.
Proof.
  unfold argmin_with_ties, ratios, eligibles, enumerate.
  rewrite combine_map_same, enumerate_from_map_seq. f_equal.
  apply map_ext. intros i. now destruct (ratio_of T e i).
Qed.

Lemma eligibles_nth (m : nat) (T : list (list F)) (e i : nat) :
  i < m ->
  nth i (eligibles m T e) false = ltb eps12 (entry T i e).
Proof.
  intros Hi. unfold eligibles.
  rewrite (nth_indep _ false (snd (ratio_of T e 0)))
    by (rewrite length_map, length_seq; exact Hi).
  rewrite (map_nth (fun i => snd (ratio_of T e i))), seq_nth by exact Hi.
  simpl. unfold ratio_of. now destruct (ltb eps12 (entry T i e)).
Qed.

Lemma ratios_nth (m : nat) (T : list (list F)) (e i : nat) :
  i < m -> ltb eps12 (entry T i e) = true ->
  nth i (ratios m T e) zero = div (rhs (nth i T [])) (entry T i e).
Proof.
  intros Hi He. unfold ratios.
  rewrite (nth_indep _ zero (fst (ratio_of T e 0)))
    by (rewrite length_map, length_seq; exact Hi).
  rewrite (map_nth (fun i => fst (ratio_of T e i))), seq_nth by exact Hi.
  simpl. unfold ratio_of. now rewrite He.
Qed.

(** The scan only ever picks a row it met and found eligible. *)
Lemma argmin_scan_picks_eligible (h : nat -> F * bool) (len k : nat)
    (best_idx : option nat) (best_val : F) (l : nat) :
  argmin_scan (map (fun i => (i, h i)) (seq k len)) best_idx best_val
  = Some l ->
  best_idx = Some l \/ (k <= l < k + len /\ snd (h l) = true).
Proof.
  revert k best_idx best_val; induction len as [|len IH];
    intros k best_idx best_val; simpl; [auto|].
  destruct (h k) as [v ok] eqn:Ek.
  destruct (ok && ltb v (sub best_val eps12)) eqn:Eu; intros H.
  - apply IH in H. destruct H as [[= <-] | [Hl Hs]].
    + right. split; [lia|]. rewrite Ek. simpl.
      now apply andb_true_iff in Eu.
    + right. split; [lia | exact Hs].
  - apply IH in H. destruct H as [H | [Hl Hs]]; [now left|].
    right. split; [lia | exact Hs].
Qed.

(** With no eligible row the scan keeps what it started with. *)
Lemma argmin_scan_none_eligible (h : nat -> F * bool) (len k : nat)
    (best_idx : option nat) (best_val : F) :
  (forall i, k <= i < k + len -> snd (h i) = false) ->
  argmin_scan (map (fun i => (i, h i)) (seq k len)) best_idx best_val
  = best_idx.
Proof.
  revert k; induction len as [|len IH]; intros k Hno; simpl; [reflexivity|].
  destruct (h k) as [v ok] eqn:Ek.
  assert (Hok : ok = false).
  { specialize (Hno k). rewrite Ek in Hno. simpl in Hno. apply Hno. lia. }
  subst ok. simpl. apply IH. intros i Hi. apply Hno. lia.
Qed.

(** No eligible row: the pass reports unboundedness at once. *)
Lemma no_eligible_row_unbounded (n m : nat) (T : list (list F))
    (B : list nat) (e : nat) :
  entering_candidates (last T []) <> [] ->
  e = list_min (entering_candidates (last T [])) ->
  (forall i, i < m -> ltb eps12 (entry T i e) = false) ->
  pass n m T B = Unbounded.
Proof.
  intros Hne He Hno. unfold pass. cbv zeta.
  destruct (entering_candidates (last T [])) as [|j0 js] eqn:E;
    [congruence|].
  cbn [is_empty]. rewrite <- He, argmin_with_ties_rows.
  rewrite argmin_scan_none_eligible; [reflexivity|].
  intros i Hi. unfold ratio_of. rewrite Hno by lia. reflexivity.
Qed.

End LeavingFacts.

(** ** Exact arithmetic *)

Lemma xQ_ltb_fin (a b : Q) :
  ltb (Fin a) (Fin b) = true <-> (a < b)%Q.
Proof.
  simpl. rewrite negb_true_iff. split.
  - intros H. apply Qnot_le_lt. intros Hle.
    apply Qle_bool_iff in Hle. congruence.
  - intros H. destruct (Qle_bool b a) eqn:E; [|reflexivity].
    apply Qle_bool_iff in E. lra.
Qed.

Lemma xQ_ltb_fin_false (a b : Q) :
  ltb (Fin a) (Fin b) = false <-> (b <= a)%Q.
Proof.
  simpl. rewrite negb_false_iff. apply Qle_bool_iff.
Qed.

Lemma xQ_leb_fin (a b : Q) :
  leb (Fin a) (Fin b) = true <-> (a <= b)%Q.
Proof. simpl. apply Qle_bool_iff. Qed.

Lemma is_fin_true (x : xQ) : is_fin x = true -> x = Fin (value x).
Proof. destruct x; simpl; [reflexivity | discriminate]. Qed.

Lemma finite_row_nth (r : list xQ) (j : nat) :
  forallb is_fin r = true -> is_fin (nth j r zero) = true.
Proof.
  intros H. destruct (nth_in_or_default j r zero) as [Hin | ->];
    [|reflexivity].
  rewrite forallb_forall in H. now apply H.
Qed.

Lemma finite_row_last (r : list xQ) :
  forallb is_fin r = true -> is_fin (last r zero) = true.
Proof.
  induction r as [|a [|b t] IH]; intros H; [reflexivity | |].
  - simpl in *. now rewrite andb_true_r in H.
  - change (last (a :: b :: t) zero) with (last (b :: t) zero).
    apply IH. simpl in H. apply andb_true_iff in H. tauto.
Qed.

Lemma finite_tableau_row (T : list (list xQ)) (i : nat) :
  finite_tableau T = true -> forallb is_fin (nth i T []) = true.
Proof.
  intros H. destruct (nth_in_or_default i T []) as [Hin | ->];
    [|reflexivity].
  unfold finite_tableau in H. rewrite forallb_forall in H. now apply H.
Qed.

Lemma finite_entry (T : list (list xQ)) (i j : nat) :
  finite_tableau T = true -> entry T i j = Fin (value (entry T i j)).
Proof.
  intros H. apply is_fin_true. unfold entry.
  apply finite_row_nth. now apply finite_tableau_row.
Qed.

Lemma finite_rhs (T : list (list xQ)) (i : nat) :
  finite_tableau T = true ->
  rhs (nth i T []) = Fin (value (rhs (nth i T []))).
Proof.
  intros H. apply is_fin_true. unfold rhs.
  apply finite_row_last. now apply finite_tableau_row.
Qed.

Section MinRatio.

Variables (v : nat -> xQ) (ok : nat -> bool).

Hypothesis eligible_is_finite : forall i, ok i = true -> is_fin (v i) = true.

Let q (i : nat) : Q := value (v i).

(** What the scan knows after the rows below [k]. *)
Let scan_state (k : nat) (best_idx : option nat) (best_val : xQ) : Prop :=
  match best_idx with
  | None => best_val = PInf /\ forall i, i < k -> ok i = false
  | Some b => best_val = v b /\ min_ratio_choice ok q k (Some b)
  end.

Lemma argmin_scan_min_ratio (len : nat) :
  forall (k : nat) (best_idx : option nat) (best_val : xQ),
    scan_state k best_idx best_val ->
    min_ratio_choice ok q (k + len)
      (argmin_scan (map (fun i => (i, (v i, ok i))) (seq k len))
                   best_idx best_val).
Proof.
  induction len as [|len IH]; intros k best_idx best_val Hst.
  - rewrite Nat.add_0_r. simpl.
    destruct best_idx as [b|]; exact (proj2 Hst).
  - replace (k + S len) with (S k + len) by lia. cbn [seq map argmin_scan].
    destruct (ok k) eqn:Ek.
    + pose proof (is_fin_true _ (eligible_is_finite k Ek)) as Evk.
      fold (q k) in Evk. cbn [andb].
      destruct best_idx as [b|].
      * destruct Hst as [-> (Hb & Hokb & Hmin & Hfirst)].
        pose proof (is_fin_true _ (eligible_is_finite b Hokb)) as Evb.
        fold (q b) in Evb.
        destruct (ltb (v k) (sub (v b) eps12)) eqn:Elt; apply IH.
        -- rewrite Evk, Evb in Elt. cbn [sub Num_xQ xQ_lift2 eps12] in Elt.
           apply xQ_ltb_fin in Elt. rewrite Qred_correct in Elt.
           split; [reflexivity|]. repeat split; [lia | exact Ek | |].
           ++ intros i Hi Hoki. destruct (Nat.eq_dec i k) as [->|Hne].
              ** unfold eps. lra.
              ** assert (Hik : i < k) by lia.
                 specialize (Hmin i Hik Hoki). unfold eps in *. lra.
           ++ intros i Hi Hoki. specialize (Hmin i Hi Hoki).
              unfold eps in *. lra.
        -- rewrite Evk, Evb in Elt. cbn [sub Num_xQ xQ_lift2 eps12] in Elt.
           apply xQ_ltb_fin_false in Elt. rewrite Qred_correct in Elt.
           split; [reflexivity|]. repeat split; [lia | exact Hokb | |].
           ++ intros i Hi Hoki. destruct (Nat.eq_dec i k) as [->|Hne].
              ** unfold eps. lra.
              ** apply Hmin; [lia | exact Hoki].
           ++ exact Hfirst.
      * destruct Hst as [-> Hno]. rewrite Evk. cbn. apply IH.
        split; [now rewrite Evk|]. repeat split; [lia | exact Ek | |].
        -- intros i Hi Hoki. destruct (Nat.eq_dec i k) as [->|Hne].
           ++ unfold eps. lra.
           ++ rewrite Hno in Hoki by lia. discriminate.
        -- intros i Hi Hoki. rewrite Hno in Hoki by lia. discriminate.
    + cbn [andb]. apply IH. destruct best_idx as [b|].
      * destruct Hst as [-> (Hb & Hokb & Hmin & Hfirst)].
        split; [reflexivity|]. repeat split; [lia | exact Hokb | |].
        -- intros i Hi Hoki. apply Hmin; [|exact Hoki].
           destruct (Nat.eq_dec i k) as [->|Hne]; [congruence | lia].
        -- exact Hfirst.
      * destruct Hst as [-> Hno]. split; [reflexivity|].
        intros i Hi. destruct (Nat.eq_dec i k) as [->|Hne]; [exact Ek|].
        apply Hno. lia.
Qed.

End MinRatio.

(** The ratio test on a finite tableau, in rationals. *)
Lemma ratio_of_eligible (T : list (list xQ)) (e i : nat) :
  finite_tableau T = true ->
  (snd (ratio_of T e i) = true <-> (eps < value (entry T i e))%Q)
  /\ ltb eps12 (entry T i e) = snd (ratio_of T e i).
Proof.
  intros HT. unfold ratio_of. rewrite (finite_entry T i e HT).
  cbn [value]. split.
  - destruct (ltb eps12 (Fin (value (entry T i e)))) eqn:E; cbn [snd].
    + apply xQ_ltb_fin in E. tauto.
    + apply xQ_ltb_fin_false in E. split; [discriminate|].
      unfold eps. intros H. lra.
  - now destruct (ltb eps12 (Fin (value (entry T i e)))).
Qed.

Lemma ratio_of_value (T : list (list xQ)) (e i : nat) :
  finite_tableau T = true ->
  snd (ratio_of T e i) = true ->
  fst (ratio_of T e i)
  = Fin (Qred (value (rhs (nth i T [])) / value (entry T i e))).
Proof.
  intros HT Hok. unfold ratio_of in *.
  destruct (ltb eps12 (entry T i e)); [|discriminate].
  cbn [fst]. rewrite (finite_entry T i e HT) at 1.
  rewrite (finite_rhs T i HT) at 1. reflexivity.
Qed.

(** The ratio test in exact arithmetic, on a tableau of rationals and for
    a column [e]: row [i] is eligible exactly when [tableau[i][e] > 1e-12],
    and then its ratio is [RHS(i) / tableau[i][e]]; the row that
    [argmin_with_ties] returns is eligible, its ratio is the smallest up to
    [1e-12], and every eligible row before it has a strictly larger ratio;
    a row is returned whenever one is eligible; and when none is, the pass
    that entered column [e] ends the loop at once with status unbounded. *)
Lemma exact_ratio_test (n m : nat) (T : list (list xQ))
    (B : list nat) (e : nat) :
  finite_tableau T = true ->
  let eligible := fun i => (eps < value (entry T i e))%Q in
  let ratio :=
    fun i => (value (rhs (nth i T [])) / value (entry T i e))%Q in
  let leaving := argmin_with_ties (ratios m T e) (eligibles m T e) in
  (forall i, i < m ->
     (nth i (eligibles m T e) false = true <-> eligible i))
  /\ (forall i, i < m -> eligible i ->
        exists r, nth i (ratios m T e) zero = Fin r /\ (r == ratio i)%Q)
  /\ (forall l, leaving = Some l ->
        l < m /\ eligible l
        /\ (forall i, i < m -> eligible i -> (ratio l <= ratio i + eps)%Q)
        /\ (forall i, i < l -> eligible i -> (ratio l < ratio i)%Q))
  /\ ((exists i, i < m /\ eligible i) -> exists l, leaving = Some l)
  /\ ((forall i, i < m -> ~ eligible i) ->
      leaving = None
      /\ (entering_candidates (last T []) <> [] ->
          e = list_min (entering_candidates (last T [])) ->
          forall fuel show_steps it out,
            simplex_loop (S fuel) show_steps n m T B it out
            = Some (mkSimplexResult "unbounded" None None (it + 1)
                      msg_unbounded, out))).
Proof.
  intros HT eligible ratio leaving.
  set (v := fun i => fst (ratio_of T e i)).
  set (ok := fun i => snd (ratio_of T e i)).
  assert (Hok : forall i, ok i = true <-> eligible i)
    by (intros i; apply (ratio_of_eligible T e i HT)).
  assert (Hv : forall i, ok i = true -> v i = Fin (Qred (ratio i)))
    by (intros i; apply (ratio_of_value T e i HT)).
  assert (Hfin : forall i, ok i = true -> is_fin (v i) = true)
    by (intros i Hi; now rewrite (Hv i Hi)).
  assert (Hq : forall i, ok i = true -> (value (v i) == ratio i)%Q).
  { intros i Hi. rewrite (Hv i Hi). cbn [value]. apply Qred_correct. }
  assert (Hscan : leaving
                  = argmin_scan (map (fun i => (i, (v i, ok i))) (seq 0 m))
                                None PInf).
  { unfold leaving. rewrite argmin_with_ties_rows. f_equal.
    apply map_ext. intros i. unfold v, ok. now destruct (ratio_of T e i). }
  pose proof (argmin_scan_min_ratio v ok Hfin m 0 None PInf
                (conj eq_refl (fun i (H : i < 0) =>
                                 False_ind _ (Nat.nlt_0_r i H)))) as Hmin.
  rewrite <- Hscan in Hmin. cbn [plus] in Hmin.
  split; [|split; [|split; [|split]]].
  - intros i Hi. rewrite (eligibles_nth m T e i Hi).
    rewrite (proj2 (ratio_of_eligible T e i HT)). apply Hok.
  - intros i Hi Hel. exists (Qred (ratio i)). split; [|apply Qred_correct].
    apply Hok in Hel. rewrite ratios_nth; [| exact Hi |].
    + specialize (Hv i Hel). unfold v, ratio_of in Hv.
      unfold ok in Hel. rewrite <- (proj2 (ratio_of_eligible T e i HT)) in Hel.
      rewrite Hel in Hv. exact Hv.
    + unfold ok in Hel.
      now rewrite <- (proj2 (ratio_of_eligible T e i HT)) in Hel.
  - intros l Hl. rewrite Hl in Hmin.
    destruct Hmin as (Hlm & Hokl & Hle & Hlt).
    split; [exact Hlm|]. split; [now apply Hok|]. split.
    + intros i Hi Hel. apply Hok in Hel. specialize (Hle i Hi Hel).
      rewrite (Hq l Hokl), (Hq i Hel) in Hle. exact Hle.
    + intros i Hi Hel. apply Hok in Hel. specialize (Hlt i Hi Hel).
      rewrite (Hq l Hokl), (Hq i Hel) in Hlt. exact Hlt.
  - intros (i & Hi & Hel). destruct leaving as [l|]; [now exists l|].
    apply Hok in Hel. rewrite (Hmin i Hi) in Hel. discriminate.
  - intros Hno.
    assert (Hnone : forall i, i < m -> ltb eps12 (entry T i e) = false).
    { intros i Hi. rewrite (proj2 (ratio_of_eligible T e i HT)).
      destruct (snd (ratio_of T e i)) eqn:E; [|reflexivity].
      exfalso. apply (Hno i Hi). now apply Hok. }
    split.
    + destruct leaving as [l|]; [|reflexivity].
      destruct Hmin as (Hlm & Hokl & _). exfalso.
      apply (Hno l Hlm). now apply Hok.
    + intros Hne He fuel show_steps it out. simpl.
      now rewrite (no_eligible_row_unbounded n m T B e Hne He Hnone).
Qed.

(** ** The ratio test in any arithmetic *)

Section ScanChoice.

Context {F : Type} {NF : Num F}.

(** [scan_choice] only reads the ratios of eligible rows. *)
Lemma scan_choice_ext (ok ok' : nat -> bool) (r r' : nat -> F) (K : nat)
    (res : option nat) :
  (forall i, ok i = ok' i) ->
  (forall i, ok i = true -> r i = r' i) ->
  scan_choice ok r K res -> scan_choice ok' r' K res.
Proof.
  intros Hok Hr. destruct res as [l|]; cbn [scan_choice].
  - intros (Hl & Hokl & Hafter & Hfirst).
    split; [exact Hl|]. split; [now rewrite <- Hok|]. split.
    + intros i Hi Hi'. rewrite <- Hok in Hi'.
      rewrite <- (Hr i Hi'), <- (Hr l Hokl). now apply Hafter.
    + destruct Hfirst as [[Hu Hb] | (p & Hp & Hokp & Hu & Hb)].
      * left. split; [now rewrite <- (Hr l Hokl)|].
        intros i Hi Hi'. rewrite <- Hok in Hi'.
        rewrite <- (Hr i Hi'). now apply Hb.
      * right. exists p. split; [exact Hp|]. split; [now rewrite <- Hok|].
        split; [now rewrite <- (Hr l Hokl), <- (Hr p Hokp)|].
        intros i Hi Hi'. rewrite <- Hok in Hi'.
        rewrite <- (Hr i Hi'), <- (Hr p Hokp). now apply Hb.
  - intros H i Hi Hi'. rewrite <- Hok in Hi'.
    rewrite <- (Hr i Hi'). now apply H.
Qed.

Variables (r : nat -> F) (ok : nat -> bool).

(** What the scan holds after the rows below [k]. *)
Let held (k : nat) (best_idx : option nat) (best_val : F) : Prop :=
  best_val = match best_idx with Some b => r b | None => inf end
  /\ scan_choice ok r k best_idx.

Lemma argmin_scan_choice (len : nat) :
  forall (k : nat) (best_idx : option nat) (best_val : F),
    held k best_idx best_val ->
    scan_choice ok r (k + len)
      (argmin_scan (map (fun i => (i, (r i, ok i))) (seq k len))
                   best_idx best_val).
Proof.
  induction len as [|len IH]; intros k best_idx best_val [Hval Hst].
  - rewrite Nat.add_0_r. exact Hst.
  - replace (k + S len) with (S k + len) by lia. cbn [seq map argmin_scan].
    destruct (ok k) eqn:Ek; cbn [andb].
    + destruct (ltb (r k) (sub best_val eps12)) eqn:Elt; apply IH.
      * split; [reflexivity|]. subst best_val.
        cbn [scan_choice]. split; [lia|]. split; [exact Ek|].
        split; [intros i Hi; lia|].
        destruct best_idx as [b|]; cbn [scan_choice] in Hst.
        -- destruct Hst as (Hb & Hokb & Hafter & _).
           right. exists b. split; [exact Hb|]. split; [exact Hokb|].
           split; [exact Elt|]. intros i Hi. apply Hafter. lia.
        -- left. split; [exact Elt|]. exact Hst.
      * split; [exact Hval|]. subst best_val.
        destruct best_idx as [b|]; cbn [scan_choice] in *.
        -- destruct Hst as (Hb & Hokb & Hafter & Hfirst).
           split; [lia|]. split; [exact Hokb|]. split; [|exact Hfirst].
           intros i Hi Hoki. destruct (Nat.eq_dec i k) as [->|Hne].
           ++ exact Elt.
           ++ apply Hafter; [lia | exact Hoki].
        -- intros i Hi Hoki. destruct (Nat.eq_dec i k) as [->|Hne].
           ++ exact Elt.
           ++ apply Hst; [lia | exact Hoki].
    + apply IH. split; [exact Hval|].
      destruct best_idx as [b|]; cbn [scan_choice] in *.
      * destruct Hst as (Hb & Hokb & Hafter & Hfirst).
        split; [lia|]. split; [exact Hokb|]. split; [|exact Hfirst].
        intros i Hi Hoki. destruct (Nat.eq_dec i k) as [->|Hne].
        -- congruence.
        -- apply Hafter; [lia | exact Hoki].
      * intros i Hi Hoki. destruct (Nat.eq_dec i k) as [->|Hne].
        -- congruence.
        -- apply Hst; [lia | exact Hoki].
Qed.

End ScanChoice.

(** What a pass with a candidate does with the answer of the ratio
    test. *)
Lemma pass_follows_leaving {F : Type} {NF : Num F} (n m : nat)
    (T : list (list F)) (B : list nat) :
  entering_candidates (last T []) <> [] ->
  pass n m T B
  = match argmin_with_ties
            (ratios m T (list_min (entering_candidates (last T []))))
            (eligibles m T (list_min (entering_candidates (last T []))))
    with
    | Some l =>
        Pivoted (pivot m T l (list_min (entering_candidates (last T []))))
                (list_set B l (list_min (entering_candidates (last T []))))
    | None => Unbounded
    end.
Proof.
  intros Hne. unfold pass. cbv zeta.
  destruct (entering_candidates (last T [])) as [|j0 js];
    [congruence | reflexivity].
Qed.




(** ** The pivot, row by row *)

Section PivotFacts.

Context {F : Type} {NF : Num F}.

Lemma eliminate_row_length (l e : nat) (T : list (list F)) (a : nat) :
  length (eliminate_row l e T a) = length T.
Proof.
  unfold eliminate_row. destruct (a =? l); [reflexivity|].
  destruct (negb (approx_zero (entry T a e))); [|reflexivity].
  apply list_set_length.
Qed.

Lemma eliminate_row_nth (l e : nat) (T : list (list F)) (a i : nat) :
  a < length T ->
  nth i (eliminate_row l e T a) []
  = if i =? a then eliminated_row l e T a else nth i T [].
Proof.
  intros Ha. unfold eliminate_row, eliminated_row.
  destruct (i =? a) eqn:Eia.
  - apply Nat.eqb_eq in Eia. subst i.
    destruct (a =? l); [reflexivity|]. cbv zeta.
    destruct (negb (approx_zero (entry T a e))); [|reflexivity].
    now apply nth_list_set_same.
  - apply Nat.eqb_neq in Eia.
    destruct (a =? l); [reflexivity|]. cbv zeta.
    destruct (negb (approx_zero (entry T a e))); [|reflexivity].
    apply nth_list_set_other. congruence.
Qed.

(** The pivot row is never rewritten by the eliminations. *)
Lemma eliminate_row_keeps_pivot_row (l e : nat) (T : list (list F))
    (a : nat) :
  nth l (eliminate_row l e T a) [] = nth l T [].
Proof.
  unfold eliminate_row. destruct (a =? l) eqn:E; [reflexivity|].
  apply Nat.eqb_neq in E.
  destruct (negb (approx_zero (entry T a e))); [|reflexivity].
  now apply nth_list_set_other.
Qed.

Lemma eliminated_row_ext (l e : nat) (T1 T2 : list (list F)) (i : nat) :
  nth i T2 [] = nth i T1 [] -> nth l T2 [] = nth l T1 [] ->
  eliminated_row l e T2 i = eliminated_row l e T1 i.
Proof.
  intros Hi Hl. unfold eliminated_row, entry. now rewrite Hi, Hl.
Qed.

(** Each index of the range is visited once: its row is eliminated against
    the rows as they were before the loop. *)
Lemma fold_eliminate_rows (l e : nat) (idx : list nat) :
  forall (T : list (list F)),
    NoDup idx -> (forall a, In a idx -> a < length T) ->
    length (fold_left (eliminate_row l e) idx T) = length T
    /\ forall i,
        nth i (fold_left (eliminate_row l e) idx T) []
        = if existsb (Nat.eqb i) idx then eliminated_row l e T i
          else nth i T [].
Proof.
  induction idx as [|a rest IH]; intros T Hnd Hin; simpl; [auto|].
  inversion Hnd as [|a' rest' Hnotin Hnd']; subst.
  destruct (IH (eliminate_row l e T a) Hnd') as [IHlen IHnth].
  { intros b Hb. rewrite eliminate_row_length. apply Hin. now right. }
  split; [now rewrite IHlen, eliminate_row_length|].
  intros i. rewrite IHnth.
  assert (Ha : a < length T) by (apply Hin; now left).
  destruct (existsb (Nat.eqb i) rest) eqn:Erest.
  - rewrite orb_true_r. apply eliminated_row_ext.
    + rewrite eliminate_row_nth by exact Ha.
      destruct (i =? a) eqn:Eia; [|reflexivity].
      apply Nat.eqb_eq in Eia. subst i. exfalso. apply Hnotin.
      apply existsb_exists in Erest. destruct Erest as [x [Hx Ex]].
      apply Nat.eqb_eq in Ex. now subst x.
    + apply eliminate_row_keeps_pivot_row.
  - rewrite orb_false_r, eliminate_row_nth by exact Ha.
    destruct (i =? a) eqn:Eia; [|reflexivity].
    apply Nat.eqb_eq in Eia. now subst i.
Qed.

Lemma existsb_eqb_seq (i k len : nat) :
  existsb (Nat.eqb i) (seq k len) = (k <=? i) && (i <? k + len).
Proof.
  destruct (existsb (Nat.eqb i) (seq k len)) eqn:E.
  - apply existsb_exists in E. destruct E as [x [Hx Ex]].
    apply Nat.eqb_eq in Ex. subst x. apply in_seq in Hx. symmetry.
    apply andb_true_iff. split; [apply Nat.leb_le | apply Nat.ltb_lt]; lia.
  - symmetry. apply andb_false_iff.
    destruct (k <=? i) eqn:E1; [|now left]. right.
    destruct (i <? k + len) eqn:E2; [|reflexivity].
    apply Nat.leb_le in E1. apply Nat.ltb_lt in E2.
    assert (H : existsb (Nat.eqb i) (seq k len) = true).
    { apply existsb_exists. exists i. split; [apply in_seq; lia|].
      apply Nat.eqb_refl. }
    congruence.
Qed.

(** The rows of the tableau after the pivot. *)
Lemma pivot_rows (m : nat) (T : list (list F)) (l e : nat) :
  length T = m + 1 ->
  length (pivot m T l e) = m + 1
  /\ forall i, i <= m ->
       nth i (pivot m T l e) [] = eliminated_row l e (normalised T l e) i.
Proof.
  intros HT. unfold pivot. fold (normalised T l e).
  assert (Hlen : length (normalised T l e) = m + 1)
    by (unfold normalised; now rewrite list_set_length).
  destruct (fold_eliminate_rows l e (seq 0 (m + 1)) (normalised T l e))
    as [H1 H2].
  - apply seq_NoDup.
  - intros a Ha. apply in_seq in Ha. lia.
  - split; [now rewrite H1|]. intros i Hi. rewrite H2, existsb_eqb_seq.
    replace (0 <=? i) with true by (symmetry; apply Nat.leb_le; lia).
    replace (i <? 0 + (m + 1)) with true
      by (symmetry; apply Nat.ltb_lt; lia).
    reflexivity.
Qed.

End PivotFacts.

(** ** The pivot, entry by entry *)

Section PivotEntries.

Context {F : Type} {NF : Num F}.

Lemma nth_map_combine {X Y Z : Type} (g : X * Y -> Z) (a : list X)
    (b : list Y) (j : nat) (dx : X) (dy : Y) (dz : Z) :
  j < length a -> j < length b ->
  nth j (map g (combine a b)) dz = g (nth j a dx, nth j b dy).
Proof.
  revert b j; induction a as [|x a IH]; intros [|y b] [|j] Ha Hb;
    simpl in *; try lia; [reflexivity|].
  apply IH; lia.
Qed.

Lemma nth_map_in_range {X Y : Type} (f : X -> Y) (a : list X) (j : nat)
    (dx : X) (dy : Y) :
  j < length a -> nth j (map f a) dy = f (nth j a dx).
Proof.
  intros Hj. rewrite (nth_indep _ dy (f dx)) by now rewrite length_map.
  apply map_nth.
Qed.

Lemma rows_of_width_nth (w : nat) (T : list (list F)) (i : nat) :
  rows_of_width w T = true -> i < length T -> length (nth i T []) = w.
Proof.
  intros H Hi. unfold rows_of_width in H. rewrite forallb_forall in H.
  apply Nat.eqb_eq, H. now apply nth_In.
Qed.

Lemma normalised_row_leaving (T : list (list F)) (l e : nat) :
  l < length T ->
  nth l (normalised T l e) []
  = map (fun v => div v (entry T l e)) (nth l T []).
Proof. intros Hl. unfold normalised. now apply nth_list_set_same. Qed.

Lemma normalised_row_other (T : list (list F)) (l e i : nat) :
  i <> l -> nth i (normalised T l e) [] = nth i T [].
Proof.
  intros Hi. unfold normalised. apply nth_list_set_other. congruence.
Qed.

(** The leaving row is divided by the pivot value. *)
Lemma pivot_entry_leaving (m w : nat) (T : list (list F)) (l e j : nat) :
  length T = m + 1 -> rows_of_width w T = true -> l <= m -> j < w ->
  entry (pivot m T l e) l j = div (entry T l j) (entry T l e).
Proof.
  intros HT Hw Hl Hj. unfold entry at 1.
  rewrite (proj2 (pivot_rows m T l e HT) l Hl).
  unfold eliminated_row. rewrite Nat.eqb_refl.
  rewrite normalised_row_leaving by lia.
  rewrite (nth_map_in_range _ _ _ zero); [reflexivity|].
  rewrite (rows_of_width_nth w T l Hw); lia.
Qed.

(** Every other row loses [factor] times the normalised leaving row,
    unless its factor is approximately zero. *)
Lemma pivot_entry_other (m w : nat) (T : list (list F)) (l e i j : nat) :
  length T = m + 1 -> rows_of_width w T = true ->
  l <= m -> i <= m -> i <> l -> j < w ->
  entry (pivot m T l e) i j
  = if approx_zero (entry T i e) then entry T i j
    else sub (entry T i j)
             (mul (entry T i e) (div (entry T l j) (entry T l e))).
Proof.
  intros HT Hw Hl Hi Hil Hj. unfold entry at 1.
  rewrite (proj2 (pivot_rows m T l e HT) i Hi).
  unfold eliminated_row.
  replace (i =? l) with false by (symmetry; now apply Nat.eqb_neq).
  cbv zeta.
  assert (Hf : entry (normalised T l e) i e = entry T i e)
    by (unfold entry; now rewrite normalised_row_other).
  rewrite Hf, (normalised_row_other T l e i Hil).
  destruct (approx_zero (entry T i e)); cbn [negb]; [reflexivity|].
  rewrite normalised_row_leaving by lia.
  assert (Hwi : length (nth i T []) = w)
    by (apply (rows_of_width_nth w T i Hw); lia).
  assert (Hwl : length (nth l T []) = w)
    by (apply (rows_of_width_nth w T l Hw); lia).
  rewrite (nth_map_combine _ _ _ _ zero zero)
    by (rewrite ?length_map; lia).
  cbn [fst snd]. rewrite (nth_map_in_range _ _ _ zero) by lia.
  reflexivity.
Qed.

(** The pivot keeps the shape of the tableau, so every index of the next
    pass is in range again. *)
Lemma pivot_shape (m w : nat) (T : list (list F)) (l e : nat) :
  length T = m + 1 -> rows_of_width w T = true -> l <= m ->
  length (pivot m T l e) = m + 1
  /\ rows_of_width w (pivot m T l e) = true.
Proof.
  intros HT Hw Hl. destruct (pivot_rows m T l e HT) as [Hlen Hrows].
  split; [exact Hlen|]. unfold rows_of_width. apply forallb_forall.
  intros r Hr. apply Nat.eqb_eq.
  destruct (In_nth _ _ [] Hr) as (i & Hi & <-).
  rewrite Hrows by lia. unfold eliminated_row.
  assert (Hnl : length (nth l (normalised T l e) []) = w).
  { rewrite normalised_row_leaving by lia. rewrite length_map.
    apply (rows_of_width_nth w T l Hw). lia. }
  destruct (i =? l) eqn:Eil.
  - apply Nat.eqb_eq in Eil. now subst i.
  - apply Nat.eqb_neq in Eil. cbv zeta.
    assert (Hni : length (nth i (normalised T l e) []) = w).
    { rewrite normalised_row_other by exact Eil.
      apply (rows_of_width_nth w T i Hw). lia. }
    destruct (negb (approx_zero (entry (normalised T l e) i e)));
      [|exact Hni].
    rewrite length_map, length_combine, Hni, Hnl. apply Nat.min_id.
Qed.

(** A validated problem gives a tableau of [m + 1] rows of [n + m + 1]
    entries. *)
Lemma build_tableau_shape (A : list (list F)) (b c : list F) :
  validate A b c = None ->
  length (build_tableau A b c) = length A + 1
  /\ rows_of_width (length (hd [] A) + length A + 1) (build_tableau A b c)
     = true.
Proof.
  intros Hv. apply validate_none_iff in Hv.
  unfold violates_a_check, ragged_rows, c_length_mismatch in Hv.
  unfold build_tableau.
  split; [now rewrite length_app, length_map, length_seq|].
  unfold rows_of_width. rewrite forallb_app. apply andb_true_iff. split.
  - apply forallb_forall. intros r Hr. apply in_map_iff in Hr.
    destruct Hr as (i & <- & Hi). apply in_seq in Hi. apply Nat.eqb_eq.
    unfold build_row. rewrite list_set_length, !length_app, repeat_length.
    simpl.
    destruct (Nat.eq_dec (length (nth i A [])) (length (hd [] A)))
      as [E|N]; [lia|].
    exfalso. apply Hv. right; left. exists (nth i A []).
    split; [apply nth_In; lia | exact N].
  - simpl. rewrite andb_true_r. apply Nat.eqb_eq.
    rewrite !length_app, length_map, repeat_length. simpl.
    destruct (Nat.eq_dec (length c) (length (hd [] A))) as [E|N]; [lia|].
    exfalso. apply Hv. tauto.
Qed.

End PivotEntries.

(** ** The unit columns across a pivot, in exact arithmetic *)

Lemma near0_intro (a b : Q) : (a == b)%Q -> near 0 (Fin a) (Fin b) = true.
Proof.
  intros H. unfold near. apply Qle_bool_iff, Qabs_Qle_condition.
  split; simpl; lra.
Qed.

Lemma near0_elim (x y : xQ) :
  near 0 x y = true ->
  x = Fin (value x) /\ y = Fin (value y) /\ (value x == value y)%Q.
Proof.
  destruct x as [a|], y as [b|]; unfold near; try discriminate.
  intros H. apply Qle_bool_iff in H. repeat split.
  apply Qabs_Qle_condition in H. destruct H as [H1 H2].
  simpl in *. lra.
Qed.

Lemma unit_columns_spec (tol : Q) (m : nat) (T : list (list xQ))
    (B : list nat) :
  unit_columns tol m T B = true
  <-> forall i r, i < m -> r <= m ->
        near tol (entry T r (nth i B 0)) (unit_entry r i) = true.
Proof.
  unfold unit_columns. rewrite forallb_forall. split.
  - intros H i r Hi Hr. specialize (H i). rewrite forallb_forall in H.
    apply H; apply in_seq; lia.
  - intros H i Hi. apply forallb_forall. intros r Hr.
    apply in_seq in Hi. apply in_seq in Hr. apply H; lia.
Qed.

Lemma skips_nonzero_factor_false (m : nat) (T : list (list xQ))
    (l e r : nat) :
  skips_nonzero_factor m T l e = false ->
  r <= m -> r <> l -> approx_zero (entry T r e) = true ->
  near 0 (entry T r e) zero = true.
Proof.
  intros H Hr Hrl Haz.
  destruct (near 0 (entry T r e) zero) eqn:E; [reflexivity|].
  exfalso. unfold skips_nonzero_factor in H.
  assert (Ht : existsb
                 (fun r => negb (r =? l) && approx_zero (entry T r e)
                           && negb (near 0 (entry T r e) zero))
                 (seq 0 (m + 1)) = true).
  { apply existsb_exists. exists r. split; [apply in_seq; lia|].
    rewrite Haz, E.
    replace (r =? l) with false by (symmetry; now apply Nat.eqb_neq).
    reflexivity. }
  congruence.
Qed.

(** The row the ratio test returns is a constraint row with a pivot value
    above [1e-12]. *)
Lemma leaving_row_pivot_value (m : nat) (T : list (list xQ)) (l e : nat) :
  finite_tableau T = true ->
  argmin_with_ties (ratios m T e) (eligibles m T e) = Some l ->
  l < m /\ (eps < value (entry T l e))%Q.
Proof.
  intros HT Hl. rewrite argmin_with_ties_rows in Hl.
  apply argmin_scan_picks_eligible in Hl.
  destruct Hl as [Hl | [Hlm Hok]]; [discriminate|].
  split; [lia|]. now apply (ratio_of_eligible T e l HT).
Qed.

Lemma entry_out_of_width (w : nat) (T : list (list xQ)) (i j : nat) :
  rows_of_width w T = true -> i < length T -> w <= j ->
  entry T i j = Fin 0.
Proof.
  intros Hw Hi Hj. unfold entry. apply nth_overflow.
  rewrite (rows_of_width_nth w T i Hw Hi). exact Hj.
Qed.

Lemma xQ_sub_fin (a b : Q) : sub (Fin a) (Fin b) = Fin (Qred (a - b)).
Proof. reflexivity. Qed.

Lemma xQ_mul_fin (a b : Q) : mul (Fin a) (Fin b) = Fin (Qred (a * b)).
Proof. reflexivity. Qed.

Lemma xQ_div_fin (a b : Q) : div (Fin a) (Fin b) = Fin (Qred (a / b)).
Proof. reflexivity. Qed.

(** C6, as amended.  In exact arithmetic, on a tableau of [m + 1] rows of
    equal width with rational entries, take a pass that pivots on
    [(l, e)]: [e] is the entering column and [l] the row the ratio test
    returns.  If before the pivot every column [basis[i]] is exactly the
    unit vector of row [i], and no row other than [l] has in column [e] a
    non-zero factor that [approx_zero] skips, then after the pivot
    (normalise row [l], eliminate in every other row, set
    [basis[l] = e]) every column [basis[i]] is again exactly the unit
    vector of row [i]. *)
Theorem pivot_keeps_unit_columns (n m w : nat) (T : list (list xQ))
    (B : list nat) (l e : nat) :
  length T = m + 1 ->
  rows_of_width w T = true ->
  finite_tableau T = true ->
  length B = m ->
  entering_candidates (last T []) <> [] ->
  e = list_min (entering_candidates (last T [])) ->
  argmin_with_ties (ratios m T e) (eligibles m T e) = Some l ->
  unit_columns 0 m T B = true ->
  skips_nonzero_factor m T l e = false ->
  pass n m T B = Pivoted (pivot m T l e) (list_set B l e)
  /\ unit_columns 0 m (pivot m T l e) (list_set B l e) = true.
Proof.
  intros HT Hw Hfin HB Hne He Hl Hinv Hskip.
  destruct (leaving_row_pivot_value m T l e Hfin Hl) as [Hlm Hp].
  split.
  - unfold pass. cbv zeta.
    destruct (entering_candidates (last T [])) eqn:E; [congruence|].
    cbn [is_empty]. rewrite <- He, Hl. reflexivity.
  - apply unit_columns_spec. intros i r Hi Hr.
    rewrite unit_columns_spec in Hinv.
    assert (Hew : e < w).
    { destruct (Nat.lt_ge_cases e w) as [H|H]; [exact H|].
      rewrite (entry_out_of_width w T l e Hw) in Hp by lia.
      simpl in Hp. unfold eps in Hp. lra. }
    pose proof (finite_entry T l e Hfin) as Ep.
    set (p := value (entry T l e)) in *.
    assert (Hp0 : ~ (p == 0)%Q) by (unfold eps in Hp; lra).
    destruct (Nat.eq_dec i l) as [->|Hil].
    + rewrite nth_list_set_same by lia.
      destruct (Nat.eq_dec r l) as [->|Hrl].
      * rewrite (pivot_entry_leaving m w T l e e HT Hw) by lia.
        rewrite Ep, xQ_div_fin. unfold unit_entry. rewrite Nat.eqb_refl.
        apply near0_intro. rewrite Qred_correct. now field.
      * rewrite (pivot_entry_other m w T l e r e HT Hw) by lia.
        unfold unit_entry.
        replace (r =? l) with false by (symmetry; now apply Nat.eqb_neq).
        destruct (approx_zero (entry T r e)) eqn:Eaz.
        -- exact (skips_nonzero_factor_false m T l e r Hskip Hr Hrl Eaz).
        -- pose proof (finite_entry T r e Hfin) as Ef.
           set (f := value (entry T r e)) in *.
           rewrite Ef, Ep, xQ_div_fin, xQ_mul_fin, xQ_sub_fin.
           apply near0_intro. rewrite !Qred_correct. now field.
    + rewrite nth_list_set_other by congruence.
      set (c := nth i B 0) in *.
      pose proof (Hinv i i Hi (Nat.lt_le_incl _ _ (Nat.lt_le_trans _ _ _ Hi
                                 (Nat.le_refl m)))) as Hii.
      fold c in Hii. unfold unit_entry in Hii.
      rewrite Nat.eqb_refl in Hii.
      assert (Hcw : c < w).
      { destruct (Nat.lt_ge_cases c w) as [H|H]; [exact H|].
        rewrite (entry_out_of_width w T i c Hw) in Hii by lia.
        apply near0_elim in Hii. destruct Hii as (_ & _ & Hii).
        simpl in Hii. lra. }
      pose proof (Hinv i l Hi (Nat.lt_le_incl _ _ Hlm)) as Hli.
      fold c in Hli. unfold unit_entry in Hli.
      replace (l =? i) with false in Hli
        by (symmetry; apply Nat.eqb_neq; congruence).
      apply near0_elim in Hli. destruct Hli as (Ex & _ & Hx).
      set (x := value (entry T l c)) in *. cbn [value zero Num_xQ] in Hx.
      destruct (Nat.eq_dec r l) as [->|Hrl].
      * rewrite (pivot_entry_leaving m w T l e c HT Hw) by lia.
        rewrite Ex, Ep, xQ_div_fin. unfold unit_entry.
        replace (l =? i) with false
          by (symmetry; apply Nat.eqb_neq; congruence).
        apply near0_intro. rewrite Qred_correct, Hx. now field.
      * rewrite (pivot_entry_other m w T l e r c HT Hw) by lia.
        pose proof (Hinv i r Hi Hr) as Hri. fold c in Hri.
        destruct (approx_zero (entry T r e)); [exact Hri|].
        apply near0_elim in Hri. destruct Hri as (Ey & Eu & Hy).
        set (y := value (entry T r c)) in *.
        set (u := value (unit_entry r i)) in *.
        pose proof (finite_entry T r e Hfin) as Ef.
        set (f := value (entry T r e)) in *.
        rewrite Ey, Ef, Ex, Ep, Eu, xQ_div_fin, xQ_mul_fin, xQ_sub_fin.
        apply near0_intro. rewrite !Qred_correct, Hx, <- Hy. now field.
Qed.

(** The claim C6, as amended, at the first pivot of scenario A. *)
Lemma pivot_keeps_unit_columns_witness :
  let T := build_tableau scenarioA_A scenarioA_b scenarioA_c in
  let B := initial_basis 2 2 in
  unit_columns 0 2 T B = true
  /\ skips_nonzero_factor 2 T 0 0 = false
  /\ pass 2 2 T B = Pivoted (pivot 2 T 0 0) (list_set B 0 0)
  /\ unit_columns 0 2 (pivot 2 T 0 0) (list_set B 0 0) = true.
Proof.
  intros T B.
  assert (Hinv : unit_columns 0 2 T B = true) by reflexivity.
  assert (Hskip : skips_nonzero_factor 2 T 0 0 = false) by reflexivity.
  assert (Hne : entering_candidates (last T []) <> []) by discriminate.
  split; [exact Hinv|]. split; [exact Hskip|].
  exact (pivot_keeps_unit_columns 2 2 5 T B 0 0 eq_refl eq_refl eq_refl
           eq_refl Hne eq_refl eq_refl Hinv Hskip).
Defined.

(** C6, the claim as stated, fails.  On [gap_A], [gap_b], [gap_c] the
    columns of the initial basis are exact unit vectors, yet after the
    first pivot column [basis[0]] is not a unit vector up to [1e-12] (rows
    1 and 2 keep entries of size [1e-9]), and after the last pivot it is
    not one even up to [1/2]: the final basis is [[0, 1, 0]] and column 0
    has 0 in row 0. *)
Lemma gap_unit_columns_counterexample :
  exists r out T0 B0 T1 B1 T3 B3,
    simplex_max 10 gap_A gap_b gap_c true = Some (r, out)
    /\ nth 0 out ([], []) = (T0, B0)
    /\ unit_columns 0 3 T0 B0 = true
    /\ pass 2 3 T0 B0 = Pivoted T1 B1
    /\ nth 1 out ([], []) = (T1, B1)
    /\ unit_columns eps 3 T1 B1 = false
    /\ last out ([], []) = (T3, B3)
    /\ B3 = [0; 1; 0]
    /\ entry T3 0 0 = Fin 0
    /\ unit_columns (1 # 2) 3 T3 B3 = false.
Proof.
  do 8 eexists. split; [vm_compute; reflexivity|].
  repeat split; vm_compute; reflexivity.
Qed.

(** ** What does hold at the optimal exit *)

Section OptimalExit.

Context {F : Type} {NF : Num F}.

(** The first half of C2: a result with status optimal is read off a
    tableau, reached by pivots, whose objective row has no entry below
    [-1e-12] outside the right-hand side. *)
Lemma optimal_exit_has_no_candidate (fuel : nat) (show_steps : bool)
    (n m : nat) (T : list (list F)) (B : list nat) (it : nat)
    (out out' : list Snapshot) (r : SimplexResult F) :
  simplex_loop fuel show_steps n m T B it out = Some (r, out') ->
  status r = "optimal"%string ->
  exists k T' B',
    pivots n m k T B T' B'
    /\ (forall j, j < length (last T' []) - 1 ->
                  ltb (nth j (last T' []) zero) (opp eps12) = false)
    /\ z_opt r = Some (rhs (last T' []))
    /\ x_opt r = Some (extract_x n T' B').
Proof.
  revert T B it out; induction fuel as [|fuel IH]; intros T B it out;
    simpl; [discriminate|].
  destruct (pass n m T B) as [z x| |T1 B1] eqn:EP.
  - intros [= <- <-] _. exists 0, T, B. split; [constructor|].
    unfold pass in EP. cbv zeta in EP.
    destruct (entering_candidates (last T [])) eqn:E.
    + cbn [is_empty] in EP. inversion EP; subst. repeat split.
      intros j Hj.
      destruct (ltb (nth j (last T []) zero) (opp eps12)) eqn:Elt;
        [|reflexivity].
      exfalso. apply (proj1 (entering_candidates_nil (last T [])) E j).
      split; assumption.
    + cbn [is_empty] in EP. destruct (argmin_with_ties _ _); discriminate.
  - intros [= <- <-]. simpl. discriminate.
  - intros H Hs. destruct (IH _ _ _ _ H Hs) as (k & T' & B' & Hp & Hrest).
    exists (S k), T', B'. split; [econstructor; eauto | exact Hrest].
Qed.

End OptimalExit.

(** ** No pivot at all *)

(** In exact arithmetic a cost [c_j <= 0] gives an objective entry that is
    not below [-1e-12], and so does [0.0]: the premises of the last part of
    [iterations_is_pivots_plus_one]. *)
Lemma nonpositive_cost_is_no_candidate (q : Q) :
  (q <= 0)%Q -> ltb (opp (Fin q)) (opp eps12) = false.
Proof.
  intros Hq. cbn [opp Num_xQ xQ_lift1 eps12]. apply xQ_ltb_fin_false.
  rewrite !Qred_correct. lra.
Qed.

Lemma zero_is_no_candidate_exact : ltb (zero : xQ) (opp eps12) = false.
Proof. reflexivity. Qed.

Lemma zero_is_no_candidate_float : ltb (zero : float) (opp eps12) = false.
Proof. reflexivity. Qed.

(** With [c = [-1, 0]] the first pass already returns: one iteration, no
    pivot, one tableau printed. *)
Example no_pivot_still_counts_one :
  simplex_max 1 [[1; 1]]%float [4]%float [-1; 0]%float true
  = Some (mkSimplexResult "optimal" (Some 0%float)
            (Some [0; 0]%float) 1 msg_optimal,
          [([[1; 1; 1; 4]; [1; -0; 0; 0]]%float, [2])]).
Proof. vm_compute. reflexivity. Qed.

(** * Further properties of the solver *)

(** ** What a result looks like *)

Section ResultFacts.

Context {F : Type} {NF : Num F}.

(** The two ways the loop returns. *)
Lemma simplex_loop_result (fuel : nat) (show_steps : bool) (n m : nat)
    (T : list (list F)) (B : list nat) (it : nat) (out out' : list Snapshot)
    (r : SimplexResult F) :
  simplex_loop fuel show_steps n m T B it out = Some (r, out') ->
  exists it',
    it < it'
    /\ ((exists z T' B',
            r = mkSimplexResult "optimal" (Some z) (Some (extract_x n T' B'))
                  it' msg_optimal)
        \/ r = mkSimplexResult "unbounded" None None it' msg_unbounded).
Proof.
  revert T B it out; induction fuel as [|fuel IH]; intros T B it out;
    simpl; [discriminate|].
  destruct (pass n m T B) as [z x| |T1 B1] eqn:EP.
  - intros [= <- <-]. exists (it + 1). split; [lia|]. left.
    unfold pass in EP. cbv zeta in EP.
    destruct (is_empty (entering_candidates (last T []))).
    + inversion EP; subst. now exists (rhs (last T [])), T, B.
    + destruct (argmin_with_ties _ _); discriminate.
  - intros [= <- <-]. exists (it + 1). split; [lia | now right].
  - intros H. apply IH in H. destruct H as (it' & Hit & H).
    exists it'. split; [lia | exact H].
Qed.

(** X1. Whatever [simplex_max] returns has one of the three statuses;
    [z_opt] and [x_opt] are present exactly when the status is optimal, and
    then [x_opt] has one entry per original variable; the iteration count
    is 0 exactly when the status is infeasible.  (So [solve_and_print],
    which rounds [z_opt] and [x_opt] only under status optimal, never meets
    [None].) *)
Theorem result_is_well_formed (fuel : nat) (A : list (list F))
    (b c : list F) (show_steps : bool) (r : SimplexResult F)
    (out : list Snapshot) :
  simplex_max fuel A b c show_steps = Some (r, out) ->
  (status r = "optimal"%string \/ status r = "unbounded"%string
   \/ status r = "infeasible"%string)
  /\ (status r = "optimal"%string ->
      exists z x, z_opt r = Some z /\ x_opt r = Some x
                  /\ length x = length (hd [] A))
  /\ (status r <> "optimal"%string -> z_opt r = None /\ x_opt r = None)
  /\ (iterations r = 0 <-> status r = "infeasible"%string).
Proof.
  unfold simplex_max. destruct (validate A b c) as [msg|].
  - intros [= <- <-]. simpl. repeat split; auto; discriminate.
  - intros H. apply simplex_loop_result in H.
    destruct H as (it' & Hit & [(z & T' & B' & ->) | ->]); simpl.
    + repeat split; auto; try discriminate; try lia.
      * intros _. exists z, (extract_x (length (hd [] A)) T' B').
        repeat split. apply extract_x_length.
      * congruence.
      * congruence.
    + repeat split; auto; try discriminate; lia.
Qed.

(** X2. The status is infeasible exactly for the inputs that fail a shape
    or sign check: an input with at least one row and one column, rows of
    equal length, [b] and [c] of matching lengths and no [b_i < -1e-12] is
    never turned away. *)
Theorem infeasible_iff_check_fails (fuel : nat) (A : list (list F))
    (b c : list F) (show_steps : bool) (r : SimplexResult F)
    (out : list Snapshot) :
  simplex_max fuel A b c show_steps = Some (r, out) ->
  (status r = "infeasible"%string <-> violates_a_check A b c).
Proof.
  unfold simplex_max. destruct (validate A b c) as [msg|] eqn:E.
  - intros [= <- <-]. simpl. split; [|reflexivity]. intros _.
    destruct (validate_some_identifies A b c msg E)
      as [[_ H] | [[_ H] | [[_ H] | [[_ H] | [_ H]]]]];
      unfold violates_a_check; tauto.
  - intros H. apply simplex_loop_result in H.
    apply validate_none_iff in E.
    destruct H as (it' & Hit & [(z & T' & B' & ->) | ->]); simpl;
      (split; [discriminate | contradiction]).
Qed.

(** X3. The checks are made in order and the first one that fails gives
    the message: an empty matrix before ragged rows, ragged rows before the
    length of [b], that before the length of [c], and the sign of [b]
    last. *)
Theorem message_of_first_failed_check (fuel : nat) (A : list (list F))
    (b c : list F) (show_steps : bool) (r : SimplexResult F)
    (out : list Snapshot) :
  simplex_max fuel A b c show_steps = Some (r, out) ->
  (empty_matrix A -> message r = msg_empty)
  /\ (~ empty_matrix A -> ragged_rows A -> message r = msg_ragged)
  /\ (~ empty_matrix A -> ~ ragged_rows A -> b_length_mismatch A b ->
      message r = msg_b_len)
  /\ (~ empty_matrix A -> ~ ragged_rows A -> ~ b_length_mismatch A b ->
      c_length_mismatch A c -> message r = msg_c_len)
  /\ (~ empty_matrix A -> ~ ragged_rows A -> ~ b_length_mismatch A b ->
      ~ c_length_mismatch A c -> negative_rhs b ->
      message r = msg_b_neg).
Proof.
  intros H.
  assert (Hv : forall msg, validate A b c = Some msg -> message r = msg).
  { intros msg E. unfold simplex_max in H. rewrite E in H.
    now inversion H. }
  clear H. unfold empty_matrix, b_length_mismatch, c_length_mismatch.
  unfold validate in Hv.
  destruct (is_empty A) eqn:EA.
  { apply is_empty_true in EA. repeat split; try tauto.
    intros _. now apply Hv. }
  destruct (is_empty (hd [] A)) eqn:EH.
  { apply is_empty_true in EH. repeat split; try tauto.
    intros _. now apply Hv. }
  assert (HA : A <> []) by (intros E; apply is_empty_true in E; congruence).
  assert (HH : hd [] A <> [])
    by (intros E; apply is_empty_true in E; congruence).
  cbn [orb] in Hv.
  destruct (existsb _ A) eqn:ER.
  { apply ragged_rows_existsb in ER. repeat split; try tauto.
    intros _ _. now apply Hv. }
  assert (HR : ~ ragged_rows A)
    by (intros E; apply ragged_rows_existsb in E; congruence).
  destruct (length b =? length A) eqn:EB; cbn [negb] in Hv.
  2:{ apply Nat.eqb_neq in EB. repeat split; try tauto.
      intros _ _ _. now apply Hv. }
  apply Nat.eqb_eq in EB.
  destruct (length c =? length (hd [] A)) eqn:EC; cbn [negb] in Hv.
  2:{ apply Nat.eqb_neq in EC. repeat split; try tauto.
      intros _ _ _ _. now apply Hv. }
  apply Nat.eqb_eq in EC.
  destruct (existsb _ b) eqn:EN.
  { repeat split; try tauto. intros _ _ _ _ _. now apply Hv. }
  assert (HN : ~ negative_rhs b)
    by (intros E; apply negative_rhs_existsb in E; congruence).
  repeat split; tauto.
Qed.

End ResultFacts.

(** ** What a pivoting pass has chosen *)

Section PivotingPass.

Context {F : Type} {NF : Num F}.

(** A pass that pivots does so in the smallest candidate column and in a
    constraint row that the ratio test found eligible. *)
Lemma pass_pivoted_inv (n m : nat) (T T' : list (list F))
    (B B' : list nat) :
  pass n m T B = Pivoted T' B' ->
  exists l e,
    T' = pivot m T l e /\ B' = list_set B l e
    /\ is_candidate (last T []) e
    /\ (forall j, is_candidate (last T []) j -> e <= j)
    /\ l < m
    /\ ltb eps12 (entry T l e) = true.
Proof.
  unfold pass. cbv zeta.
  destruct (entering_candidates (last T [])) as [|j0 js] eqn:E;
    [discriminate|].
  cbn [is_empty]. rewrite <- E.
  assert (Hne : entering_candidates (last T []) <> []) by congruence.
  destruct (list_min_spec _ Hne) as [Hin Hle].
  set (e := list_min (entering_candidates (last T []))) in *.
  destruct (argmin_with_ties (ratios m T e) (eligibles m T e)) as [l|] eqn:El;
    [|discriminate].
  intros [= <- <-]. exists l, e. split; [reflexivity|].
  split; [reflexivity|]. split; [now apply in_entering_candidates|].
  split; [intros j Hj; apply Hle; now apply in_entering_candidates|].
  rewrite argmin_with_ties_rows in El.
  apply argmin_scan_picks_eligible in El.
  destruct El as [El | [Hl Hok]]; [discriminate|].
  split; [lia|]. unfold ratio_of in Hok.
  now destruct (ltb eps12 (entry T l e)).
Qed.

(** X4. A pass that pivots has chosen well: the entering column [e] is
    the smallest column, right-hand side excluded, whose objective entry is
    below [-1e-12]; the leaving row [l] is a constraint row; and the pivot
    value [tableau[l][e]] exceeds [1e-12].  The new tableau is the pivot
    on [(l, e)] and the new basis differs only at [l]. *)
Theorem pivoting_pass_is_well_chosen (n m : nat) (T T' : list (list F))
    (B B' : list nat) :
  pass n m T B = Pivoted T' B' ->
  exists l e,
    T' = pivot m T l e /\ B' = list_set B l e
    /\ e < length (last T []) - 1
    /\ ltb (nth e (last T []) zero) (opp eps12) = true
    /\ (forall j, j < e -> j < length (last T []) - 1 ->
                  ltb (nth j (last T []) zero) (opp eps12) = false)
    /\ l < m
    /\ ltb eps12 (entry T l e) = true.
Proof.
  intros H. apply pass_pivoted_inv in H.
  destruct H as (l & e & HT & HB & [He1 He2] & Hmin & Hl & Hp).
  exists l, e. repeat split; auto.
  intros j Hje Hj.
  destruct (ltb (nth j (last T []) zero) (opp eps12)) eqn:E;
    [|reflexivity].
  assert (Hc : is_candidate (last T []) j) by (split; assumption).
  apply Hmin in Hc. lia.
Qed.

(** The shape survives a pivoting pass. *)
Lemma pass_keeps_shape (n m : nat) (T T' : list (list F))
    (B B' : list nat) :
  well_shaped n m T B -> pass n m T B = Pivoted T' B' ->
  well_shaped n m T' B'.
Proof.
  intros (HT & Hw & HB & Hb) H. apply pass_pivoted_inv in H.
  destruct H as (l & e & -> & -> & [He _] & _ & Hl & _).
  assert (Hlast : length (last T []) = n + m + 1).
  { destruct T as [|r T0]; [simpl in HT; lia|].
    assert (Hin : In (last (r :: T0) []) (r :: T0)).
    { destruct (exists_last (l := r :: T0)) as (T1 & a & E);
        [discriminate|].
      rewrite E, last_last. apply in_or_app. right. now left. }
    unfold rows_of_width in Hw. rewrite forallb_forall in Hw.
    now apply Nat.eqb_eq, Hw. }
  destruct (pivot_shape m (n + m + 1) T l e HT Hw) as [H1 H2]; [lia|].
  repeat split; auto.
  - now rewrite list_set_length.
  - intros i Hi. destruct (Nat.eq_dec i l) as [->|Hil].
    + rewrite nth_list_set_same by lia. lia.
    + rewrite nth_list_set_other by congruence. now apply Hb.
Qed.

Lemma pivots_keep_shape (n m k : nat) (T T' : list (list F))
    (B B' : list nat) :
  pivots n m k T B T' B' -> well_shaped n m T B -> well_shaped n m T' B'.
Proof.
  induction 1 as [T B | k T T1 T2 B B1 B2 HP _ IH]; intros Hs; [exact Hs|].
  apply IH. eapply pass_keeps_shape; eauto.
Qed.

Lemma initial_well_shaped (A : list (list F)) (b c : list F) :
  validate A b c = None ->
  well_shaped (length (hd [] A)) (length A) (build_tableau A b c)
              (initial_basis (length (hd [] A)) (length A)).
Proof.
  intros Hv. destruct (build_tableau_shape A b c Hv) as [H1 H2].
  unfold well_shaped, initial_basis. repeat split; auto.
  - now rewrite length_map, length_seq.
  - intros i Hi.
    rewrite (nth_indep _ 0 (length (hd [] A) + 0))
      by now rewrite length_map, length_seq.
    rewrite (map_nth (fun i => length (hd [] A) + i)), seq_nth by exact Hi.
    lia.
Qed.

(** X5. Every tableau a run reaches from a validated input keeps the
    shape of the first one: [m + 1] rows of [n + m + 1] entries and a basis
    of [m] column indices below [n + m].  Hence every index the loop uses
    ([tableau[i][entering]], [tableau[i][-1]], [basis[leaving]],
    [x[basic_var]]) is in range in every pass. *)
Theorem run_keeps_shape (A : list (list F)) (b c : list F) (k : nat)
    (T : list (list F)) (B : list nat) :
  validate A b c = None ->
  pivots (length (hd [] A)) (length A) k (build_tableau A b c)
         (initial_basis (length (hd [] A)) (length A)) T B ->
  length T = length A + 1
  /\ rows_of_width (length (hd [] A) + length A + 1) T = true
  /\ length B = length A
  /\ forall i, i < length A -> nth i B 0 < length (hd [] A) + length A.
Proof.
  intros Hv Hp.
  exact (pivots_keep_shape _ _ _ _ _ _ _ Hp (initial_well_shaped A b c Hv)).
Qed.

End PivotingPass.

(** ** What is printed *)

Section TraceFacts.

Context {F : Type} {NF : Num F}.

Lemma simplex_loop_silent (fuel : nat) (n m : nat) (T : list (list F))
    (B : list nat) (it : nat) (out out' : list Snapshot)
    (r : SimplexResult F) :
  simplex_loop fuel false n m T B it out = Some (r, out') -> out' = out.
Proof.
  revert T B it; induction fuel as [|fuel IH]; intros T B it; simpl;
    [discriminate|].
  destruct (pass n m T B); try (intros [= _ <-]; reflexivity).
  apply IH.
Qed.

(** With [show_steps], the loop appends one snapshot per pivot to what was
    printed, each the outcome of the pass on the one before. *)
Lemma simplex_loop_trace (fuel : nat) (n m : nat) :
  forall (T : list (list F)) (B : list nat) (it : nat)
         (pre out : list Snapshot) (r : SimplexResult F),
    simplex_loop fuel true n m T B it (pre ++ [(T, B)]) = Some (r, out) ->
    exists rest,
      out = pre ++ (T, B) :: rest
      /\ chained n m ((T, B) :: rest)
      /\ iterations r = it + 1 + length rest.
Proof.
  induction fuel as [|fuel IH]; intros T B it pre out r; simpl;
    [discriminate|].
  destruct (pass n m T B) as [z x| |T1 B1] eqn:EP.
  - intros [= <- <-]. exists []. simpl. repeat split; [|lia].
    intros T' B'. congruence.
  - intros [= <- <-]. exists []. simpl. repeat split; [|lia].
    intros T' B'. congruence.
  - unfold print_tableau. intros H. apply IH in H.
    destruct H as (rest & -> & Hch & Hit).
    exists ((T1, B1) :: rest). split; [now rewrite <- app_assoc|].
    split; [|simpl; lia].
    cbn [chained]. split; [reflexivity | exact Hch].
Qed.

(** X6. With [show_steps = True] and a validated input, what has been
    printed when the solver returns is the whole run: the first snapshot is
    the initial tableau with the slack basis, each further snapshot is the
    tableau and basis that the pass on the previous one produced by
    pivoting, the pass on the last snapshot is the one that returned, and
    the number of snapshots is the iteration count.  With
    [show_steps = False] nothing is printed. *)
Theorem trace_is_the_run (fuel : nat) (A : list (list F)) (b c : list F)
    (r : SimplexResult F) (out : list Snapshot) :
  validate A b c = None ->
  (simplex_max fuel A b c true = Some (r, out) ->
   exists rest,
     out = (build_tableau A b c,
            initial_basis (length (hd [] A)) (length A)) :: rest
     /\ chained (length (hd [] A)) (length A) out
     /\ length out = iterations r)
  /\ (simplex_max fuel A b c false = Some (r, out) -> out = []).
Proof.
  intros Hv. unfold simplex_max. rewrite Hv. split.
  - intros H. unfold print_tableau in H.
    apply (simplex_loop_trace fuel _ _ _ _ 0 []) in H.
    destruct H as (rest & -> & Hch & Hit). exists rest.
    split; [reflexivity|]. split; [exact Hch|].
    cbn [app length]. rewrite Hit. reflexivity.
  - apply simplex_loop_silent.
Qed.

End TraceFacts.

(** ** Runs that never return *)

Section NoReturn.

Context {F : Type} {NF : Num F}.

Lemma fixed_point_loops (n m : nat) (T : list (list F)) (B : list nat) :
  pass n m T B = Pivoted T B ->
  forall fuel show_steps it out,
    simplex_loop fuel show_steps n m T B it out = None.
Proof.
  intros H fuel; induction fuel as [|fuel IH]; intros show_steps it out;
    simpl; [reflexivity|].
  rewrite H. apply IH.
Qed.

Lemma pivots_then_none (n m k : nat) (T T' : list (list F))
    (B B' : list nat) :
  pivots n m k T B T' B' ->
  (forall fuel show_steps it out,
      simplex_loop fuel show_steps n m T' B' it out = None) ->
  forall fuel show_steps it out,
    simplex_loop fuel show_steps n m T B it out = None.
Proof.
  induction 1 as [T B | k T T1 T2 B B1 B2 HP _ IH]; intros Hn; [exact Hn|].
  intros [|fuel] show_steps it out; simpl; [reflexivity|].
  rewrite HP. now apply IH.
Qed.

(** X7. The loop has no way out of a repeated state: if a run from a
    validated input reaches a tableau and basis on which the pass pivots
    and leaves both unchanged, [simplex_max] does not return, whatever the
    number of passes allowed.  This happens when the entering column has an
    objective entry between [-1e-9] and [-1e-12]: the column enters, but
    [approx_zero] keeps the objective row from being updated. *)
Theorem repeated_state_never_returns (A : list (list F)) (b c : list F)
    (k : nat) (T : list (list F)) (B : list nat) :
  validate A b c = None ->
  pivots (length (hd [] A)) (length A) k (build_tableau A b c)
         (initial_basis (length (hd [] A)) (length A)) T B ->
  pass (length (hd [] A)) (length A) T B = Pivoted T B ->
  forall fuel show_steps, simplex_max fuel A b c show_steps = None.
Proof.
  intros Hv Hp Hfix fuel show_steps. unfold simplex_max. rewrite Hv.
  apply (pivots_then_none _ _ _ _ _ _ _ Hp).
  now apply fixed_point_loops.
Qed.

End NoReturn.

(** ** The further properties at concrete inputs *)

(** X1 at scenario A. *)
Lemma result_is_well_formed_witness :
  let r := mkSimplexResult "optimal" (Some (Fin (64 # 3)))
             (Some [Fin (8 # 3); Fin (8 # 3)]) 3 msg_optimal in
  simplex_max 5 scenarioA_A scenarioA_b scenarioA_c false = Some (r, [])
  /\ (status r = "optimal"%string ->
      exists z x, z_opt r = Some z /\ x_opt r = Some x /\ length x = 2).
Proof.
  intros r.
  assert (Hr : simplex_max 5 scenarioA_A scenarioA_b scenarioA_c false
               = Some (r, [])) by reflexivity.
  split; [exact Hr|].
  exact (proj1 (proj2 (result_is_well_formed 5 scenarioA_A scenarioA_b
                         scenarioA_c false r [] Hr))).
Defined.

(** X2 at scenario D. *)
Lemma infeasible_iff_check_fails_witness :
  let r := mkSimplexResult "infeasible" None None 0 msg_ragged in
  simplex_max 5 scenarioD_A scenarioD_b scenarioD_c false = Some (r, [])
  /\ (status r = "infeasible"%string
      <-> violates_a_check scenarioD_A scenarioD_b scenarioD_c).
Proof.
  intros r.
  assert (Hr : simplex_max 5 scenarioD_A scenarioD_b scenarioD_c false
               = Some (r, [])) by reflexivity.
  split; [exact Hr|].
  exact (infeasible_iff_check_fails 5 scenarioD_A scenarioD_b scenarioD_c
           false r [] Hr).
Defined.

(** X3 at scenario D, where the rows are ragged and nothing comes before
    that. *)
Lemma message_of_first_failed_check_witness :
  let r := mkSimplexResult "infeasible" None None 0 msg_ragged in
  simplex_max 5 scenarioD_A scenarioD_b scenarioD_c false = Some (r, [])
  /\ (~ empty_matrix scenarioD_A -> ragged_rows scenarioD_A ->
      message r = msg_ragged).
Proof.
  intros r.
  assert (Hr : simplex_max 5 scenarioD_A scenarioD_b scenarioD_c false
               = Some (r, [])) by reflexivity.
  split; [exact Hr|].
  exact (proj1 (proj2 (message_of_first_failed_check 5 scenarioD_A
                         scenarioD_b scenarioD_c false r [] Hr))).
Defined.

(** X4 at the first pass of scenario A. *)
Lemma pivoting_pass_is_well_chosen_witness :
  let T := build_tableau scenarioA_A scenarioA_b scenarioA_c in
  pass 2 2 T [2; 3] = Pivoted (pivot 2 T 0 0) [0; 3]
  /\ exists l e,
       pivot 2 T 0 0 = pivot 2 T l e /\ [0; 3] = list_set [2; 3] l e
       /\ e < length (last T []) - 1
       /\ ltb (nth e (last T []) zero) (opp eps12) = true
       /\ (forall j, j < e -> j < length (last T []) - 1 ->
                     ltb (nth j (last T []) zero) (opp eps12) = false)
       /\ l < 2
       /\ ltb eps12 (entry T l e) = true.
Proof.
  intros T.
  assert (Hp : pass 2 2 T [2; 3] = Pivoted (pivot 2 T 0 0) [0; 3])
    by reflexivity.
  split; [exact Hp|].
  exact (pivoting_pass_is_well_chosen 2 2 T (pivot 2 T 0 0) [2; 3] [0; 3]
           Hp).
Defined.

(** X5 at scenario A, after its two pivots. *)
Lemma run_keeps_shape_witness :
  let T0 := build_tableau scenarioA_A scenarioA_b scenarioA_c in
  let T1 := pivot 2 T0 0 0 in
  let T2 := pivot 2 T1 1 1 in
  validate scenarioA_A scenarioA_b scenarioA_c = None
  /\ pivots 2 2 2 T0 [2; 3] T2 [0; 1]
  /\ length T2 = 3
  /\ rows_of_width 5 T2 = true.
Proof.
  intros T0 T1 T2.
  assert (Hv : validate scenarioA_A scenarioA_b scenarioA_c = None)
    by reflexivity.
  assert (Hp : pivots 2 2 2 T0 [2; 3] T2 [0; 1]).
  { apply (pivots_S 2 2 1 T0 T1 T2 [2; 3] [0; 3] [0; 1]);
      [reflexivity|].
    apply (pivots_S 2 2 0 T1 T2 T2 [0; 3] [0; 1] [0; 1]);
      [reflexivity | constructor]. }
  split; [exact Hv|]. split; [exact Hp|].
  destruct (run_keeps_shape scenarioA_A scenarioA_b scenarioA_c 2 T2
              [0; 1] Hv Hp) as (H1 & H2 & _).
  split; [exact H1 | exact H2].
Defined.

(** X6 at scenario B: two snapshots for an iteration count of 2. *)
Lemma trace_is_the_run_witness :
  exists r out,
    validate scenarioB_A scenarioB_b scenarioB_c = None
    /\ simplex_max 5 scenarioB_A scenarioB_b scenarioB_c true
       = Some (r, out)
    /\ chained 2 1 out
    /\ length out = iterations r
    /\ length out = 2.
Proof.
  assert (Hv : validate scenarioB_A scenarioB_b scenarioB_c = None)
    by reflexivity.
  destruct (simplex_max 5 scenarioB_A scenarioB_b scenarioB_c true)
    as [[r out]|] eqn:Hr; [|vm_compute in Hr; discriminate Hr].
  exists r, out. split; [exact Hv|]. split; [reflexivity|].
  destruct (proj1 (trace_is_the_run 5 scenarioB_A scenarioB_b scenarioB_c
                     r out Hv) Hr) as (rest & E & Hch & Hlen).
  split; [exact Hch|]. split; [exact Hlen|].
  vm_compute in Hr. inversion Hr. reflexivity.
Defined.

(** X7 at [A = [[1]]], [b = [1]], [c = [1e-10]]: after one pivot the state
    repeats, and the solver never returns. *)
Lemma repeated_state_never_returns_witness :
  let T0 := build_tableau stall_A_float stall_b_float stall_c_float in
  validate stall_A_float stall_b_float stall_c_float = None
  /\ pivots 1 1 1 T0 [1] T0 [0]
  /\ pass 1 1 T0 [0] = Pivoted T0 [0]
  /\ forall fuel show_steps,
       simplex_max fuel stall_A_float stall_b_float stall_c_float show_steps
       = None.
Proof.
  intros T0.
  assert (Hv : validate stall_A_float stall_b_float stall_c_float = None)
    by reflexivity.
  assert (Hp : pivots 1 1 1 T0 [1] T0 [0]).
  { apply (pivots_S 1 1 0 T0 T0 T0 [1] [0] [0]);
      [vm_compute; reflexivity | constructor]. }
  assert (Hfix : pass 1 1 T0 [0] = Pivoted T0 [0])
    by (vm_compute; reflexivity).
  split; [exact Hv|]. split; [exact Hp|]. split; [exact Hfix|].
  exact (repeated_state_never_returns stall_A_float stall_b_float
           stall_c_float 1 T0 [0] Hv Hp Hfix).
Defined.

(** ** Divisions in binary64 arithmetic *)

Lemma above_eps_is_not_zero (d : float) :
  ltb eps12 d = true -> d <> 0%float /\ d <> (-0)%float.
Proof.
  intros H. split; intros E; subst d; vm_compute in H; discriminate H.
Qed.

(** X8. In binary64 arithmetic no division of the solver is by zero, so
    it never raises [ZeroDivisionError].  In every pass, whatever it ends
    with, and for its entering column [e]: a row whose ratio
    [tableau[i][-1] / col_val] is computed (an eligible one) has a divisor
    [tableau[i][e]] that is neither [0.0] nor [-0.0], and for the other
    rows nothing is divided, the ratio being [math.inf]; and when the pass
    pivots, on [(l, e)], the pivot value [tableau[l][e]] that divides the
    leaving row is neither [0.0] nor [-0.0]. *)
Theorem divisors_are_not_zero (n m : nat) (T : list (list float))
    (B : list nat) :
  let e := list_min (entering_candidates (last T [])) in
  (forall i, i < m ->
     (nth i (eligibles m T e) false = true ->
        nth i (ratios m T e) zero = div (rhs (nth i T [])) (entry T i e)
        /\ entry T i e <> 0%float /\ entry T i e <> (-0)%float)
     /\ (nth i (eligibles m T e) false = false ->
           nth i (ratios m T e) zero = infinity))
  /\ (forall T' B', pass n m T B = Pivoted T' B' ->
        exists l,
          l < m /\ T' = pivot m T l e /\ B' = list_set B l e
          /\ entry T l e <> 0%float /\ entry T l e <> (-0)%float).
Proof.
  intros e. split.
  - intros i Hi. rewrite (eligibles_nth m T e i Hi). split; intros Hel.
    + split; [now apply ratios_nth|]. now apply above_eps_is_not_zero.
    + unfold ratios.
      rewrite (nth_indep _ zero (fst (ratio_of T e 0)))
        by (rewrite length_map, length_seq; exact Hi).
      rewrite (map_nth (fun i => fst (ratio_of T e i))), seq_nth
        by exact Hi.
      cbn [plus]. unfold ratio_of. rewrite Hel. reflexivity.
  - intros T' B' H.
    assert (Hne : entering_candidates (last T []) <> []).
    { intros E. unfold pass in H. cbv zeta in H. rewrite E in H.
      discriminate H. }
    rewrite (pass_follows_leaving n m T B Hne) in H. fold e in H.
    destruct (argmin_with_ties (ratios m T e) (eligibles m T e))
      as [l|] eqn:El; [|discriminate].
    injection H as <- <-. exists l.
    rewrite argmin_with_ties_rows in El.
    apply argmin_scan_picks_eligible in El.
    destruct El as [El | [Hl Hok]]; [discriminate|].
    split; [lia|]. split; [reflexivity|]. split; [reflexivity|].
    apply above_eps_is_not_zero. unfold ratio_of in Hok.
    now destruct (ltb eps12 (entry T l e)).
Qed.

(** X8 at a pass that ends unbounded after dividing, on the input
    [A = [[1e-10]]], [b = [1e300]], [c = [1]], and at the first pass of
    scenario A, which pivots. *)
Lemma divisors_are_not_zero_witness :
  let T := build_tableau overflow_A_float overflow_b_float
             overflow_c_float in
  let T' := build_tableau scenarioA_A_float scenarioA_b_float
              scenarioA_c_float in
  pass 1 1 T [1] = Unbounded
  /\ nth 0 (eligibles 1 T 0) false = true
  /\ entry T 0 0 <> 0%float
  /\ pass 2 2 T' [2; 3] = Pivoted (pivot 2 T' 0 0) [0; 3]
  /\ exists l,
       l < 2 /\ pivot 2 T' 0 0 = pivot 2 T' l 0 /\ [0; 3] = list_set [2; 3] l 0
       /\ entry T' l 0 <> 0%float /\ entry T' l 0 <> (-0)%float.
Proof.
  intros T T'.
  assert (Hu : pass 1 1 T [1] = Unbounded) by (vm_compute; reflexivity).
  assert (Hel : nth 0 (eligibles 1 T 0) false = true)
    by (vm_compute; reflexivity).
  assert (Hp : pass 2 2 T' [2; 3] = Pivoted (pivot 2 T' 0 0) [0; 3])
    by (vm_compute; reflexivity).
  split; [exact Hu|]. split; [exact Hel|]. split.
  - exact (proj1 (proj2 (proj1 (proj1 (divisors_are_not_zero 1 1 T [1]) 0
                                  (Nat.lt_succ_diag_r 0)) Hel))).
  - split; [exact Hp|].
    exact (proj2 (divisors_are_not_zero 2 2 T' [2; 3]) _ _ Hp).
Defined.

(** ** The initial tableau *)

Section InitialTableau.

Context {F : Type} {NF : Num F}.

Lemma list_set_app_right {X : Type} (a z : list X) (i : nat) (v : X) :
  list_set (a ++ z) (length a + i) v = a ++ list_set z i v.
Proof. induction a as [|h a IH]; simpl; [reflexivity | now rewrite IH]. Qed.

Lemma list_set_app_left {X : Type} (a z : list X) (i : nat) (v : X) :
  i < length a -> list_set (a ++ z) i v = list_set a i v ++ z.
Proof.
  revert i; induction a as [|h a IH]; intros [|i] Hi; simpl in *;
    try lia; [reflexivity|].
  rewrite IH by lia. reflexivity.
Qed.

(** A constraint row is [A_i], then the unit vector of [i], then [b_i]. *)
Lemma build_row_blocks (n m i : nat) (Ai : list F) (bi : F) :
  length Ai = n -> i < m ->
  build_row n m i Ai bi = Ai ++ list_set (repeat zero m) i one ++ [bi].
Proof.
  intros Hn Hi. unfold build_row. rewrite <- Hn, list_set_app_right.
  f_equal. apply list_set_app_left. now rewrite repeat_length.
Qed.

Lemma nth_unit_block (m i k : nat) :
  i < m -> k < m ->
  nth k (list_set (repeat (zero : F) m) i one) zero
  = if k =? i then one else zero.
Proof.
  intros Hi Hk. destruct (k =? i) eqn:E.
  - apply Nat.eqb_eq in E. subst k. apply nth_list_set_same.
    now rewrite repeat_length.
  - apply Nat.eqb_neq in E. rewrite nth_list_set_other by congruence.
    apply nth_repeat_zero.
Qed.

Lemma validated_lengths (A : list (list F)) (b c : list F) :
  validate A b c = None ->
  (forall i, i < length A -> length (nth i A []) = length (hd [] A))
  /\ length b = length A /\ length c = length (hd [] A)
  /\ 0 < length A /\ 0 < length (hd [] A).
Proof.
  intros Hv. apply validate_none_iff in Hv.
  unfold violates_a_check, empty_matrix, ragged_rows, b_length_mismatch,
    c_length_mismatch in Hv.
  split; [|split; [|split; [|split]]].
  - intros i Hi.
    destruct (Nat.eq_dec (length (nth i A [])) (length (hd [] A)))
      as [E|N]; [exact E|].
    exfalso. apply Hv. right; left. exists (nth i A []).
    split; [now apply nth_In | exact N].
  - destruct (Nat.eq_dec (length b) (length A)); [assumption | tauto].
  - destruct (Nat.eq_dec (length c) (length (hd [] A))); [assumption|tauto].
  - destruct A; [tauto | simpl; lia].
  - destruct (hd [] A); [tauto | simpl; lia].
Qed.

Lemma build_tableau_row (A : list (list F)) (b c : list F) (i : nat) :
  validate A b c = None -> i < length A ->
  nth i (build_tableau A b c) []
  = nth i A [] ++ list_set (repeat zero (length A)) i one
    ++ [nth i b zero].
Proof.
  intros Hv Hi. destruct (validated_lengths A b c Hv) as (HA & _).
  unfold build_tableau.
  rewrite app_nth1 by now rewrite length_map, length_seq.
  rewrite (nth_indep _ [] (build_row (length (hd [] A)) (length A) 0
                             (nth 0 A []) (nth 0 b zero)))
    by now rewrite length_map, length_seq.
  rewrite (map_nth (fun i => build_row (length (hd [] A)) (length A) i
                               (nth i A []) (nth i b zero))).
  rewrite seq_nth by exact Hi. cbn [plus].
  apply build_row_blocks; [now apply HA | exact Hi].
Qed.

Lemma build_tableau_objective (A : list (list F)) (b c : list F) :
  nth (length A) (build_tableau A b c) []
  = map opp c ++ repeat zero (length A) ++ [zero].
Proof.
  unfold build_tableau.
  rewrite app_nth2 by (rewrite length_map, length_seq; lia).
  rewrite length_map, length_seq, Nat.sub_diag. reflexivity.
Qed.

Lemma last_app_singleton {X : Type} (a : list X) (v d : X) :
  last (a ++ [v]) d = v.
Proof. apply last_last. Qed.

(** X9. For a validated input the initial tableau is [[A | I | b]] over
    [[-c | 0 | 0]] and the initial basis is the slack columns: row [i]
    carries [A[i][j]] in column [j < n], 1.0 in slack column [n + i] and
    0.0 in the other slack columns, and [b[i]] as right-hand side; the
    objective row carries [-c[j]], then 0.0 in every slack column and as
    right-hand side; [basis[i] = n + i]. *)
Theorem initial_tableau_layout (A : list (list F)) (b c : list F) :
  validate A b c = None ->
  let m := length A in
  let n := length (hd [] A) in
  let T := build_tableau A b c in
  (forall i j, i < m -> j < n -> entry T i j = nth j (nth i A []) zero)
  /\ (forall i k, i < m -> k < m ->
        entry T i (n + k) = if k =? i then one else zero)
  /\ (forall i, i < m -> rhs (nth i T []) = nth i b zero)
  /\ (forall j, j < n -> entry T m j = opp (nth j c zero))
  /\ (forall k, k < m -> entry T m (n + k) = zero)
  /\ rhs (nth m T []) = zero
  /\ (forall i, i < m -> nth i (initial_basis n m) 0 = n + i).
Proof.
  intros Hv m n T.
  destruct (validated_lengths A b c Hv) as (HA & Hb & Hc & _).
  split; [|split; [|split; [|split; [|split; [|split]]]]].
  - intros i j Hi Hj. unfold entry, T.
    rewrite (build_tableau_row A b c i Hv Hi).
    apply app_nth1. rewrite HA by exact Hi. exact Hj.
  - intros i k Hi Hk. unfold entry, T.
    rewrite (build_tableau_row A b c i Hv Hi).
    rewrite app_nth2 by (rewrite HA by exact Hi; fold n; lia).
    rewrite HA by exact Hi. fold n.
    replace (n + k - n) with k by lia.
    rewrite app_nth1 by (rewrite list_set_length, repeat_length; exact Hk).
    now apply nth_unit_block.
  - intros i Hi. unfold rhs, T. rewrite (build_tableau_row A b c i Hv Hi).
    rewrite app_assoc. apply last_last.
  - intros j Hj. unfold entry, T, m. rewrite build_tableau_objective.
    rewrite app_nth1 by (rewrite length_map, Hc; exact Hj).
    rewrite (nth_indep _ zero (opp zero))
      by (rewrite length_map, Hc; exact Hj).
    apply map_nth.
  - intros k Hk. unfold entry, T, m in *. rewrite build_tableau_objective.
    rewrite app_nth2 by (rewrite length_map, Hc; fold n; lia).
    rewrite length_map, Hc. fold n. replace (n + k - n) with k by lia.
    rewrite app_nth1 by (rewrite repeat_length; exact Hk).
    apply nth_repeat_zero.
  - unfold rhs, T, m. rewrite build_tableau_objective.
    rewrite app_assoc. apply last_last.
  - intros i Hi. unfold initial_basis.
    rewrite (nth_indep _ 0 (n + 0)) by now rewrite length_map, length_seq.
    rewrite (map_nth (fun i => n + i)), seq_nth by exact Hi. reflexivity.
Qed.

End InitialTableau.

(** X9 at scenario A. *)
Lemma initial_tableau_layout_witness :
  let T := build_tableau scenarioA_A scenarioA_b scenarioA_c in
  validate scenarioA_A scenarioA_b scenarioA_c = None
  /\ (forall i k, i < 2 -> k < 2 ->
        entry T i (2 + k) = if k =? i then one else zero)
  /\ rhs (nth 2 T []) = zero.
Proof.
  intros T.
  assert (Hv : validate scenarioA_A scenarioA_b scenarioA_c = None)
    by reflexivity.
  split; [exact Hv|].
  destruct (initial_tableau_layout scenarioA_A scenarioA_b scenarioA_c Hv)
    as (_ & H2 & _ & _ & _ & H6 & _).
  split; [exact H2 | exact H6].
Defined.

(** ** The equations of the tableau across a pivot, in exact arithmetic *)

Lemma dot_nil_r (c : list Q) : dot c [] = 0%Q.
Proof. now destruct c. Qed.

Lemma row_dot_div (r : list xQ) (p : Q) (u : list Q) :
  forallb is_fin r = true -> ~ (p == 0)%Q ->
  (row_dot (map (fun v => div v (Fin p)) r) u == row_dot r u / p)%Q.
Proof.
  intros Hr Hp. unfold row_dot. revert u Hr.
  induction r as [|a r IH]; intros u Hr.
  - simpl. now field.
  - destruct u as [|u0 u]; [simpl; now field|].
    simpl in Hr. apply andb_true_iff in Hr. destruct Hr as [Ha Hr].
    apply is_fin_true in Ha. rewrite Ha. cbn [map dot value].
    rewrite xQ_div_fin. cbn [value]. rewrite Qred_correct, (IH u Hr).
    now field.
Qed.

Lemma row_dot_sub (r r' : list xQ) (f : Q) (u : list Q) :
  forallb is_fin r = true -> forallb is_fin r' = true ->
  length r = length r' ->
  (row_dot (map (fun vv => sub (fst vv) (mul (Fin f) (snd vv)))
                (combine r r')) u
   == row_dot r u - f * row_dot r' u)%Q.
Proof.
  unfold row_dot. revert r' u.
  induction r as [|a r IH]; intros [|a' r'] u Hr Hr' Hlen;
    try discriminate Hlen.
  - simpl. ring.
  - destruct u as [|u0 u]; [simpl; ring|].
    simpl in Hr, Hr'. apply andb_true_iff in Hr, Hr'.
    destruct Hr as [Ha Hr], Hr' as [Ha' Hr'].
    apply is_fin_true in Ha, Ha'. rewrite Ha, Ha'.
    cbn [combine map dot fst snd value].
    rewrite xQ_mul_fin, xQ_sub_fin. cbn [value].
    rewrite !Qred_correct, (IH r' u Hr Hr') by (simpl in Hlen; lia).
    ring.
Qed.

Lemma finite_row_div (r : list xQ) (p : Q) :
  forallb is_fin r = true ->
  forallb is_fin (map (fun v => div v (Fin p)) r) = true.
Proof.
  intros Hr. apply forallb_forall. intros x Hx. apply in_map_iff in Hx.
  destruct Hx as (a & <- & Ha). rewrite forallb_forall in Hr.
  rewrite (is_fin_true a (Hr a Ha)). reflexivity.
Qed.

Lemma finite_row_sub (r r' : list xQ) (f : Q) :
  forallb is_fin r = true -> forallb is_fin r' = true ->
  forallb is_fin (map (fun vv => sub (fst vv) (mul (Fin f) (snd vv)))
                      (combine r r')) = true.
Proof.
  intros Hr Hr'. apply forallb_forall. intros x Hx. apply in_map_iff in Hx.
  destruct Hx as ([a a'] & <- & Ha). rewrite forallb_forall in Hr, Hr'.
  rewrite (is_fin_true a (Hr a (in_combine_l _ _ _ _ Ha))).
  rewrite (is_fin_true a' (Hr' a' (in_combine_r _ _ _ _ Ha))).
  reflexivity.
Qed.

(** The rows after a pivot, as rows of rationals. *)
Lemma pivot_row_leaving (m w : nat) (T : list (list xQ)) (l e : nat) :
  length T = m + 1 -> l <= m ->
  nth l (pivot m T l e) []
  = map (fun v => div v (entry T l e)) (nth l T []).
Proof.
  intros HT Hl. rewrite (proj2 (pivot_rows m T l e HT) l Hl).
  unfold eliminated_row. rewrite Nat.eqb_refl.
  apply normalised_row_leaving. lia.
Qed.

Lemma pivot_row_other (m : nat) (T : list (list xQ)) (l e i : nat) :
  length T = m + 1 -> l <= m -> i <= m -> i <> l ->
  nth i (pivot m T l e) []
  = if approx_zero (entry T i e) then nth i T []
    else map (fun vv => sub (fst vv) (mul (entry T i e) (snd vv)))
             (combine (nth i T [])
                      (map (fun v => div v (entry T l e)) (nth l T []))).
Proof.
  intros HT Hl Hi Hil. rewrite (proj2 (pivot_rows m T l e HT) i Hi).
  unfold eliminated_row.
  replace (i =? l) with false by (symmetry; now apply Nat.eqb_neq).
  cbv zeta.
  assert (Hf : entry (normalised T l e) i e = entry T i e)
    by (unfold entry; now rewrite normalised_row_other).
  rewrite Hf, (normalised_row_other T l e i Hil).
  rewrite normalised_row_leaving by lia.
  now destruct (approx_zero (entry T i e)).
Qed.

(** A pivot turns rationals into rationals. *)
Lemma pivot_finite (m w : nat) (T : list (list xQ)) (l e : nat) :
  length T = m + 1 -> l <= m -> finite_tableau T = true ->
  finite_tableau (pivot m T l e) = true.
Proof.
  intros HT Hl Hfin. unfold finite_tableau. apply forallb_forall.
  intros r Hr. destruct (In_nth _ _ [] Hr) as (i & Hi & <-).
  rewrite (proj1 (pivot_rows m T l e HT)) in Hi.
  pose proof (finite_entry T l e Hfin) as Ep.
  pose proof (finite_tableau_row T l Hfin) as Hrl.
  destruct (Nat.eq_dec i l) as [->|Hil].
  - rewrite (pivot_row_leaving m w T l e HT Hl), Ep.
    now apply finite_row_div.
  - rewrite (pivot_row_other m T l e i HT Hl) by lia.
    destruct (approx_zero (entry T i e)).
    + now apply finite_tableau_row.
    + rewrite (finite_entry T i e Hfin), Ep. apply finite_row_sub.
      * now apply finite_tableau_row.
      * now apply finite_row_div.
Qed.

(** Each row after the pivot is a combination of two rows before it. *)
Lemma pivot_row_dot (m w : nat) (T : list (list xQ)) (l e : nat)
    (u : list Q) :
  length T = m + 1 -> rows_of_width w T = true ->
  finite_tableau T = true -> l <= m ->
  ~ (value (entry T l e) == 0)%Q ->
  (row_dot (nth l (pivot m T l e) []) u
   == row_dot (nth l T []) u / value (entry T l e))%Q
  /\ forall i, i <= m -> i <> l ->
       (row_dot (nth i (pivot m T l e) []) u
        == row_dot (nth i T []) u
           - used_factor T i e
             * (row_dot (nth l T []) u / value (entry T l e)))%Q.
Proof.
  intros HT Hw Hfin Hl Hp.
  pose proof (finite_entry T l e Hfin) as Ep.
  pose proof (finite_tableau_row T l Hfin) as Hrl.
  split.
  - rewrite (pivot_row_leaving m w T l e HT Hl), Ep.
    now apply row_dot_div.
  - intros i Hi Hil. rewrite (pivot_row_other m T l e i HT Hl Hi Hil).
    unfold used_factor. destruct (approx_zero (entry T i e)).
    + ring.
    + pose proof (finite_entry T i e Hfin) as Ef.
      set (f := value (entry T i e)) in *.
      set (p := value (entry T l e)) in *.
      rewrite Ef, Ep. rewrite row_dot_sub.
      * now rewrite row_dot_div.
      * now apply finite_tableau_row.
      * now apply finite_row_div.
      * rewrite length_map.
        rewrite (rows_of_width_nth w T i Hw), (rows_of_width_nth w T l Hw);
          [reflexivity | lia | lia].
Qed.

Lemma above_eps_value (T : list (list xQ)) (l e : nat) :
  finite_tableau T = true -> ltb eps12 (entry T l e) = true ->
  ~ (value (entry T l e) == 0)%Q.
Proof.
  intros Hfin H. rewrite (finite_entry T l e Hfin) in H.
  apply xQ_ltb_fin in H. lra.
Qed.

(** A pivot changes neither the solutions of the constraint rows nor what
    the objective row says on them. *)
Lemma pivot_solves (m w : nat) (T : list (list xQ)) (l e : nat)
    (u : list Q) :
  length T = m + 1 -> rows_of_width w T = true ->
  finite_tableau T = true -> l < m ->
  ~ (value (entry T l e) == 0)%Q ->
  (solves m T u <-> solves m (pivot m T l e) u)
  /\ (solves m T u ->
      (row_dot (nth m (pivot m T l e) []) u == row_dot (nth m T []) u)%Q).
Proof.
  intros HT Hw Hfin Hl Hp.
  destruct (pivot_row_dot m w T l e u HT Hw Hfin (Nat.lt_le_incl _ _ Hl) Hp)
    as [Hlv Hoth].
  set (p := value (entry T l e)) in *.
  split; [split|].
  - intros Hs i Hi. pose proof (Hs l Hl) as H0.
    destruct (Nat.eq_dec i l) as [->|Hil].
    + rewrite Hlv, H0. unfold Qdiv. ring.
    + rewrite (Hoth i (Nat.lt_le_incl _ _ Hi) Hil), H0, (Hs i Hi).
      unfold Qdiv. ring.
  - intros Hs.
    assert (H0 : (row_dot (nth l T []) u == 0)%Q).
    { pose proof (Hs l Hl) as H. rewrite Hlv in H.
      setoid_replace (row_dot (nth l T []) u)
        with (row_dot (nth l T []) u / p * p)%Q by (now field).
      rewrite H. ring. }
    intros i Hi. destruct (Nat.eq_dec i l) as [->|Hil]; [exact H0|].
    pose proof (Hs i Hi) as H.
    rewrite (Hoth i (Nat.lt_le_incl _ _ Hi) Hil), H0 in H.
    rewrite <- H. unfold Qdiv. ring.
  - intros Hs. pose proof (Hs l Hl) as H0.
    rewrite (Hoth m (Nat.le_refl m)) by lia. rewrite H0.
    unfold Qdiv. ring.
Qed.

Lemma pivots_solves (n m k : nat) (T T' : list (list xQ))
    (B B' : list nat) :
  pivots n m k T B T' B' ->
  well_shaped n m T B -> finite_tableau T = true ->
  finite_tableau T' = true
  /\ forall u,
       (solves m T u <-> solves m T' u)
       /\ (solves m T u ->
           (row_dot (nth m T' []) u == row_dot (nth m T []) u)%Q).
Proof.
  induction 1 as [T B | k T T1 T2 B B1 B2 HP _ IH]; intros Hs Hfin.
  - split; [exact Hfin|]. intros u. split; [tauto | reflexivity].
  - pose proof (pass_keeps_shape n m T T1 B B1 Hs HP) as Hs1.
    apply pass_pivoted_inv in HP.
    destruct HP as (l & e & -> & -> & _ & _ & Hl & Hp).
    destruct Hs as (HT & Hw & _).
    pose proof (above_eps_value T l e Hfin Hp) as Hp0.
    assert (Hfin1 : finite_tableau (pivot m T l e) = true)
      by (apply (pivot_finite m (n + m + 1)); auto; lia).
    destruct (IH Hs1 Hfin1) as [Hfin2 IHu].
    split; [exact Hfin2|]. intros u.
    destruct (pivot_solves m (n + m + 1) T l e u HT Hw Hfin Hl Hp0)
      as [Hiff1 Hobj1].
    destruct (IHu u) as [Hiff2 Hobj2].
    split; [tauto|]. intros Hsol.
    rewrite Hobj2 by tauto. now apply Hobj1.
Qed.

(** X10. In exact arithmetic, on a validated input of rationals, every
    tableau the run reaches has the same equations as the initial tableau:
    a vector [u] satisfies the constraint rows of the tableau reached
    exactly when it satisfies those of [[A | I | b]], and on such a [u] the
    objective row of the tableau reached has the value of the initial
    objective row [[-c | 0 | 0]].  The eliminations that [approx_zero]
    skips do not affect this. *)
Theorem run_keeps_the_equations (A : list (list xQ)) (b c : list xQ)
    (k : nat) (T : list (list xQ)) (B : list nat) (u : list Q) :
  validate A b c = None ->
  finite_tableau (build_tableau A b c) = true ->
  pivots (length (hd [] A)) (length A) k (build_tableau A b c)
         (initial_basis (length (hd [] A)) (length A)) T B ->
  (solves (length A) (build_tableau A b c) u <-> solves (length A) T u)
  /\ (solves (length A) (build_tableau A b c) u ->
      (row_dot (nth (length A) T []) u
       == row_dot (nth (length A) (build_tableau A b c) []) u)%Q).
Proof.
  intros Hv Hfin Hp.
  destruct (pivots_solves _ _ _ _ _ _ _ Hp (initial_well_shaped A b c Hv)
              Hfin) as [_ H].
  apply H.
Qed.

(** X10 at scenario A after its first pivot, with the vertex
    [x = (4, 0)], [s = (0, 4)]. *)
Lemma run_keeps_the_equations_witness :
  let T0 := build_tableau scenarioA_A scenarioA_b scenarioA_c in
  let T1 := pivot 2 T0 0 0 in
  let u := [4; 0; 0; 4; -1]%Q in
  validate scenarioA_A scenarioA_b scenarioA_c = None
  /\ finite_tableau T0 = true
  /\ pivots 2 2 1 T0 [2; 3] T1 [0; 3]
  /\ (solves 2 T0 u <-> solves 2 T1 u)
  /\ (solves 2 T0 u ->
      (row_dot (nth 2 T1 []) u == row_dot (nth 2 T0 []) u)%Q).
Proof.
  intros T0 T1 u.
  assert (Hv : validate scenarioA_A scenarioA_b scenarioA_c = None)
    by reflexivity.
  assert (Hfin : finite_tableau T0 = true) by reflexivity.
  assert (Hp : pivots 2 2 1 T0 [2; 3] T1 [0; 3]).
  { apply (pivots_S 2 2 0 T0 T1 T1 [2; 3] [0; 3] [0; 3]);
      [reflexivity | constructor]. }
  split; [exact Hv|]. split; [exact Hfin|]. split; [exact Hp|].
  exact (run_keeps_the_equations scenarioA_A scenarioA_b scenarioA_c 1 T1
           [0; 3] u Hv Hfin Hp).
Defined.

(** ** The optimum as a bound, in exact arithmetic *)

Lemma dot_app (a a' x x' : list Q) :
  length a = length x ->
  (dot (a ++ a') (x ++ x') == dot a x + dot a' x')%Q.
Proof.
  revert x; induction a as [|a0 a IH]; intros [|x0 x] Hlen;
    try discriminate Hlen; simpl.
  - ring.
  - rewrite IH by (simpl in Hlen; lia). ring.
Qed.

Lemma total_app (x y : list Q) : (total (x ++ y) == total x + total y)%Q.
Proof.
  induction x as [|a x IH]; simpl; [ring|]. rewrite IH. ring.
Qed.

Lemma dot_zeros (m : nat) (s : list Q) :
  (dot (map value (repeat (zero : xQ) m)) s == 0)%Q.
Proof.
  revert s; induction m as [|m IH]; intros [|s0 s]; simpl;
    try reflexivity.
  rewrite IH. ring.
Qed.

Lemma dot_unit (m i : nat) (s : list Q) :
  i < m -> length s = m ->
  (dot (map value (list_set (repeat (zero : xQ) m) i one)) s
   == nth i s 0)%Q.
Proof.
  revert i s; induction m as [|m IH]; intros i s Hi Hs; [lia|].
  destruct s as [|s0 s]; [discriminate Hs|]. destruct i as [|i].
  - cbn [repeat list_set map dot nth]. rewrite dot_zeros.
    cbn [value one Num_xQ]. ring.
  - cbn [repeat list_set map dot nth].
    rewrite IH by (simpl in Hs; lia). cbn [value zero Num_xQ]. ring.
Qed.

Lemma dot_opp (c : list xQ) (x : list Q) :
  forallb is_fin c = true ->
  (dot (map value (map opp c)) x == - dot (map value c) x)%Q.
Proof.
  revert x; induction c as [|c0 c IH]; intros [|x0 x] Hc; simpl;
    try reflexivity.
  simpl in Hc. apply andb_true_iff in Hc. destruct Hc as [Hc0 Hc].
  rewrite (IH x Hc). rewrite (is_fin_true c0 Hc0).
  cbn [opp Num_xQ xQ_lift1 value]. rewrite Qred_correct. ring.
Qed.

(** A row without a candidate is bounded below on non-negative vectors. *)
Lemma dot_lower_bound (r : list xQ) :
  forall v : list Q,
    forallb is_fin r = true ->
    Forall (fun a => (0 <= a)%Q) v ->
    (forall j, j < length r -> ltb (nth j r zero) (opp eps12) = false) ->
    (- eps * total v <= dot (map value r) v)%Q.
Proof.
  induction r as [|a r IH]; intros v Hr Hv Hno.
  - simpl. clear Hr Hno. induction Hv as [|a0 v Ha _ IHv]; simpl.
    + unfold eps. lra.
    + unfold eps in *. lra.
  - destruct v as [|v0 v].
    + simpl. unfold eps. lra.
    + simpl in Hr. apply andb_true_iff in Hr. destruct Hr as [Ha Hr].
      inversion Hv as [|v0' v' Hv0 Hv']; subst.
      assert (IHr : (- eps * total v <= dot (map value r) v)%Q).
      { apply IH; auto. intros j Hj. apply (Hno (S j)). simpl. lia. }
      pose proof (Hno 0 ltac:(simpl; lia)) as H0. cbn [nth] in H0.
      rewrite (is_fin_true a Ha) in H0.
      cbn [opp Num_xQ xQ_lift1 eps12] in H0.
      apply xQ_ltb_fin_false in H0. rewrite Qred_correct in H0.
      cbn [map dot total].
      assert (Hm : (- eps * v0 <= value a * v0)%Q).
      { apply Qmult_le_compat_r; [|exact Hv0]. unfold eps. exact H0. }
      lra.
Qed.

Lemma row_dot_split_last (r : list xQ) (v : list Q) (t : Q) :
  r <> [] -> length v = length r - 1 ->
  (row_dot r (v ++ [t])
   == dot (map value (removelast r)) v + value (last r zero) * t)%Q.
Proof.
  intros Hr Hv. unfold row_dot.
  rewrite (app_removelast_last zero Hr) at 1.
  rewrite map_app, dot_app.
  - simpl. ring.
  - rewrite length_map. rewrite Hv.
    rewrite (app_removelast_last zero Hr) at 2.
    rewrite length_app. simpl. lia.
Qed.

Lemma nth_removelast (r : list xQ) (j : nat) :
  j < length (removelast r) ->
  nth j (removelast r) zero = nth j r zero.
Proof.
  intros Hj. destruct r as [|a r]; [simpl in Hj; lia|].
  rewrite (app_removelast_last zero (l := a :: r)) at 2 by discriminate.
  now rewrite app_nth1.
Qed.

Lemma finite_removelast (r : list xQ) :
  forallb is_fin r = true -> forallb is_fin (removelast r) = true.
Proof.
  intros H. destruct r as [|a r]; [reflexivity|].
  rewrite (app_removelast_last zero (l := a :: r)) in H by discriminate.
  rewrite forallb_app in H. apply andb_true_iff in H. tauto.
Qed.

Lemma build_tableau_finite (A : list (list xQ)) (b c : list xQ) :
  validate A b c = None ->
  finite_tableau A = true -> forallb is_fin b = true ->
  forallb is_fin c = true ->
  finite_tableau (build_tableau A b c) = true.
Proof.
  intros Hv HA Hb Hc. unfold finite_tableau. apply forallb_forall.
  intros r Hr. destruct (In_nth _ _ [] Hr) as (i & Hi & <-).
  destruct (build_tableau_shape A b c Hv) as [Hlen _].
  rewrite Hlen in Hi.
  destruct (Nat.eq_dec i (length A)) as [->|Hne].
  - rewrite build_tableau_objective, !forallb_app.
    rewrite !andb_true_iff. split; [|split; [|reflexivity]].
    + apply forallb_forall. intros y Hy. apply in_map_iff in Hy.
      destruct Hy as (a & <- & Ha). rewrite forallb_forall in Hc.
      now rewrite (is_fin_true a (Hc a Ha)).
    + apply forallb_forall. intros y Hy. apply repeat_spec in Hy.
      now subst y.
  - rewrite (build_tableau_row A b c i Hv) by lia.
    rewrite !forallb_app, !andb_true_iff. split; [|split].
    + now apply finite_tableau_row.
    + apply forallb_forall. intros y Hy.
      destruct (In_nth _ _ zero Hy) as (k & Hk & <-).
      rewrite list_set_length, repeat_length in Hk.
      rewrite nth_unit_block by lia. now destruct (k =? i).
    + simpl. rewrite andb_true_r. now apply finite_row_nth.
Qed.

Lemma initial_row_on_point (A : list (list xQ)) (b c : list xQ)
    (x s : list Q) (i : nat) :
  validate A b c = None ->
  length x = length (hd [] A) -> length s = length A -> i < length A ->
  (row_dot (nth i (build_tableau A b c) []) (x ++ s ++ [-1])
   == dot (map value (nth i A [])) x + nth i s 0
      - value (nth i b zero))%Q.
Proof.
  intros Hv Hx Hs Hi.
  destruct (validated_lengths A b c Hv) as (HA & _).
  unfold row_dot. rewrite (build_tableau_row A b c i Hv Hi).
  rewrite !map_app, dot_app by (rewrite length_map, HA, Hx; auto).
  rewrite dot_app
    by (rewrite length_map, list_set_length, repeat_length; auto).
  rewrite dot_unit by auto. simpl. ring.
Qed.

Lemma initial_objective_on_point (A : list (list xQ)) (b c : list xQ)
    (x s : list Q) :
  validate A b c = None -> forallb is_fin c = true ->
  length x = length (hd [] A) -> length s = length A ->
  (row_dot (nth (length A) (build_tableau A b c) []) (x ++ s ++ [-1])
   == - dot (map value c) x)%Q.
Proof.
  intros Hv Hc Hx Hs.
  destruct (validated_lengths A b c Hv) as (_ & _ & Hcl & _).
  unfold row_dot. rewrite build_tableau_objective.
  rewrite !map_app, dot_app by (rewrite !length_map, Hcl, Hx; auto).
  rewrite dot_app by (rewrite length_map, repeat_length; auto).
  rewrite dot_opp by exact Hc. rewrite dot_zeros. simpl. ring.
Qed.

(** X11. In exact arithmetic, when [simplex_max] returns status optimal
    on a validated input of rationals, [z_opt] bounds the objective of
    every feasible point up to the tolerance: for all [x >= 0] and slacks
    [s >= 0] with [A x + s = b],
    [c^T x <= z_opt + 1e-12 * (sum of x + sum of s)].
    This does not depend on what [approx_zero] skipped. *)
Theorem optimum_bounds_feasible_points (fuel : nat) (A : list (list xQ))
    (b c : list xQ) (show_steps : bool) (r : SimplexResult xQ)
    (out : list Snapshot) (z : xQ) (x s : list Q) :
  validate A b c = None ->
  finite_tableau A = true -> forallb is_fin b = true ->
  forallb is_fin c = true ->
  simplex_max fuel A b c show_steps = Some (r, out) ->
  status r = "optimal"%string -> z_opt r = Some z ->
  length x = length (hd [] A) -> length s = length A ->
  Forall (fun a => (0 <= a)%Q) x -> Forall (fun a => (0 <= a)%Q) s ->
  (forall i, i < length A ->
     (dot (map value (nth i A [])) x + nth i s 0
      == value (nth i b zero))%Q) ->
  (dot (map value c) x <= value z + eps * (total x + total s))%Q.
Proof.
  intros Hv HA Hb Hc Hr Hst Hz Hx Hs Hx0 Hs0 Hfeas.
  set (m := length A) in *. set (n := length (hd [] A)) in *.
  set (T0 := build_tableau A b c) in *.
  set (u := x ++ s ++ [(-1)%Q]).
  pose proof (build_tableau_finite A b c Hv HA Hb Hc) as Hfin0.
  pose proof (initial_well_shaped A b c Hv) as Hs0w.
  fold m n T0 in Hfin0, Hs0w.
  unfold simplex_max in Hr. rewrite Hv in Hr. fold m n T0 in Hr.
  destruct (optimal_exit_has_no_candidate _ _ _ _ _ _ _ _ _ _ Hr Hst)
    as (k & T & B & Hp & Hno & Hzr & _).
  rewrite Hz in Hzr. injection Hzr as ->.
  destruct (pivots_solves n m k T0 T _ B Hp Hs0w Hfin0) as [Hfin Hu].
  destruct (Hu u) as [_ Hobj].
  destruct (pivots_keep_shape n m k T0 T _ B Hp Hs0w) as (HT & Hw & _).
  assert (Hsol : solves m T0 u).
  { intros i Hi. unfold u, T0.
    rewrite (initial_row_on_point A b c x s i Hv Hx Hs Hi).
    rewrite (Hfeas i Hi). ring. }
  specialize (Hobj Hsol).
  pose proof (initial_objective_on_point A b c x s Hv Hc Hx Hs) as E0.
  change (row_dot (nth m T0 []) u == - dot (map value c) x)%Q in E0.
  rewrite E0 in Hobj. clear E0.
  assert (Hlast : last T [] = nth m T []).
  { rewrite (app_removelast_last [] (l := T))
      by (intros E; rewrite E in HT; simpl in HT; lia).
    rewrite last_last.
    assert (Hl : length (removelast T) = m).
    { pose proof (f_equal (@length _)
                    (app_removelast_last []
                       (l := T)
                       ltac:(intros E; rewrite E in HT; simpl in HT; lia)))
        as E.
      rewrite length_app in E. simpl in E. lia. }
    rewrite app_nth2 by lia. rewrite Hl, Nat.sub_diag. reflexivity. }
  rewrite Hlast in *.
  set (row := nth m T []) in *.
  assert (Hrow : length row = n + m + 1)
    by (apply (rows_of_width_nth _ T m Hw); lia).
  assert (Hne : row <> [])
    by (intros E; rewrite E in Hrow; simpl in Hrow; lia).
  assert (Hfr : forallb is_fin row = true)
    by (apply finite_tableau_row; exact Hfin).
  assert (Hu' : u = (x ++ s) ++ [(-1)%Q])
    by (unfold u; now rewrite app_assoc).
  rewrite Hu' in Hobj.
  rewrite (row_dot_split_last row (x ++ s) (-1) Hne) in Hobj
    by (rewrite length_app, Hrow, Hx, Hs; lia).
  assert (Hlow : (- eps * total (x ++ s)
                  <= dot (map value (removelast row)) (x ++ s))%Q).
  { apply dot_lower_bound.
    - now apply finite_removelast.
    - apply Forall_app. split; assumption.
    - intros j Hj. rewrite nth_removelast by exact Hj. apply Hno.
      rewrite (app_removelast_last zero Hne) at 1.
      rewrite length_app. simpl. lia. }
  rewrite total_app in Hlow. unfold rhs. lra.
Qed.

(** X11 at scenario A, with the optimal vertex [x = (8/3, 8/3)] and no
    slack. *)
Lemma optimum_bounds_feasible_points_witness :
  let r := mkSimplexResult "optimal" (Some (Fin (64 # 3)))
             (Some [Fin (8 # 3); Fin (8 # 3)]) 3 msg_optimal in
  let x := [8 # 3; 8 # 3]%Q in
  let s := [0; 0]%Q in
  simplex_max 5 scenarioA_A scenarioA_b scenarioA_c false = Some (r, [])
  /\ (forall i, i < 2 ->
        (dot (map value (nth i scenarioA_A [])) x + nth i s 0
         == value (nth i scenarioA_b zero))%Q)
  /\ (dot (map value scenarioA_c) x
      <= (64 # 3) + eps * (total x + total s))%Q.
Proof.
  intros r x s.
  assert (Hr : simplex_max 5 scenarioA_A scenarioA_b scenarioA_c false
               = Some (r, [])) by reflexivity.
  assert (Hfeas : forall i, i < 2 ->
            (dot (map value (nth i scenarioA_A [])) x + nth i s 0
             == value (nth i scenarioA_b zero))%Q).
  { intros [|[|i]] Hi; [reflexivity | reflexivity | lia]. }
  assert (Hx : Forall (fun a => (0 <= a)%Q) x)
    by (repeat constructor; discriminate).
  assert (Hs : Forall (fun a => (0 <= a)%Q) s)
    by (repeat constructor; discriminate).
  split; [exact Hr|]. split; [exact Hfeas|].
  exact (optimum_bounds_feasible_points 5 scenarioA_A scenarioA_b
           scenarioA_c false r [] (Fin (64 # 3)) x s eq_refl eq_refl
           eq_refl eq_refl Hr eq_refl eq_refl eq_refl eq_refl Hx Hs Hfeas).
Defined.

(** ** Runs without a skipped factor, in exact arithmetic *)

(** The unit columns survive a pivot that skips no non-zero factor. *)
Lemma pivot_unit_columns_step (m w : nat) (T : list (list xQ))
    (B : list nat) (l e : nat) :
  length T = m + 1 -> rows_of_width w T = true ->
  finite_tableau T = true -> length B = m ->
  l < m -> ltb eps12 (entry T l e) = true ->
  unit_columns 0 m T B = true ->
  skips_nonzero_factor m T l e = false ->
  unit_columns 0 m (pivot m T l e) (list_set B l e) = true.
Proof.
  intros HT Hw Hfin HB Hlm Hlt Hinv Hskip.
  pose proof (above_eps_value T l e Hfin Hlt) as Hp0.
  apply unit_columns_spec. intros i r Hi Hr.
  rewrite unit_columns_spec in Hinv.
  assert (Hew : e < w).
  { destruct (Nat.lt_ge_cases e w) as [H|H]; [exact H|]. exfalso.
    apply Hp0. rewrite (entry_out_of_width w T l e Hw) by lia.
    reflexivity. }
  pose proof (finite_entry T l e Hfin) as Ep.
  set (p := value (entry T l e)) in *.
  destruct (Nat.eq_dec i l) as [->|Hil].
  - rewrite nth_list_set_same by lia.
    destruct (Nat.eq_dec r l) as [->|Hrl].
    + rewrite (pivot_entry_leaving m w T l e e HT Hw) by lia.
      rewrite Ep, xQ_div_fin. unfold unit_entry. rewrite Nat.eqb_refl.
      apply near0_intro. rewrite Qred_correct. now field.
    + rewrite (pivot_entry_other m w T l e r e HT Hw) by lia.
      unfold unit_entry.
      replace (r =? l) with false by (symmetry; now apply Nat.eqb_neq).
      destruct (approx_zero (entry T r e)) eqn:Eaz.
      * exact (skips_nonzero_factor_false m T l e r Hskip Hr Hrl Eaz).
      * pose proof (finite_entry T r e Hfin) as Ef.
        set (f := value (entry T r e)) in *.
        rewrite Ef, Ep, xQ_div_fin, xQ_mul_fin, xQ_sub_fin.
        apply near0_intro. rewrite !Qred_correct. now field.
  - rewrite nth_list_set_other by congruence.
    set (c := nth i B 0) in *.
    assert (Him : i <= m) by lia.
    pose proof (Hinv i i Hi Him) as Hii.
    fold c in Hii. unfold unit_entry in Hii.
    rewrite Nat.eqb_refl in Hii.
    assert (Hcw : c < w).
    { destruct (Nat.lt_ge_cases c w) as [H|H]; [exact H|].
      rewrite (entry_out_of_width w T i c Hw) in Hii by lia.
      apply near0_elim in Hii. destruct Hii as (_ & _ & Hii).
      simpl in Hii. lra. }
    pose proof (Hinv i l Hi (Nat.lt_le_incl _ _ Hlm)) as Hli.
    fold c in Hli. unfold unit_entry in Hli.
    replace (l =? i) with false in Hli
      by (symmetry; apply Nat.eqb_neq; congruence).
    apply near0_elim in Hli. destruct Hli as (Ex & _ & Hx).
    set (x := value (entry T l c)) in *. cbn [value zero Num_xQ] in Hx.
    destruct (Nat.eq_dec r l) as [->|Hrl].
    + rewrite (pivot_entry_leaving m w T l e c HT Hw) by lia.
      rewrite Ex, Ep, xQ_div_fin. unfold unit_entry.
      replace (l =? i) with false
        by (symmetry; apply Nat.eqb_neq; congruence).
      apply near0_intro. rewrite Qred_correct, Hx. now field.
    + rewrite (pivot_entry_other m w T l e r c HT Hw) by lia.
      pose proof (Hinv i r Hi Hr) as Hri. fold c in Hri.
      destruct (approx_zero (entry T r e)); [exact Hri|].
      apply near0_elim in Hri. destruct Hri as (Ey & Eu & Hy).
      set (y := value (entry T r c)) in *.
      set (u := value (unit_entry r i)) in *.
      pose proof (finite_entry T r e Hfin) as Ef.
      set (f := value (entry T r e)) in *.
      rewrite Ey, Ef, Ex, Ep, Eu, xQ_div_fin, xQ_mul_fin, xQ_sub_fin.
      apply near0_intro. rewrite !Qred_correct, Hx, <- Hy. now field.
Qed.

(** The slack basis of a validated input has exact unit columns. *)
Lemma initial_unit_columns (A : list (list xQ)) (b c : list xQ) :
  validate A b c = None ->
  unit_columns 0 (length A) (build_tableau A b c)
               (initial_basis (length (hd [] A)) (length A)) = true.
Proof.
  intros Hv. destruct (validated_lengths A b c Hv) as (HA & _ & Hc & _).
  apply unit_columns_spec. intros i r Hi Hr.
  assert (Hb : nth i (initial_basis (length (hd [] A)) (length A)) 0
               = length (hd [] A) + i).
  { unfold initial_basis.
    rewrite (nth_indep _ 0 (length (hd [] A) + 0))
      by now rewrite length_map, length_seq.
    rewrite (map_nth (fun i => length (hd [] A) + i)), seq_nth by exact Hi.
    reflexivity. }
  rewrite Hb. unfold entry, unit_entry.
  destruct (Nat.eq_dec r (length A)) as [->|Hne].
  - rewrite build_tableau_objective.
    rewrite app_nth2 by (rewrite length_map, Hc; lia).
    rewrite length_map, Hc.
    replace (length (hd [] A) + i - length (hd [] A)) with i by lia.
    rewrite app_nth1 by (rewrite repeat_length; exact Hi).
    rewrite nth_repeat_zero.
    replace (length A =? i) with false
      by (symmetry; apply Nat.eqb_neq; lia).
    reflexivity.
  - rewrite (build_tableau_row A b c r Hv) by lia.
    rewrite app_nth2 by (rewrite HA by lia; lia).
    rewrite HA by lia.
    replace (length (hd [] A) + i - length (hd [] A)) with i by lia.
    rewrite app_nth1 by (rewrite list_set_length, repeat_length; exact Hi).
    rewrite nth_unit_block by lia.
    destruct (Nat.eq_dec i r) as [->|Hir].
    + rewrite Nat.eqb_refl. reflexivity.
    + replace (i =? r) with false by (symmetry; now apply Nat.eqb_neq).
      replace (r =? i) with false
        by (symmetry; apply Nat.eqb_neq; congruence).
      reflexivity.
Qed.

(** Along a run without a skipped factor the tableau stays one of
    rationals, well shaped, with exact unit columns. *)
Lemma clean_pivots_invariant (n m k : nat) (T T' : list (list xQ))
    (B B' : list nat) :
  clean_pivots n m k T B T' B' ->
  well_shaped n m T B -> finite_tableau T = true ->
  unit_columns 0 m T B = true ->
  pivots n m k T B T' B'
  /\ unit_columns 0 m T' B' = true.
Proof.
  induction 1 as [T B | k T T1 T2 B B1 B2 HP Hclean _ IH];
    intros Hs Hfin Hinv.
  - split; [constructor | exact Hinv].
  - pose proof (pass_keeps_shape n m T T1 B B1 Hs HP) as Hs1.
    pose proof HP as HP'.
    unfold pass in HP'. cbv zeta in HP'. unfold pass_skips in Hclean.
    cbv zeta in Hclean.
    destruct (entering_candidates (last T [])) as [|j0 js] eqn:E;
      [discriminate|].
    cbn [is_empty] in HP'.
    set (e := list_min (j0 :: js)) in *.
    destruct (argmin_with_ties (ratios m T e) (eligibles m T e))
      as [l|] eqn:El; [|discriminate].
    injection HP' as <- <-.
    destruct (leaving_row_pivot_value m T l e Hfin El) as [Hl Hp].
    destruct Hs as (HT & Hw & HB & Hb).
    assert (Hlt : ltb eps12 (entry T l e) = true).
    { rewrite (finite_entry T l e Hfin). now apply xQ_ltb_fin. }
    assert (Hinv1 : unit_columns 0 m (pivot m T l e) (list_set B l e)
                    = true)
      by (apply (pivot_unit_columns_step m (n + m + 1)); auto).
    assert (Hfin1 : finite_tableau (pivot m T l e) = true)
      by (apply (pivot_finite m (n + m + 1)); auto; lia).
    destruct (IH Hs1 Hfin1 Hinv1) as [Hp' Hinv'].
    split; [|exact Hinv']. econstructor; eauto.
Qed.

Lemma index_of_some (j : nat) (B : list nat) (k : nat) :
  index_of j B = Some k -> k < length B /\ nth k B 0 = j.
Proof.
  revert k; induction B as [|b B IH]; intros k; simpl; [discriminate|].
  destruct (b =? j) eqn:E.
  - intros [= <-]. apply Nat.eqb_eq in E. split; [lia | exact E].
  - destruct (index_of j B) as [k'|]; [|discriminate].
    intros [= <-]. destruct (IH k' eq_refl) as [H1 H2]. split; [lia|].
    exact H2.
Qed.

Lemma index_of_none (j : nat) (B : list nat) :
  index_of j B = None -> forall k, k < length B -> nth k B 0 <> j.
Proof.
  induction B as [|b B IH]; simpl; [intros _ k Hk; lia|].
  destruct (b =? j) eqn:E; [discriminate|].
  destruct (index_of j B) as [k'|]; [discriminate|].
  intros _ [|k] Hk; [now apply Nat.eqb_neq | apply IH; [reflexivity|lia]].
Qed.

(** With unit columns no two rows have the same basic variable. *)
Lemma unit_columns_injective (m : nat) (T : list (list xQ)) (B : list nat)
    (i k : nat) :
  unit_columns 0 m T B = true -> i < m -> k < m ->
  nth i B 0 = nth k B 0 -> i = k.
Proof.
  intros Hinv Hi Hk E. rewrite unit_columns_spec in Hinv.
  destruct (Nat.eq_dec i k) as [H|H]; [exact H|]. exfalso.
  pose proof (Hinv i i Hi (Nat.lt_le_incl _ _ Hi)) as H1.
  pose proof (Hinv k i Hk (Nat.lt_le_incl _ _ Hi)) as H2.
  rewrite <- E in H2. unfold unit_entry in H1, H2.
  rewrite Nat.eqb_refl in H1.
  replace (i =? k) with false in H2 by (symmetry; now apply Nat.eqb_neq).
  apply near0_elim in H1. apply near0_elim in H2.
  destruct H1 as (_ & _ & H1), H2 as (_ & _ & H2).
  cbn [value one zero Num_xQ] in H1, H2. lra.
Qed.

(** In a constraint row only the row's own basic variable contributes to
    the basic solution, and it contributes the right-hand side. *)
Lemma basic_term_constraint (m : nat) (T : list (list xQ)) (B : list nat)
    (i j : nat) :
  unit_columns 0 m T B = true -> length B = m -> i < m ->
  (value (entry T i j) * basic_value T B j
   == if (j =? nth i B 0)%nat then value (rhs (nth i T [])) else 0)%Q.
Proof.
  intros Hinv HB Hi. unfold basic_value.
  destruct (index_of j B) as [k|] eqn:Ek.
  - destruct (index_of_some j B k Ek) as [Hk Hj]. rewrite HB in Hk.
    pose proof (proj1 (unit_columns_spec 0 m T B) Hinv k i Hk
                  (Nat.lt_le_incl _ _ Hi)) as H.
    rewrite Hj in H. apply near0_elim in H. destruct H as (_ & _ & H).
    rewrite H. unfold unit_entry. destruct (Nat.eq_dec i k) as [->|Hik].
    + rewrite Nat.eqb_refl, Hj, Nat.eqb_refl. cbn [value one Num_xQ].
      ring.
    + replace (i =? k) with false by (symmetry; now apply Nat.eqb_neq).
      replace (j =? nth i B 0) with false.
      * cbn [value zero Num_xQ]. ring.
      * symmetry. apply Nat.eqb_neq. intros E. apply Hik.
        apply (unit_columns_injective m T B i k Hinv Hi Hk). congruence.
  - replace (j =? nth i B 0) with false; [ring|].
    symmetry. apply Nat.eqb_neq. intros E.
    apply (index_of_none j B Ek i); [lia | congruence].
Qed.

(** In the objective row nothing contributes. *)
Lemma basic_term_objective (m : nat) (T : list (list xQ)) (B : list nat)
    (j : nat) :
  unit_columns 0 m T B = true -> length B = m ->
  (value (entry T m j) * basic_value T B j == 0)%Q.
Proof.
  intros Hinv HB. unfold basic_value.
  destruct (index_of j B) as [k|] eqn:Ek; [|ring].
  destruct (index_of_some j B k Ek) as [Hk Hj]. rewrite HB in Hk.
  pose proof (proj1 (unit_columns_spec 0 m T B) Hinv k m Hk
                (Nat.le_refl m)) as H.
  rewrite Hj in H. apply near0_elim in H. destruct H as (_ & _ & H).
  rewrite H. unfold unit_entry.
  replace (m =? k) with false by (symmetry; apply Nat.eqb_neq; lia).
  cbn [value zero Num_xQ]. ring.
Qed.

(** A sum whose terms vanish except at one index. *)
Lemma dot_one_term (f : nat -> Q) (c : nat) (R : Q) (r : list Q) :
  forall k,
    (forall j, j < length r ->
               (nth j r 0 * f (k + j)%nat
                == if (k + j =? c)%nat then R else 0)%Q) ->
    (dot r (map f (seq k (length r)))
     == if ((k <=? c) && (c <? k + length r))%nat then R else 0)%Q.
Proof.
  induction r as [|a r IH]; intros k H.
  - simpl. destruct (k <=? c) eqn:E1; [|reflexivity].
    destruct (c <? k + 0) eqn:E2; [|reflexivity].
    apply Nat.leb_le in E1. apply Nat.ltb_lt in E2. lia.
  - cbn [length seq map dot]. rewrite (IH (S k)).
    + pose proof (H 0 ltac:(simpl; lia)) as H0.
      cbn [nth] in H0. rewrite Nat.add_0_r in H0. rewrite H0.
      destruct (Nat.eq_dec k c) as [->|Hkc].
      * rewrite Nat.eqb_refl.
        replace (S c <=? c) with false
          by (symmetry; apply Nat.leb_gt; lia).
        replace (c <=? c) with true by (symmetry; now apply Nat.leb_le).
        replace (c <? c + S (length r)) with true
          by (symmetry; apply Nat.ltb_lt; lia).
        cbn [andb]. ring.
      * replace (k =? c) with false by (symmetry; now apply Nat.eqb_neq).
        replace (S k + length r) with (k + S (length r)) by lia.
        destruct (c <? k + S (length r)); rewrite ?andb_false_r;
          [|ring].
        rewrite !andb_true_r.
        destruct (k <=? c) eqn:E1, (S k <=? c) eqn:E2; try ring.
        -- apply Nat.leb_le in E1. apply Nat.leb_gt in E2. lia.
        -- apply Nat.leb_gt in E1. apply Nat.leb_le in E2. lia.
    + intros j Hj. pose proof (H (S j) ltac:(simpl; lia)) as HS.
      cbn [nth] in HS. replace (k + S j) with (S k + j) in HS by lia.
      exact HS.
Qed.

Lemma dot_no_term (f : nat -> Q) (r : list Q) :
  forall k,
    (forall j, j < length r -> (nth j r 0 * f (k + j)%nat == 0)%Q) ->
    (dot r (map f (seq k (length r))) == 0)%Q.
Proof.
  induction r as [|a r IH]; intros k H; [reflexivity|].
  cbn [length seq map dot]. rewrite (IH (S k)).
  - pose proof (H 0 ltac:(simpl; lia)) as H0.
    cbn [nth] in H0. rewrite Nat.add_0_r in H0. rewrite H0. ring.
  - intros j Hj. pose proof (H (S j) ltac:(simpl; lia)) as HS.
    cbn [nth] in HS. replace (k + S j) with (S k + j) in HS by lia.
    exact HS.
Qed.

Lemma row_as_entries (T : list (list xQ)) (i j : nat) :
  j < length (removelast (nth i T [])) ->
  nth j (map value (removelast (nth i T []))) 0%Q = value (entry T i j).
Proof.
  intros Hj. change 0%Q with (value zero). rewrite map_nth.
  now rewrite nth_removelast.
Qed.

Lemma length_removelast_row (r : list xQ) (w : nat) :
  length r = w + 1 -> length (removelast r) = w.
Proof.
  intros H.
  assert (Hne : r <> []) by (intros E; rewrite E in H; simpl in H; lia).
  rewrite (app_removelast_last zero Hne), length_app in H.
  cbn [length] in H. lia.
Qed.

(** The basic solution satisfies the constraint rows of its tableau. *)
Lemma basic_point_solves (n m : nat) (T : list (list xQ)) (B : list nat) :
  well_shaped n m T B -> unit_columns 0 m T B = true ->
  solves m T (basic_point T B 0 (n + m) ++ [(-1)%Q]).
Proof.
  intros (HT & Hw & HB & Hb) Hinv i Hi.
  set (row := nth i T []).
  assert (Hrow : length row = n + m + 1)
    by (apply (rows_of_width_nth _ T i Hw); lia).
  assert (Hne : row <> [])
    by (intros E; rewrite E in Hrow; simpl in Hrow; lia).
  pose proof (length_removelast_row row (n + m) Hrow) as HR.
  rewrite (row_dot_split_last row _ (-1) Hne)
    by (unfold basic_point; rewrite length_map, length_seq, Hrow; lia).
  unfold basic_point.
  replace (n + m) with (length (map value (removelast row)))
    by (now rewrite length_map).
  rewrite (dot_one_term (basic_value T B) (nth i B 0)
             (value (rhs row))).
  - rewrite length_map, HR. cbn [Nat.leb plus andb].
    replace (nth i B 0 <? n + m) with true
      by (symmetry; apply Nat.ltb_lt; now apply Hb).
    unfold rhs. ring.
  - intros j Hj. rewrite length_map in Hj. cbn [plus].
    unfold row. rewrite row_as_entries by exact Hj.
    now apply (basic_term_constraint m).
Qed.

(** On the basic solution the objective row is worth minus its right-hand
    side. *)
Lemma basic_point_objective (n m : nat) (T : list (list xQ))
    (B : list nat) :
  well_shaped n m T B -> unit_columns 0 m T B = true ->
  (row_dot (nth m T []) (basic_point T B 0 (n + m) ++ [(-1)%Q])
   == - value (rhs (nth m T [])))%Q.
Proof.
  intros (HT & Hw & HB & Hb) Hinv.
  set (row := nth m T []).
  assert (Hrow : length row = n + m + 1)
    by (apply (rows_of_width_nth _ T m Hw); lia).
  assert (Hne : row <> [])
    by (intros E; rewrite E in Hrow; simpl in Hrow; lia).
  pose proof (length_removelast_row row (n + m) Hrow) as HR.
  rewrite (row_dot_split_last row _ (-1) Hne)
    by (unfold basic_point; rewrite length_map, length_seq, Hrow; lia).
  unfold basic_point.
  replace (n + m) with (length (map value (removelast row)))
    by (now rewrite length_map).
  rewrite (dot_no_term (basic_value T B)).
  - unfold rhs. ring.
  - intros j Hj. rewrite length_map in Hj. cbn [plus].
    unfold row. rewrite row_as_entries by exact Hj.
    now apply (basic_term_objective m).
Qed.

(** What the solver returns as [x] is the basic solution on the original
    variables. *)
Lemma extract_x_is_basic_point (n m : nat) (T : list (list xQ))
    (B : list nat) :
  length B = m -> finite_tableau T = true ->
  unit_columns 0 m T B = true ->
  map value (extract_x n T B) = basic_point T B 0 n.
Proof.
  intros HB Hfin Hinv.
  apply (nth_ext _ _ 0%Q 0%Q).
  - unfold basic_point.
    now rewrite !length_map, length_seq, extract_x_length.
  - intros j Hj. rewrite length_map, extract_x_length in Hj.
    change 0%Q with (value zero) at 1. rewrite map_nth.
    unfold basic_point.
    rewrite (nth_indep _ 0%Q (basic_value T B 0))
      by now rewrite length_map, length_seq.
    rewrite map_nth, seq_nth by exact Hj. cbn [plus].
    unfold basic_value. destruct (index_of j B) as [k|] eqn:Ek.
    + destruct (index_of_some j B k Ek) as [Hk Hjk].
      rewrite (extract_x_last_row n T B k j Hj Hk Hjk); [reflexivity|].
      intros i' Hlt Hi' E.
      assert (i' = k); [|lia].
      apply (unit_columns_injective m T B i' k Hinv); lia.
    + rewrite (extract_x_nonbasic n T B j Hj); [reflexivity|].
      intros i Hi. now apply (index_of_none j B Ek).
Qed.

Lemma pivots_then_optimal (n m k : nat) (T T' : list (list xQ))
    (B B' : list nat) (z : xQ) (x : list xQ) :
  pivots n m k T B T' B' -> pass n m T' B' = Optimal z x ->
  forall fuel show_steps it out,
  exists out',
    simplex_loop (S k + fuel) show_steps n m T B it out
    = Some (mkSimplexResult "optimal" (Some z) (Some x) (it + k + 1)
              msg_optimal, out').
Proof.
  induction 1 as [T B | k T T1 T2 B B1 B2 HP _ IH]; intros Hopt fuel
    show_steps it out.
  - exists out. cbn [plus simplex_loop]. rewrite Hopt.
    now rewrite Nat.add_0_r.
  - destruct (IH Hopt fuel show_steps (it + 1)
                (print_tableau show_steps T1 B1 out)) as [out' E].
    exists out'. change (S (S k) + fuel) with (S (S k + fuel)).
    cbn [simplex_loop]. rewrite HP, E.
    replace (it + 1 + k + 1) with (it + S k + 1) by lia. reflexivity.
Qed.

Lemma last_is_row_m (m : nat) (T : list (list xQ)) :
  length T = m + 1 -> last T [] = nth m T [].
Proof.
  intros HT.
  assert (Hne : T <> []) by (intros E; rewrite E in HT; simpl in HT; lia).
  pose proof HT as HT'.
  rewrite (app_removelast_last [] Hne), length_app in HT'.
  cbn [length] in HT'.
  rewrite (app_removelast_last [] Hne) at 2.
  rewrite app_nth2 by lia.
  replace (m - length (removelast T)) with 0 by lia. reflexivity.
Qed.

(** X12. In exact arithmetic, on a validated input of rationals, a run
    none of whose pivots skips a non-zero factor returns the basic solution
    of its final tableau: once the objective row has no candidate,
    [simplex_max] returns status optimal after [k] pivots with iteration
    count [k + 1]; [x_opt] gives each original variable the right-hand
    side of the row in which it is basic, and 0 when it is not basic;
    [z_opt] is exactly the objective at [x_opt]; and with the slacks [s]
    read from the final tableau in the same way (slack [i] is variable
    [n + i]), [A x_opt + s = b] holds exactly. *)
Theorem clean_run_returns_its_vertex (A : list (list xQ)) (b c : list xQ)
    (k : nat) (T : list (list xQ)) (B : list nat) :
  validate A b c = None ->
  finite_tableau A = true -> forallb is_fin b = true ->
  forallb is_fin c = true ->
  clean_pivots (length (hd [] A)) (length A) k (build_tableau A b c)
               (initial_basis (length (hd [] A)) (length A)) T B ->
  entering_candidates (last T []) = [] ->
  let z := rhs (last T []) in
  let x := extract_x (length (hd [] A)) T B in
  (forall fuel show_steps,
      exists out,
        simplex_max (S k + fuel) A b c show_steps
        = Some (mkSimplexResult "optimal" (Some z) (Some x) (k + 1)
                  msg_optimal, out))
  /\ map value x = basic_point T B 0 (length (hd [] A))
  /\ (dot (map value c) (map value x) == value z)%Q
  /\ forall i, i < length A ->
       (dot (map value (nth i A [])) (map value x)
        + nth i (basic_point T B (length (hd [] A)) (length A)) 0
        == value (nth i b zero))%Q.
Proof.
  intros Hv HA Hb Hc Hclean Hno z x.
  set (m := length A) in *. set (n := length (hd [] A)) in *.
  set (T0 := build_tableau A b c) in *.
  pose proof (build_tableau_finite A b c Hv HA Hb Hc) as Hfin0.
  pose proof (initial_well_shaped A b c Hv) as Hs0w.
  pose proof (initial_unit_columns A b c Hv) as Hinv0.
  fold m n T0 in Hfin0, Hs0w, Hinv0.
  destruct (clean_pivots_invariant n m k T0 T _ B Hclean Hs0w Hfin0 Hinv0)
    as [Hp Hinv].
  pose proof (pivots_keep_shape n m k T0 T _ B Hp Hs0w) as Hsw.
  destruct (pivots_solves n m k T0 T _ B Hp Hs0w Hfin0) as [Hfin Hu].
  assert (Hopt : pass n m T B = Optimal z x).
  { unfold pass. cbv zeta. rewrite Hno. reflexivity. }
  destruct Hsw as (HT & Hw & HB & Hbb).
  assert (Hsw : well_shaped n m T B) by (repeat split; assumption).
  set (x' := basic_point T B 0 n).
  set (s' := basic_point T B n m).
  assert (Ex : map value x = x')
    by (apply (extract_x_is_basic_point n m); assumption).
  assert (Eu : basic_point T B 0 (n + m) ++ [(-1)%Q]
               = x' ++ s' ++ [(-1)%Q]).
  { unfold basic_point, x', s', basic_point.
    rewrite seq_app, map_app, <- app_assoc. reflexivity. }
  pose proof (basic_point_solves n m T B Hsw Hinv) as HsolT.
  pose proof (basic_point_objective n m T B Hsw Hinv) as HobjT.
  rewrite Eu in HsolT, HobjT.
  destruct (Hu (x' ++ s' ++ [(-1)%Q])) as [Hiff Hobj].
  pose proof (proj2 Hiff HsolT) as Hsol0.
  specialize (Hobj Hsol0).
  assert (Hx' : length x' = n)
    by (unfold x', basic_point; now rewrite length_map, length_seq).
  assert (Hs' : length s' = m)
    by (unfold s', basic_point; now rewrite length_map, length_seq).
  split; [|split; [exact Ex|split]].
  - intros fuel show_steps. unfold simplex_max. rewrite Hv.
    fold m n T0.
    destruct (pivots_then_optimal n m k T0 T _ B z x Hp Hopt fuel
                show_steps 0
                (print_tableau show_steps T0 (initial_basis n m) []))
      as [out E].
    exists out. exact E.
  - rewrite Ex. unfold z. rewrite (last_is_row_m m T HT).
    pose proof (initial_objective_on_point A b c x' s' Hv Hc Hx' Hs')
      as E0.
    change (row_dot (nth m T0 []) (x' ++ s' ++ [(-1)%Q])
            == - dot (map value c) x')%Q in E0.
    rewrite E0, HobjT in Hobj. lra.
  - intros i Hi. rewrite Ex. fold s'.
    pose proof (Hsol0 i Hi) as H.
    unfold T0 in H.
    rewrite (initial_row_on_point A b c x' s' i Hv Hx' Hs' Hi) in H.
    lra.
Qed.

(** X12 at scenario A: two pivots without a skipped factor. *)
Lemma clean_run_returns_its_vertex_witness :
  let T0 := build_tableau scenarioA_A scenarioA_b scenarioA_c in
  let T1 := pivot 2 T0 0 0 in
  let T2 := pivot 2 T1 1 1 in
  let x := extract_x 2 T2 [0; 1] in
  clean_pivots 2 2 2 T0 [2; 3] T2 [0; 1]
  /\ entering_candidates (last T2 []) = []
  /\ (dot (map value scenarioA_c) (map value x)
      == value (rhs (last T2 [])))%Q.
Proof.
  intros T0 T1 T2 x.
  assert (Hc : clean_pivots 2 2 2 T0 [2; 3] T2 [0; 1]).
  { apply (clean_S 2 2 1 T0 T1 T2 [2; 3] [0; 3] [0; 1]);
      [reflexivity | reflexivity |].
    apply (clean_S 2 2 0 T1 T2 T2 [0; 3] [0; 1] [0; 1]);
      [reflexivity | reflexivity | constructor]. }
  assert (Hno : entering_candidates (last T2 []) = []) by reflexivity.
  split; [exact Hc|]. split; [exact Hno|].
  exact (proj1 (proj2 (proj2 (clean_run_returns_its_vertex scenarioA_A
                                scenarioA_b scenarioA_c 2 T2 [0; 1] eq_refl
                                eq_refl eq_refl eq_refl Hc Hno)))).
Defined.

(** ** [argmin_with_ties] on arbitrary lists *)

Section ArgminLists.

Context {F : Type} {NF : Num F}.

(** [enumerate(zip(values, eligible))] stops with the shorter list. *)
Lemma enumerate_combine (values : list F) :
  forall (eligible : list bool) (k : nat),
    enumerate_from k (combine values eligible)
    = map (fun i => (i, (nth (i - k) values zero,
                         nth (i - k) eligible false)))
          (seq k (Nat.min (length values) (length eligible))).
Proof.
  induction values as [|v vs IH]; intros [|e es] k; try reflexivity.
  cbn [combine enumerate_from length Nat.min seq map].
  rewrite Nat.sub_diag. cbn [nth]. f_equal.
  rewrite IH. apply map_ext_in. intros i Hi. apply in_seq in Hi.
  replace (i - k) with (S (i - S k)) by lia. reflexivity.
Qed.

Lemma argmin_with_ties_as_scan (values : list F) (eligible : list bool) :
  argmin_with_ties values eligible
  = argmin_scan
      (map (fun i => (i, (nth i values zero, nth i eligible false)))
           (seq 0 (Nat.min (length values) (length eligible))))
      None inf.
Proof.
  unfold argmin_with_ties, enumerate. rewrite enumerate_combine.
  f_equal. apply map_ext. intros i. now rewrite Nat.sub_0_r.
Qed.

(** X13. [argmin_with_ties] only looks at the positions both lists have
    ([zip] stops with the shorter one): an index it returns is in range of
    both lists and is marked eligible, and it returns [None] when no such
    position is eligible, in particular when either list is empty.  In any
    arithmetic. *)
Theorem argmin_with_ties_in_range (values : list F)
    (eligible : list bool) :
  (forall i, argmin_with_ties values eligible = Some i ->
             i < length values /\ i < length eligible
             /\ nth i eligible false = true)
  /\ ((forall i, i < length values -> i < length eligible ->
                 nth i eligible false = false) ->
      argmin_with_ties values eligible = None)
  /\ argmin_with_ties [] eligible = None
  /\ argmin_with_ties values [] = None.
Proof.
  rewrite argmin_with_ties_as_scan. split; [|split; [|split]].
  - intros i H.
    apply (argmin_scan_picks_eligible
             (fun i => (nth i values zero, nth i eligible false))) in H.
    destruct H as [H | [Hi Hok]]; [discriminate|]. cbn [snd] in Hok.
    repeat split; try exact Hok; lia.
  - intros Hno.
    apply (argmin_scan_none_eligible
             (fun i => (nth i values zero, nth i eligible false))).
    intros i Hi. cbn [snd]. apply Hno; lia.
  - reflexivity.
  - unfold argmin_with_ties. now destruct values.
Qed.

End ArgminLists.

(** X14. In exact arithmetic [argmin_with_ties] does what its docstring
    says up to the tolerance: among the positions that both lists have,
    when the eligible values are finite, it returns [None] only if no
    position is eligible, and otherwise an eligible position whose value is
    at most [1e-12] above every other eligible value and strictly below
    every eligible value before it. *)
Theorem argmin_with_ties_exact (values : list xQ) (eligible : list bool) :
  (forall i, i < length values -> nth i eligible false = true ->
             is_fin (nth i values zero) = true) ->
  min_ratio_choice (fun i => nth i eligible false)
                   (fun i => value (nth i values zero))
                   (Nat.min (length values) (length eligible))
                   (argmin_with_ties values eligible).
Proof.
  intros Hfin. rewrite argmin_with_ties_as_scan.
  set (K := Nat.min (length values) (length eligible)).
  set (ok := fun i => (i <? K) && nth i eligible false).
  assert (Hscan :
    argmin_scan
      (map (fun i => (i, (nth i values zero, nth i eligible false)))
           (seq 0 K)) None inf
    = argmin_scan
        (map (fun i => (i, (nth i values zero, ok i))) (seq 0 K))
        None PInf).
  { f_equal. apply map_ext_in. intros i Hi. apply in_seq in Hi.
    unfold ok. replace (i <? K) with true
      by (symmetry; apply Nat.ltb_lt; lia).
    reflexivity. }
  rewrite Hscan.
  assert (Hokfin : forall i, ok i = true ->
                             is_fin (nth i values zero) = true).
  { intros i Hi. unfold ok in Hi. apply andb_true_iff in Hi.
    destruct Hi as [HiK Hi]. apply Nat.ltb_lt in HiK.
    apply Hfin; [unfold K in HiK; lia | exact Hi]. }
  pose proof (argmin_scan_min_ratio (fun i => nth i values zero) ok
                Hokfin K 0 None PInf
                (conj eq_refl (fun i (H : i < 0) =>
                                 False_ind _ (Nat.nlt_0_r i H))))
    as Hmin.
  cbn [plus] in Hmin.
  destruct (argmin_scan _ None PInf) as [l|]; unfold min_ratio_choice in *.
  - destruct Hmin as (Hl & Hokl & Hle & Hlt).
    assert (Hin : forall i, i < K -> ok i = nth i eligible false).
    { intros i Hi. unfold ok.
      replace (i <? K) with true by (symmetry; now apply Nat.ltb_lt).
      reflexivity. }
    split; [exact Hl|]. split; [now rewrite <- Hin|]. split.
    + intros i Hi Hel. apply Hle; [exact Hi | now rewrite Hin].
    + intros i Hi Hel. apply Hlt; [exact Hi|]. rewrite Hin by lia.
      exact Hel.
  - intros i Hi. specialize (Hmin i Hi). unfold ok in Hmin.
    replace (i <? K) with true in Hmin
      by (symmetry; now apply Nat.ltb_lt).
    exact Hmin.
Qed.

(** X14 on three values of which the second is not eligible and the list
    of flags is the longer one. *)
Lemma argmin_with_ties_exact_witness :
  let values := [Fin 3; Fin 1; Fin 2] in
  let eligible := [true; false; true; true] in
  argmin_with_ties values eligible = Some 2
  /\ min_ratio_choice (fun i => nth i eligible false)
                      (fun i => value (nth i values zero)) 3 (Some 2).
Proof.
  intros values eligible.
  assert (Hfin : forall i, i < length values ->
                           nth i eligible false = true ->
                           is_fin (nth i values zero) = true).
  { intros [|[|[|i]]] Hi _; try reflexivity. simpl in Hi. lia. }
  split; [reflexivity|].
  exact (argmin_with_ties_exact values eligible Hfin).
Defined.

(** ** Optimality of the returned vertex *)

(** A tableau reached by pivoting whose objective row has no candidate
    bounds the objective of every feasible point by its last entry. *)
Lemma reached_tableau_bounds (A : list (list xQ)) (b c : list xQ)
    (k : nat) (T : list (list xQ)) (B : list nat) (x s : list Q) :
  validate A b c = None ->
  finite_tableau A = true -> forallb is_fin b = true ->
  forallb is_fin c = true ->
  pivots (length (hd [] A)) (length A) k (build_tableau A b c)
         (initial_basis (length (hd [] A)) (length A)) T B ->
  (forall j, j < length (last T []) - 1 ->
             ltb (nth j (last T []) zero) (opp eps12) = false) ->
  length x = length (hd [] A) -> length s = length A ->
  Forall (fun a => (0 <= a)%Q) x -> Forall (fun a => (0 <= a)%Q) s ->
  (forall i, i < length A ->
     (dot (map value (nth i A [])) x + nth i s 0
      == value (nth i b zero))%Q) ->
  (dot (map value c) x
   <= value (rhs (last T [])) + eps * (total x + total s))%Q.
Proof.
  intros Hv HA Hb Hc Hp Hno Hx Hs Hx0 Hs0 Hfeas.
  set (m := length A) in *. set (n := length (hd [] A)) in *.
  set (T0 := build_tableau A b c) in *.
  set (u := x ++ s ++ [(-1)%Q]).
  pose proof (build_tableau_finite A b c Hv HA Hb Hc) as Hfin0.
  pose proof (initial_well_shaped A b c Hv) as Hs0w.
  fold m n T0 in Hfin0, Hs0w.
  destruct (pivots_solves n m k T0 T _ B Hp Hs0w Hfin0) as [Hfin Hu].
  destruct (Hu u) as [_ Hobj].
  destruct (pivots_keep_shape n m k T0 T _ B Hp Hs0w) as (HT & Hw & _).
  assert (Hsol : solves m T0 u).
  { intros i Hi. unfold u, T0.
    rewrite (initial_row_on_point A b c x s i Hv Hx Hs Hi).
    rewrite (Hfeas i Hi). ring. }
  specialize (Hobj Hsol).
  pose proof (initial_objective_on_point A b c x s Hv Hc Hx Hs) as E0.
  change (row_dot (nth m T0 []) u == - dot (map value c) x)%Q in E0.
  rewrite E0 in Hobj. clear E0.
  rewrite (last_is_row_m m T HT) in *.
  set (row := nth m T []) in *.
  assert (Hrow : length row = n + m + 1)
    by (apply (rows_of_width_nth _ T m Hw); lia).
  assert (Hne : row <> [])
    by (intros E; rewrite E in Hrow; simpl in Hrow; lia).
  assert (Hfr : forallb is_fin row = true)
    by (apply finite_tableau_row; exact Hfin).
  assert (Hu' : u = (x ++ s) ++ [(-1)%Q])
    by (unfold u; now rewrite app_assoc).
  rewrite Hu' in Hobj.
  rewrite (row_dot_split_last row (x ++ s) (-1) Hne) in Hobj
    by (rewrite length_app, Hrow, Hx, Hs; lia).
  assert (Hlow : (- eps * total (x ++ s)
                  <= dot (map value (removelast row)) (x ++ s))%Q).
  { apply dot_lower_bound.
    - now apply finite_removelast.
    - apply Forall_app. split; assumption.
    - intros j Hj. rewrite nth_removelast by exact Hj. apply Hno.
      rewrite (app_removelast_last zero Hne) at 1.
      rewrite length_app. simpl. lia. }
  rewrite total_app in Hlow. unfold rhs. lra.
Qed.

(** The basic solution is non-negative when the right-hand sides are. *)
Lemma basic_point_nonneg (T : list (list xQ)) (B : list nat)
    (k len : nat) :
  (forall i, i < length B -> (0 <= value (rhs (nth i T [])))%Q) ->
  Forall (fun a => (0 <= a)%Q) (basic_point T B k len).
Proof.
  intros H. apply Forall_forall. intros a Ha.
  unfold basic_point in Ha. apply in_map_iff in Ha.
  destruct Ha as (j & <- & _). unfold basic_value.
  destruct (index_of j B) as [i|] eqn:E.
  - apply H. now apply index_of_some in E.
  - apply Qle_refl.
Qed.

(** X15. In exact arithmetic, on a validated input of rationals, take a
    run none of whose pivots skips a non-zero factor and that ends on an
    objective row without candidate. If the right-hand sides of the final
    tableau are non-negative, the returned [x_opt] is feasible
    ([x >= 0], [A x <= b]) and optimal up to the tolerance: every feasible
    point [y >= 0] with slacks [s >= 0], [A y + s = b], has
    [c^T y <= c^T x_opt + 1e-12 * (sum of y + sum of s)]. *)
Theorem clean_run_is_optimal_within_tolerance (A : list (list xQ))
    (b c : list xQ) (k : nat) (T : list (list xQ)) (B : list nat) :
  validate A b c = None ->
  finite_tableau A = true -> forallb is_fin b = true ->
  forallb is_fin c = true ->
  clean_pivots (length (hd [] A)) (length A) k (build_tableau A b c)
               (initial_basis (length (hd [] A)) (length A)) T B ->
  entering_candidates (last T []) = [] ->
  (forall i, i < length A -> (0 <= value (rhs (nth i T [])))%Q) ->
  let x := map value (extract_x (length (hd [] A)) T B) in
  Forall (fun a => (0 <= a)%Q) x
  /\ (forall i, i < length A ->
        (dot (map value (nth i A [])) x <= value (nth i b zero))%Q)
  /\ forall y s : list Q,
       length y = length (hd [] A) -> length s = length A ->
       Forall (fun a => (0 <= a)%Q) y -> Forall (fun a => (0 <= a)%Q) s ->
       (forall i, i < length A ->
          (dot (map value (nth i A [])) y + nth i s 0
           == value (nth i b zero))%Q) ->
       (dot (map value c) y
        <= dot (map value c) x + eps * (total y + total s))%Q.
Proof.
  intros Hv HA Hb Hc Hclean Hno Hrhs x.
  set (m := length A) in *. set (n := length (hd [] A)) in *.
  set (T0 := build_tableau A b c) in *.
  pose proof (build_tableau_finite A b c Hv HA Hb Hc) as Hfin0.
  pose proof (initial_well_shaped A b c Hv) as Hs0w.
  pose proof (initial_unit_columns A b c Hv) as Hinv0.
  fold m n T0 in Hfin0, Hs0w, Hinv0.
  destruct (clean_pivots_invariant n m k T0 T _ B Hclean Hs0w Hfin0 Hinv0)
    as [Hp Hinv].
  pose proof (pivots_keep_shape n m k T0 T _ B Hp Hs0w) as Hsw.
  destruct (pivots_solves n m k T0 T _ B Hp Hs0w Hfin0) as [Hfin Hu].
  destruct Hsw as (HT & Hw & HB & Hbb).
  assert (Hsw : well_shaped n m T B) by (repeat split; assumption).
  set (x' := basic_point T B 0 n).
  set (s' := basic_point T B n m).
  assert (Ex : x = x')
    by (apply (extract_x_is_basic_point n m); assumption).
  assert (Eu : basic_point T B 0 (n + m) ++ [(-1)%Q]
               = x' ++ s' ++ [(-1)%Q]).
  { unfold basic_point, x', s', basic_point.
    rewrite seq_app, map_app, <- app_assoc. reflexivity. }
  pose proof (basic_point_solves n m T B Hsw Hinv) as HsolT.
  pose proof (basic_point_objective n m T B Hsw Hinv) as HobjT.
  rewrite Eu in HsolT, HobjT.
  destruct (Hu (x' ++ s' ++ [(-1)%Q])) as [Hiff Hobj].
  pose proof (proj2 Hiff HsolT) as Hsol0.
  specialize (Hobj Hsol0).
  assert (Hx' : length x' = n)
    by (unfold x', basic_point; now rewrite length_map, length_seq).
  assert (Hs' : length s' = m)
    by (unfold s', basic_point; now rewrite length_map, length_seq).
  assert (Hpos : forall i, i < length B ->
                   (0 <= value (rhs (nth i T [])))%Q)
    by (intros i Hi; apply Hrhs; lia).
  assert (Hz : (dot (map value c) x' == value (rhs (last T [])))%Q).
  { rewrite (last_is_row_m m T HT).
    pose proof (initial_objective_on_point A b c x' s' Hv Hc Hx' Hs')
      as E0.
    change (row_dot (nth m T0 []) (x' ++ s' ++ [(-1)%Q])
            == - dot (map value c) x')%Q in E0.
    rewrite E0, HobjT in Hobj. lra. }
  rewrite Ex. split; [|split].
  - apply basic_point_nonneg. exact Hpos.
  - intros i Hi.
    pose proof (Hsol0 i Hi) as H.
    unfold T0 in H.
    rewrite (initial_row_on_point A b c x' s' i Hv Hx' Hs' Hi) in H.
    assert (Hsi : (0 <= nth i s' 0)%Q).
    { apply Forall_nth; [|lia].
      apply basic_point_nonneg. exact Hpos. }
    lra.
  - intros y s Hy Hs Hy0 Hs0 Hfeas. rewrite Hz.
    apply (reached_tableau_bounds A b c k T B y s); try assumption.
    intros j Hj.
    destruct (ltb (nth j (last T []) zero) (opp eps12)) eqn:E;
      [|reflexivity].
    exfalso.
    apply (proj1 (entering_candidates_nil (last T [])) Hno j).
    split; assumption.
Qed.

(** X15 at scenario A: the vertex [(8/3, 8/3)] against the feasible point
    [(1, 1)] with slacks [(5, 5)]. *)
Lemma clean_run_is_optimal_within_tolerance_witness :
  let T0 := build_tableau scenarioA_A scenarioA_b scenarioA_c in
  let T1 := pivot 2 T0 0 0 in
  let T2 := pivot 2 T1 1 1 in
  let x := map value (extract_x 2 T2 [0; 1]) in
  let y := [1; 1]%Q in
  let s := [5; 5]%Q in
  clean_pivots 2 2 2 T0 [2; 3] T2 [0; 1]
  /\ entering_candidates (last T2 []) = []
  /\ (forall i, i < 2 -> (0 <= value (rhs (nth i T2 [])))%Q)
  /\ (forall i, i < 2 ->
        (dot (map value (nth i scenarioA_A [])) y + nth i s 0
         == value (nth i scenarioA_b zero))%Q)
  /\ (dot (map value scenarioA_c) y
      <= dot (map value scenarioA_c) x + eps * (total y + total s))%Q.
Proof.
  intros T0 T1 T2 x y s.
  assert (Hc : clean_pivots 2 2 2 T0 [2; 3] T2 [0; 1]).
  { apply (clean_S 2 2 1 T0 T1 T2 [2; 3] [0; 3] [0; 1]);
      [reflexivity | reflexivity |].
    apply (clean_S 2 2 0 T1 T2 T2 [0; 3] [0; 1] [0; 1]);
      [reflexivity | reflexivity | constructor]. }
  assert (Hno : entering_candidates (last T2 []) = []) by reflexivity.
  assert (Hrhs : forall i, i < 2 -> (0 <= value (rhs (nth i T2 [])))%Q).
  { intros [|[|i]] Hi; [discriminate | discriminate | lia]. }
  assert (Hfeas : forall i, i < 2 ->
            (dot (map value (nth i scenarioA_A [])) y + nth i s 0
             == value (nth i scenarioA_b zero))%Q).
  { intros [|[|i]] Hi; [reflexivity | reflexivity | lia]. }
  assert (Hy : Forall (fun a => (0 <= a)%Q) y)
    by (repeat constructor; discriminate).
  assert (Hs : Forall (fun a => (0 <= a)%Q) s)
    by (repeat constructor; discriminate).
  split; [exact Hc|]. split; [exact Hno|]. split; [exact Hrhs|].
  split; [exact Hfeas|].
  exact (proj2 (proj2 (clean_run_is_optimal_within_tolerance scenarioA_A
                         scenarioA_b scenarioA_c 2 T2 [0; 1] eq_refl
                         eq_refl eq_refl eq_refl Hc Hno Hrhs))
           y s eq_refl eq_refl Hy Hs Hfeas).
Defined.
